(** * Verification model of the GRC AI service engine

    Shallow embedding of the Python services
    - [services/risk_prediction.py]     (RiskPredictionService)
    - [services/document_analyzer.py]   (DocumentAnalyzerService)
    - [services/recommendation_engine.py] (RecommendationEngine)
    - [main.py]                         ([assess_risk])
    [services/gap_analysis.py] is not modelled: line 79 of it,
    [priority': 'High'], is an unterminated string literal, so the module
    raises [SyntaxError] when it is imported and none of its functions runs.

    Modelling conventions.
    - Python [float] is the kernel's IEEE-754 binary64 type [float]
      ([Stdlib.Floats]); the arithmetic and the comparisons are those of
      the source, in the source's order of evaluation.
    - A JSON-like Python value is [pyval]; a [dict] with string keys is an
      association list (first binding wins on lookup, [dict_set] replaces in
      place or appends, as CPython's insertion-ordered dict does).
    - A raised exception is [Err e] of the [result] monad.
    - Text is ASCII: [string] of the Standard Library, processed as
      [list ascii].  Timestamps ([datetime.now().isoformat()]) are a
      parameter [now] of the functions that read the clock. *)

From Stdlib Require Import Reals Lra.
From Stdlib Require Import ZArith Bool List String Ascii Floats Lia.
From Stdlib Require Import Sorting.Permutation Sorting.Sorted.
Import ListNotations.

Set Warnings "-inexact-float -register-all".
Local Open Scope Z_scope.

(* ------------------------------------------------------------------ *)
(** ** Python values, exceptions and the result monad *)

Inductive pyval : Type :=
| VNone
| VBool (b : bool)
| VInt (z : Z)
| VFloat (f : float)
| VStr (s : string)
| VList (l : list pyval)
| VDict (d : list (string * pyval)).

Definition dict := list (string * pyval).

Inductive py_exc : Type :=
| KeyError
| TypeError
| AttributeError
| ValueError (msg : string).

Inductive result (A : Type) : Type :=
| Ok (a : A)
| Err (e : py_exc).
Arguments Ok {A} a.
Arguments Err {A} e.

Definition bind {A B} (m : result A) (k : A -> result B) : result B :=
  match m with
  | Ok a => k a
  | Err e => Err e
  end.

Notation "'let*' x ':=' m 'in' k" := (bind m (fun x => k))
  (at level 200, x binder, m at level 100, k at level 200).

Definition is_ok {A} (m : result A) : bool :=
  match m with Ok _ => true | Err _ => false end.

(** [map] whose function may raise: the first exception wins, as in a
    Python comprehension. *)
Fixpoint map_r {A B} (f : A -> result B) (l : list A) : result (list B) :=
  match l with
  | [] => Ok []
  | x :: l' => let* y := f x in let* ys := map_r f l' in Ok (y :: ys)
  end.

(** [dict.get(key)]: the first binding of [key]. *)
Fixpoint dict_get (d : dict) (k : string) : option pyval :=
  match d with
  | [] => None
  | (k', v) :: d' => if String.eqb k k' then Some v else dict_get d' k
  end.

Definition dict_get_default (d : dict) (k : string) (dflt : pyval) : pyval :=
  match dict_get d k with Some v => v | None => dflt end.

(** [d[key] = v]: an existing key keeps its place, a new key is appended. *)
Fixpoint dict_set (d : dict) (k : string) (v : pyval) : dict :=
  match d with
  | [] => [(k, v)]
  | (k', v') :: d' =>
      if String.eqb k k' then (k', v) :: d' else (k', v') :: dict_set d' k v
  end.

(** [d.get(key)] on a dict whose values all have one type. *)
Fixpoint assoc {A} (k : string) (d : list (string * A)) : option A :=
  match d with
  | [] => None
  | (k', v) :: d' => if String.eqb k k' then Some v else assoc k d'
  end.

(** A list comprehension with a condition that may raise. *)
Fixpoint filter_r {A} (p : A -> result bool) (l : list A) : result (list A) :=
  match l with
  | [] => Ok []
  | x :: l' =>
      let* b := p x in
      let* r := filter_r p l' in
      Ok (if b then x :: r else r)
  end.

(** [obj[key]] with a string key on an arbitrary value. *)
Definition py_getitem (o : pyval) (k : string) : result pyval :=
  match o with
  | VDict d => match dict_get d k with Some v => Ok v | None => Err KeyError end
  | _ => Err TypeError
  end.

(** [hash(v)] succeeds except on the mutable containers. *)
Definition hashable (v : pyval) : bool :=
  match v with VList _ | VDict _ => false | _ => true end.

(** [v == 'lit'] for a string literal. *)
Definition pyval_is_str (v : pyval) (s : string) : bool :=
  match v with VStr s' => String.eqb s' s | _ => false end.

Definition opt_is_str (o : option pyval) (s : string) : bool :=
  match o with Some v => pyval_is_str v s | None => false end.

(* ------------------------------------------------------------------ *)
(** ** ASCII text helpers ([str.lower], [str.isspace], [str.strip], ...) *)

Definition lower_ascii (c : ascii) : ascii :=
  let n := nat_of_ascii c in
  if andb (Nat.leb 65 n) (Nat.leb n 90) then ascii_of_nat (n + 32) else c.

(** [str.isspace] on ASCII: TAB..CR, the four separators 0x1c..0x1f, SPACE.
    The same set is [\s] of [re] on [str] patterns. *)
Definition is_space (c : ascii) : bool :=
  let n := nat_of_ascii c in
  orb (andb (Nat.leb 9 n) (Nat.leb n 13))
      (orb (andb (Nat.leb 28 n) (Nat.leb n 31)) (Nat.eqb n 32)).

Definition is_upper (c : ascii) : bool :=
  let n := nat_of_ascii c in andb (Nat.leb 65 n) (Nat.leb n 90).

Definition is_digit (c : ascii) : bool :=
  let n := nat_of_ascii c in andb (Nat.leb 48 n) (Nat.leb n 57).

Definition str_lower (s : string) : string :=
  string_of_list_ascii (map lower_ascii (list_ascii_of_string s)).

Fixpoint lstrip (l : list ascii) : list ascii :=
  match l with
  | c :: l' => if is_space c then lstrip l' else l
  | [] => []
  end.

Definition py_strip (l : list ascii) : list ascii := rev (lstrip (rev (lstrip l))).

(** [span p l]: the longest prefix of [l] whose characters satisfy [p],
    and the rest. *)
Fixpoint span (p : ascii -> bool) (l : list ascii) : list ascii * list ascii :=
  match l with
  | c :: l' => if p c then let '(a, b) := span p l' in (c :: a, b) else ([], l)
  | [] => ([], [])
  end.

(** [s.split(sep)] for a one-character separator: always one more piece
    than there are separators. *)
Fixpoint split_on (sep : ascii) (l : list ascii) : list (list ascii) :=
  match l with
  | [] => [[]]
  | c :: l' =>
      if Ascii.eqb c sep then [] :: split_on sep l'
      else match split_on sep l' with
           | w :: ws => (c :: w) :: ws
           | [] => [[c]]
           end
  end.

(** [s.split()]: the maximal runs of non-whitespace characters. *)
Fixpoint split_ws_aux (cur : list ascii) (l : list ascii) : list (list ascii) :=
  match l with
  | [] => match cur with [] => [] | _ => [rev cur] end
  | c :: l' =>
      if is_space c
      then match cur with [] => split_ws_aux [] l' | _ => rev cur :: split_ws_aux [] l' end
      else split_ws_aux (c :: cur) l'
  end.

Definition split_ws (l : list ascii) : list (list ascii) := split_ws_aux [] l.

Fixpoint is_prefix (p l : list ascii) : bool :=
  match p, l with
  | [], _ => true
  | c :: p', d :: l' => Ascii.eqb c d && is_prefix p' l'
  | _ :: _, [] => false
  end.

(** [needle in hay] for strings. *)
Fixpoint contains (needle hay : list ascii) : bool :=
  is_prefix needle hay ||
  match hay with
  | [] => false
  | _ :: hay' => contains needle hay'
  end.

Definition str_contains (needle hay : string) : bool :=
  contains (list_ascii_of_string needle) (list_ascii_of_string hay).

(** [subseq l1 l2]: [l1] is [l2] with some elements left out, in order. *)
Inductive subseq {A : Type} : list A -> list A -> Prop :=
| subseq_nil : subseq [] []
| subseq_skip x l1 l2 : subseq l1 l2 -> subseq l1 (x :: l2)
| subseq_take x l1 l2 : subseq l1 l2 -> subseq (x :: l1) (x :: l2).

(* ------------------------------------------------------------------ *)
(** ** Python's float built-ins [round] and [int] *)

Local Open Scope float_scope.

(** Round-half-to-even of the rational [n / d], [d > 0]. *)
Definition Z_round_half_even (n d : Z) : Z :=
  let q := (n / d)%Z in
  let r := (n - q * d)%Z in
  match Z.compare (2 * r) d with
  | Lt => q
  | Gt => (q + 1)%Z
  | Eq => if Z.even q then q else (q + 1)%Z
  end.

(** [round(x, nd)] on a float: CPython's [double_round] takes the exact
    binary value of [x], rounds it half-to-even to [nd] decimals
    ([_Py_dg_dtoa], mode 3) and reads the decimal back to the nearest double
    ([_Py_dg_strtod]).  The magnitude [k / 10^nd] is read back by one
    correctly rounded IEEE division; the sign is carried separately, so a
    result of zero keeps the sign of [x]. *)
Definition py_round (nd : nat) (x : float) : float :=
  match Prim2SF x with
  | S754_finite s m e =>
      let p := (10 ^ Z.of_nat nd)%Z in
      let '(num, den) :=
        if (0 <=? e)%Z then ((Zpos m * 2 ^ e * p)%Z, 1%Z)
        else ((Zpos m * p)%Z, (2 ^ (- e))%Z) in
      match Z_round_half_even num den with
      | Zpos k => SF2Prim (SF64div (S754_finite s k 0) (S754_finite false (Z.to_pos p) 0))
      | _ => SF2Prim (S754_zero s)
      end
  | _ => x
  end.

(** [round(x)] with no digit count: the nearest integer, ties to even. *)
Definition py_round_int (x : float) : result Z :=
  match Prim2SF x with
  | S754_finite s m e =>
      let k := if (0 <=? e)%Z then (Zpos m * 2 ^ e)%Z
               else Z_round_half_even (Zpos m) (2 ^ (- e)) in
      Ok (if s then (- k)%Z else k)
  | S754_zero _ => Ok 0%Z
  | S754_infinity _ => Err (ValueError "cannot convert float infinity to integer")
  | S754_nan => Err (ValueError "cannot convert float NaN to integer")
  end.

(** [int(x)] on a float: truncation toward zero. *)
Definition py_int (x : float) : result Z :=
  match Prim2SF x with
  | S754_finite s m e =>
      let k := if (0 <=? e)%Z then (Zpos m * 2 ^ e)%Z else Z.shiftr (Zpos m) (- e) in
      Ok (if s then (- k)%Z else k)
  | S754_zero _ => Ok 0%Z
  | S754_infinity _ => Err (ValueError "cannot convert float infinity to integer")
  | S754_nan => Err (ValueError "cannot convert float NaN to integer")
  end.

(** [a / b] on Python ints, [b > 0]: CPython's [long_true_divide] returns
    the correctly rounded quotient (quotients beyond the float range, where
    it raises [OverflowError], do not arise for the counts divided here). *)
Definition int_truediv (a : Z) (b : positive) : float :=
  match a with
  | Z0 => 0
  | Zpos p => SF2Prim (SF64div (S754_finite false p 0) (S754_finite false b 0))
  | Zneg p => SF2Prim (SF64div (S754_finite true p 0) (S754_finite false b 0))
  end.

(* ------------------------------------------------------------------ *)
(** ** Exact values of binary64 floats

    The real number a float stands for, the location of a value between two
    integers (SpecFloat's [location]), rounding to nearest with ties to even,
    and the non-negative floats with their order. *)

Section ExactValues.
Local Open Scope R_scope.

Definition bpow (e : Z) : R := powerRZ 2 e.

(** Where a value lies relative to an integer and the half-way point above it:
    the meaning of SpecFloat's [location]. *)
Definition inbetween (u : R) (m : Z) (l : location) : Prop :=
  match l with
  | loc_Exact => u = IZR m
  | loc_Inexact Lt => IZR m < u < IZR m + /2
  | loc_Inexact Eq => u = IZR m + /2
  | loc_Inexact Gt => IZR m + /2 < u < IZR m + 1
  end.

(** [z] is [u] rounded to the nearest integer, ties to even. *)
Definition is_rne (u : R) (z : Z) : Prop :=
  (IZR z - /2 < u < IZR z + /2) \/
  (Z.even z = true /\ (u = IZR z - /2 \/ u = IZR z + /2)).

(** The second stage of [binary_round_aux], after rounding: renormalise the
    rounded mantissa [z] at exponent [E] and build the float. *)
Definition round_tail (z E : Z) : spec_float :=
  let '(mrs, e') := shr_fexp prec emax z E loc_Exact in
  match shr_m mrs with
  | Z0 => S754_zero false
  | Zpos m => if Z.leb e' (Z.sub emax prec) then S754_finite false m e'
              else S754_infinity false
  | _ => S754_nan
  end.

Definition mag_ok (x : R) (k : Z) : Prop :=
  x < bpow k /\ (bpow (k - 1) <= x \/ (k <= -1021)%Z).

(** [z * 2^(fexp k)] is the correctly rounded value of [x >= 0], whose
    magnitude is [k]. *)
Definition rnd_ok (x : R) (k z : Z) : Prop :=
  0 <= x /\ mag_ok x k /\ is_rne (x / bpow (fexp prec emax k)) z.

(** Canonical positive binary64 mantissas and exponents. *)
Definition canon (m : positive) (e : Z) : Prop :=
  (Zpos m < 2 ^ 53)%Z /\ (-1074 <= e)%Z /\ ((-1074 < e)%Z -> (2 ^ 52 <= Zpos m)%Z).

(** Non-negative floats: [+0], [+inf] and canonical positive finite floats,
    and the value of the finite ones. *)
Definition nonneg_sf (f : spec_float) : Prop :=
  match f with
  | S754_zero false | S754_infinity false => True
  | S754_finite false m e => canon m e
  | _ => False
  end.

Definition sf_val (f : spec_float) : R :=
  match f with
  | S754_finite false m e => IZR (Zpos m) * bpow e
  | _ => 0
  end.

Definition ext_le (f1 f2 : spec_float) : Prop :=
  match f1, f2 with
  | _, S754_infinity false => True
  | S754_infinity false, _ => False
  | _, _ => sf_val f1 <= sf_val f2
  end.

Definition round_res (p k : Z) : spec_float :=
  match k with
  | Zpos k' => SFdiv prec emax (S754_finite false k' 0) (S754_finite false (Z.to_pos p) 0)
  | _ => S754_zero false
  end.

Definition mult_ok (m : float) : Prop := m = 0.8%float \/ m = 1.0%float \/ m = 1.3%float \/ m = 1.5%float.

End ExactValues.

Ltac split_hyps :=
  repeat match goal with
  | H : _ /\ _ |- _ => destruct H
  end.

Ltac const_canon := vm_compute; repeat split; try reflexivity; intros; discriminate.

Ltac sf_const c := let v := eval vm_compute in (Prim2SF c) in change (Prim2SF c) with v in *.

(* ------------------------------------------------------------------ *)
(** ** risk_prediction.py *)

Module RiskPrediction.

(** The keys read by [calculate_risk_score]; [None] is an absent key.
    Numbers are floats (an [int] argument is converted exactly by the first
    multiplication). *)
Record risk_data := mk_risk_data {
  rd_likelihood : option float;
  rd_impact : option float;
  rd_control_effectiveness : option float;
  rd_threat_level : option string
}.

Record risk_score_result := mk_risk_score_result {
  risk_score : float;
  classification : string;
  priority : Z;
  likelihood : float;
  impact : float;
  confidence : float
}.

Definition get {A} (o : option A) (dflt : A) : A :=
  match o with Some v => v | None => dflt end.

(** [threat_multipliers.get(threat_level)] *)
Definition threat_multipliers (t : string) : option float :=
  if String.eqb t "low" then Some 0.8
  else if String.eqb t "medium" then Some 1.0
  else if String.eqb t "high" then Some 1.3
  else if String.eqb t "critical" then Some 1.5
  else None.

(** The [if/elif] classification chain. *)
Definition classify (final_score : float) : string * Z :=
  if 15 <=? final_score then ("Critical"%string, 1%Z)
  else if 10 <=? final_score then ("High"%string, 2%Z)
  else if 5 <=? final_score then ("Medium"%string, 3%Z)
  else ("Low"%string, 4%Z).

Definition calculate_risk_score (risk_data : risk_data) : risk_score_result :=
  let likelihood := get (rd_likelihood risk_data) 3 in
  let impact := get (rd_impact risk_data) 3 in
  let control_effectiveness := get (rd_control_effectiveness risk_data) 70 / 100 in
  let threat_level := get (rd_threat_level risk_data) "medium"%string in
  let adjusted_likelihood := likelihood * (1 - (control_effectiveness * 0.4)) in
  let threat_multiplier := get (threat_multipliers threat_level) 1.0 in
  let base_score := adjusted_likelihood * impact in
  let final_score := base_score * threat_multiplier in
  let '(classification, priority) := classify final_score in
  {| risk_score := py_round 2 final_score;
     classification := classification;
     priority := priority;
     likelihood := py_round 2 adjusted_likelihood;
     impact := impact;
     confidence := py_round 1 (control_effectiveness * 100) |}.

(** The unrounded [final_score] of [calculate_risk_score]. *)
Definition final_score (risk_data : risk_data) : float :=
  let likelihood := get (rd_likelihood risk_data) 3 in
  let impact := get (rd_impact risk_data) 3 in
  let control_effectiveness := get (rd_control_effectiveness risk_data) 70 / 100 in
  let threat_level := get (rd_threat_level risk_data) "medium"%string in
  likelihood * (1 - (control_effectiveness * 0.4)) * impact
    * get (threat_multipliers threat_level) 1.0.

(** The spec's wording of the score: [likelihood * (1 - controlEffectiveness
    / 100 * 0.4) * impact * threatMultiplier], multipliers
    [{low:0.8, medium:1.0, high:1.3, critical:1.5}], any other level as
    medium; thresholds [>= 15], [>= 10], [>= 5] tried highest first. *)
Definition spec_threat_multiplier (t : string) : float :=
  if String.eqb t "low" then 0.8
  else if String.eqb t "high" then 1.3
  else if String.eqb t "critical" then 1.5
  else 1.0.

Definition spec_score (likelihood impact control_effectiveness : float) (t : string) : float :=
  likelihood * (1 - control_effectiveness / 100 * 0.4) * impact * spec_threat_multiplier t.

Definition spec_classify (score : float) : string * Z :=
  if 15 <=? score then ("Critical"%string, 1%Z)
  else if 10 <=? score then ("High"%string, 2%Z)
  else if 5 <=? score then ("Medium"%string, 3%Z)
  else ("Low"%string, 4%Z).

(** An emerging-risk record; the four catalog keys and the four keys the
    prediction loop adds. *)
Record emerging_risk := mk_emerging_risk {
  er_name : string;
  er_category : string;
  er_probability : float;
  er_description : string;
  predicted_on : string;
  time_horizon : string;
  predicted_likelihood : Z;
  predicted_impact : Z
}.

Record catalog_risk := mk_catalog_risk {
  cr_name : string;
  cr_category : string;
  cr_probability : float;
  cr_description : string
}.

(** [emerging_risks_db.get(industry)]; the dict literal is built anew by
    each call, so the records the loop extends are never shared. *)
Definition emerging_risks_db (industry : string) : list catalog_risk :=
  if String.eqb industry "technology" then
    [ mk_catalog_risk "AI/ML Security Vulnerabilities" "Cybersecurity" 0.75
        "Risks from AI model poisoning and adversarial attacks";
      mk_catalog_risk "Supply Chain Software Risks" "Third Party" 0.68
        "Vulnerabilities in dependencies and open-source components" ]
  else if String.eqb industry "finance" then
    [ mk_catalog_risk "Regulatory Compliance Changes" "Compliance" 0.80
        "New financial regulations and reporting requirements";
      mk_catalog_risk "Digital Payment Fraud" "Operational" 0.72
        "Sophisticated fraud schemes targeting digital transactions" ]
  else if String.eqb industry "healthcare" then
    [ mk_catalog_risk "Ransomware Targeting Healthcare" "Cybersecurity" 0.85
        "Increased ransomware attacks on healthcare systems";
      mk_catalog_risk "Medical Device Security" "Cybersecurity" 0.70
        "Vulnerabilities in connected medical devices" ]
  else [].

(** [risk['name'].lower()] *)
Definition risk_name_lower (risk : pyval) : result string :=
  let* n := py_getitem risk "name" in
  match n with
  | VStr s => Ok (str_lower s)
  | _ => Err AttributeError
  end.

Definition add_prediction_metadata (now : string) (risk : catalog_risk) : result emerging_risk :=
  let* pl := py_int (cr_probability risk * 5) in
  Ok {| er_name := cr_name risk;
        er_category := cr_category risk;
        er_probability := cr_probability risk;
        er_description := cr_description risk;
        predicted_on := now;
        time_horizon := "6-12 months";
        predicted_likelihood := pl;
        predicted_impact := 4%Z |}.

Definition predict_emerging_risks (now industry : string) (current_risks : list pyval)
  : result (list emerging_risk) :=
  let base_risks := emerging_risks_db (str_lower industry) in
  let* current_risk_names := map_r risk_name_lower current_risks in
  let new_risks :=
    filter (fun risk => negb (existsb (String.eqb (str_lower (cr_name risk)))
                                      current_risk_names)) base_risks in
  map_r (add_prediction_metadata now) new_risks.

(** An entry whose [name] the comprehension can read and lower-case. *)
Definition has_string_name (risk : pyval) : bool :=
  match risk with
  | VDict d => match dict_get d "name" with Some (VStr _) => true | _ => false end
  | _ => false
  end.

(** The spec's severity order of threat levels, [low < medium < high <
    critical]; other strings are unranked. *)
Definition threat_rank (t : string) : option nat :=
  if String.eqb t "low" then Some 0%nat
  else if String.eqb t "medium" then Some 1%nat
  else if String.eqb t "high" then Some 2%nat
  else if String.eqb t "critical" then Some 3%nat
  else None.

(** [t1] is the same level as [t2], or both are ranked and [t1] is not
    more severe than [t2]. *)
Definition threat_le (t1 t2 : string) : bool :=
  String.eqb t1 t2 ||
  match threat_rank t1, threat_rank t2 with
  | Some a, Some b => Nat.leb a b
  | _, _ => false
  end.

End RiskPrediction.

(* ------------------------------------------------------------------ *)
(** ** risk_prediction.py: [analyze_risk_trends] *)

Module RiskTrends.

(** [risk.get('identified_date', '')[:7]], used as a dict key.  A list
    slices to a list, which cannot be hashed; the other non-strings cannot be
    sliced (a dict raises [TypeError] before Python 3.12 and [KeyError]
    from it). *)
Definition month_of (risk : pyval) : result string :=
  match risk with
  | VDict d =>
      match dict_get_default d "identified_date" (VStr "") with
      | VStr s => Ok (substring 0 7 s)
      | _ => Err TypeError
      end
  | _ => Err AttributeError
  end.

(** [risk_counts_by_month[month] = risk_counts_by_month.get(month, 0) + 1]
    on an insertion-ordered dict: the count of an existing key goes up in
    place, a new key goes last with count [1]. *)
Fixpoint count_category (cat : string) (acc : list (string * nat)) : list (string * nat) :=
  match acc with
  | [] => [(cat, 1%nat)]
  | (c, n) :: acc' =>
      if String.eqb c cat then (c, S n) :: acc' else (c, n) :: count_category cat acc'
  end.

(** The grouping loop over [historical_risks]. *)
Fixpoint count_months (acc : list (string * nat)) (risks : list pyval)
  : result (list (string * nat)) :=
  match risks with
  | [] => Ok acc
  | risk :: risks' =>
      let* month := month_of risk in
      count_months (count_category month acc) risks'
  end.

(** [sorted] on strings: a stable insertion sort on the code-point order. *)
Fixpoint insert_str (x : string) (l : list string) : list string :=
  match l with
  | [] => [x]
  | y :: l' => if String.ltb x y then x :: y :: l' else y :: insert_str x l'
  end.

Definition sorted_strs (l : list string) : list string :=
  fold_left (fun acc x => insert_str x acc) l [].

(** [risk_counts_by_month[m]] *)
Definition getitem_count (d : list (string * nat)) (m : string) : result nat :=
  match assoc m d with Some n => Ok n | None => Err KeyError end.

(** [sum(risk_counts_by_month[m] for m in window) / min(3, len(window))];
    the windows are taken when [len(months) >= 2], so they are never
    empty. *)
Definition window_avg (d : list (string * nat)) (window : list string) : result float :=
  let* counts := map_r (getitem_count d) window in
  Ok (int_truediv (Z.of_nat (list_sum counts)) (Pos.of_nat (Nat.min 3 (List.length window)))).

(** An entry whose month the grouping loop can compute. *)
Definition has_month (risk : pyval) : bool :=
  match risk with
  | VDict d =>
      match dict_get d "identified_date" with
      | None | Some (VStr _) => true
      | Some _ => false
      end
  | _ => false
  end.

Inductive trend_analysis :=
| TrendOnly (trend : string)              (* {'trend': ...} *)
| TrendReport (trend : string) (total_risks : nat) (monthly_data : list (string * nat)).

(** [analyze_risk_trends]; the [analysis_date] timestamp is left out.
    [months[-3:]] is the last three months, [months[:3]] the first three. *)
Definition analyze_risk_trends (historical_risks : list pyval) : result trend_analysis :=
  match historical_risks with
  | [] => Ok (TrendOnly "insufficient_data")
  | _ =>
      let* risk_counts_by_month := count_months [] historical_risks in
      let months := sorted_strs (map fst risk_counts_by_month) in
      let* trend :=
        if Nat.leb 2 (List.length months) then
          let* recent_avg := window_avg risk_counts_by_month
                               (skipn (List.length months - 3) months) in
          let* older_avg := window_avg risk_counts_by_month (firstn 3 months) in
          Ok (if (older_avg * 1.2 <? recent_avg)%float then "increasing"
              else if (recent_avg <? older_avg * 0.8)%float then "decreasing"
              else "stable")
        else Ok "insufficient_data" in
      Ok (TrendReport trend (List.length historical_risks) risk_counts_by_month)
  end%string.


(** Used in the proofs: the count a dict of counts holds for a month,
    [0] when the month is absent. *)
Definition cnt (m : string) (d : list (string * nat)) : nat :=
  match assoc m d with Some c => c | None => 0%nat end.

End RiskTrends.

(* ------------------------------------------------------------------ *)
(** ** document_analyzer.py *)

Module DocumentAnalyzer.

Definition ascii_list (s : string) : list ascii := list_ascii_of_string s.

(** Case-insensitive match of a lower-case literal at the head of [s];
    returns the rest. *)
Fixpoint match_literal_ci (lit s : list ascii) : option (list ascii) :=
  match lit, s with
  | [], _ => Some s
  | k :: lit', c :: s' => if Ascii.eqb (lower_ascii c) k then match_literal_ci lit' s' else None
  | _ :: _, [] => None
  end.

Definition not_dot (c : ascii) : bool := negb (Ascii.eqb c ".").

(** One attempt of [<literal>\s+([^.]+)] at the head of [s]; returns group 1
    and the text after the match.  [\s+] is greedy; when no [[^.]] character
    follows the whitespace run, it gives its last character back to
    [[^.]+]. *)
Definition match_requirement_at (lit s : list ascii) : option (list ascii * list ascii) :=
  match match_literal_ci lit s with
  | None => None
  | Some r =>
      let '(ws, r1) := span is_space r in
      match ws with
      | [] => None
      | _ =>
          let '(g, r2) := span not_dot r1 in
          match g with
          | _ :: _ => Some (g, r2)
          | [] =>
              match rev ws with
              | w :: _ :: _ => Some ([w], r1)
              | _ => None
              end
          end
      end
  end.

(** [re.finditer(pattern, text, re.IGNORECASE)]: (start, group 1) of each
    non-overlapping match, scanning left to right; the scan resumes where a
    match ends.  Every match consumes at least the literal, so [fuel] equal
    to the text length plus one never runs out. *)
Fixpoint finditer_from (fuel : nat) (lit : list ascii) (pos : nat) (s : list ascii)
  : list (nat * list ascii) :=
  match fuel with
  | O => []
  | S fuel' =>
      match s with
      | [] => []
      | _ :: s' =>
          match match_requirement_at lit s with
          | Some (g, rest) =>
              (pos, g) :: finditer_from fuel' lit (pos + (List.length s - List.length rest)) rest
          | None => finditer_from fuel' lit (S pos) s'
          end
      end
  end.

Definition finditer (lit : string) (text : string) : list (nat * list ascii) :=
  let s := ascii_list text in finditer_from (S (List.length s)) (ascii_list lit) 0 s.

(** The literals of [requirement_patterns], in order: [must], [shall],
    [required to], [mandatory]. *)
Definition requirement_patterns : list string := ["must"; "shall"; "required to"; "mandatory"]%string.

Record extracted_requirement := mk_extracted_requirement {
  req_text : string;
  req_type : string;
  req_position : nat
}.

(** The loop body: [req_text = match.group(1).strip()], kept when
    [len(req_text) > 10]. *)
Definition keep_match (m : nat * list ascii) : list extracted_requirement :=
  let req_text := py_strip (snd m) in
  if Nat.ltb 10 (List.length req_text)
  then [mk_extracted_requirement (string_of_list_ascii req_text) "mandatory" (fst m)]
  else [].

(** [requirements] before de-duplication: pattern by pattern, match by
    match. *)
Definition all_requirements (text : string) : list extracted_requirement :=
  flat_map (fun lit => flat_map keep_match (finditer lit text)) requirement_patterns.

Fixpoint dedup_from (seen : list string) (reqs : list extracted_requirement)
  : list extracted_requirement :=
  match reqs with
  | [] => []
  | r :: reqs' =>
      if existsb (String.eqb (req_text r)) seen then dedup_from seen reqs'
      else r :: dedup_from (req_text r :: seen) reqs'
  end.

Definition extract_requirements (text : string) : list extracted_requirement :=
  firstn 10 (dedup_from [] (all_requirements text)).

(** [_extract_sections]: [re.match] of the three heading patterns on each
    stripped line, the first that matches wins. *)

(** [^\d+\.\s+([A-Z][^\n]+)] *)
Definition match_numbered (l : list ascii) : option (list ascii) :=
  let '(ds, r) := span is_digit l in
  match ds, r with
  | _ :: _, c :: r' =>
      if Ascii.eqb c "." then
        let '(ws, r2) := span is_space r' in
        match ws, r2 with
        | _ :: _, u :: rest =>
            let '(tl, _) := span (fun c => negb (Ascii.eqb c "010")) rest in
            match tl with
            | _ :: _ => if is_upper u then Some (u :: tl) else None
            | [] => None
            end
        | _, _ => None
        end
      else None
  | _, _ => None
  end.

(** [^([A-Z][A-Z\s]+)$] *)
Definition match_all_caps (l : list ascii) : option (list ascii) :=
  match l with
  | u :: (_ :: _) as rest =>
      if is_upper u && forallb (fun c => is_upper c || is_space c) rest then Some l else None
  | _ => None
  end.

(** [^#+\s+(.+)$] *)
Definition match_markdown (l : list ascii) : option (list ascii) :=
  let '(hs, r) := span (fun c => Ascii.eqb c "#") l in
  match hs with
  | [] => None
  | _ =>
      let '(ws, r1) := span is_space r in
      match ws with
      | [] => None
      | _ =>
          if negb (existsb (fun c => Ascii.eqb c "010") r1) then
            match r1 with
            | _ :: _ => Some r1
            | [] => match rev ws with w :: _ :: _ => Some [w] | _ => None end
            end
          else None
      end
  end.

Definition section_of_line (line : list ascii) : option string :=
  let l := py_strip line in
  match match_numbered l with
  | Some g => Some (string_of_list_ascii (py_strip g))
  | None =>
      match match_all_caps l with
      | Some g => Some (string_of_list_ascii (py_strip g))
      | None =>
          match match_markdown l with
          | Some g => Some (string_of_list_ascii (py_strip g))
          | None => None
          end
      end
  end.

Definition extract_sections (text : string) : list string :=
  flat_map (fun line => match section_of_line line with Some s => [s] | None => [] end)
    (split_on "010" (ascii_list text)).

Definition framework_identifiers : list (string * list string) :=
  [ ("iso27001", ["iso 27001"; "iso27001"; "iso/iec 27001"]);
    ("soc2", ["soc 2"; "soc2"; "soc ii"]);
    ("gdpr", ["gdpr"; "general data protection regulation"]);
    ("hipaa", ["hipaa"; "health insurance portability"]);
    ("pci_dss", ["pci dss"; "pci-dss"; "payment card industry"]) ]%string.

Definition identify_frameworks (text : string) : list string :=
  let text_lower := str_lower text in
  map fst (filter (fun '(_, ids) => existsb (fun i => str_contains i text_lower) ids)
             framework_identifiers).

Definition required_elements (doc_type : string) : list string :=
  if String.eqb doc_type "policy" then
    ["purpose"; "scope"; "responsibilities"; "policy statement";
     "compliance"; "review"; "effective date"]%string
  else if String.eqb doc_type "procedure" then
    ["purpose"; "scope"; "procedure steps"; "responsibilities";
     "references"; "records"]%string
  else if String.eqb doc_type "contract" then
    ["parties"; "term"; "obligations"; "confidentiality";
     "liability"; "termination"]%string
  else [].

Record completeness := mk_completeness {
  c_score : float;
  c_found : nat;
  c_total_required : nat;
  c_missing : list string
}.

Definition float_of_nat (n : nat) : float := PrimFloat.of_uint63 (Uint63.of_Z (Z.of_nat n)).

Definition check_completeness (text doc_type : string) : completeness :=
  let text_lower := str_lower text in
  let required := required_elements doc_type in
  let found := List.length (filter (fun e => str_contains (str_lower e) text_lower) required) in
  let missing := filter (fun e => negb (str_contains (str_lower e) text_lower)) required in
  let score :=
    match required with
    | [] => 100
    | _ => (float_of_nat found / float_of_nat (List.length required)) * 100
    end in
  {| c_score := py_round 1 score; c_found := found;
     c_total_required := List.length required; c_missing := missing |}.

(** [min(100, x)] returns [x] when [x < 100]. *)
Definition py_min100 (x : float) : float := if x <? 100 then x else 100.

Definition calculate_quality_score (word_count : nat) (sections : list string) (completeness : float)
  : float :=
  let length_score := py_min100 ((float_of_nat word_count / 1000) * 100) in
  let structure_score := py_min100 ((float_of_nat (List.length sections) / 5) * 100) in
  py_round 1 (completeness * 0.5 + length_score * 0.25 + structure_score * 0.25).

Record document_analysis := mk_document_analysis {
  document_type : string;
  word_count : nat;
  sentence_count : nat;
  sections_found : nat;
  sections : list string;
  frameworks_mentioned : list string;
  completeness_score : float;
  missing_elements : list string;
  requirements_identified : nat;
  requirements : list extracted_requirement;
  quality_score : float
}.

Definition analyze_document (document_text document_type : string) : document_analysis :=
  let s := ascii_list document_text in
  let word_count := List.length (split_ws s) in
  let sentences := split_on "." s in
  let sentence_count := List.length (filter (fun x => match py_strip x with [] => false | _ => true end) sentences) in
  let sections := extract_sections document_text in
  let frameworks_mentioned := identify_frameworks document_text in
  let completeness := check_completeness document_text document_type in
  let requirements := extract_requirements document_text in
  {| document_type := document_type;
     word_count := word_count;
     sentence_count := sentence_count;
     sections_found := List.length sections;
     sections := sections;
     frameworks_mentioned := frameworks_mentioned;
     completeness_score := c_score completeness;
     missing_elements := c_missing completeness;
     requirements_identified := List.length requirements;
     requirements := requirements;
     quality_score := calculate_quality_score word_count sections (c_score completeness) |}.


(** [extract_clauses] *)

Record clause := mk_clause {
  clause_type : string;
  clause_keyword : string;
  clause_excerpt : string
}.

Definition clause_keywords : list (string * list string) :=
  [ ("confidentiality", ["confidential"; "non-disclosure"; "proprietary"]);
    ("data_protection", ["personal data"; "data processing"; "gdpr"; "privacy"]);
    ("liability", ["liability"; "indemnification"; "damages"]);
    ("termination", ["termination"; "cancellation"; "end of agreement"]);
    ("security", ["security measures"; "safeguards"; "protection"]) ]%string.

(** [.] of [re]: any character but a newline. *)
Definition not_newline (c : ascii) : bool := negb (Ascii.eqb c "010").

(** The greedy [.{0,200}] before the keyword gives characters back one at
    a time: the largest [j' <= j] at which the keyword follows. *)
Fixpoint last_keyword_at (j : nat) (key s : list ascii) : option nat :=
  match match_literal_ci key (skipn j s) with
  | Some _ => Some j
  | None => match j with O => None | S j' => last_keyword_at j' key s end
  end.

(** One attempt of [.{0,200}<keyword>.{0,200}] (under [re.IGNORECASE]) at
    the head of [s]; returns the matched text.  The [.{0,200}] after the
    keyword is greedy and nothing follows it, so it takes what it can. *)
Definition clause_match_at (key s : list ascii) : option (list ascii) :=
  let pre := firstn 200 (fst (span not_newline s)) in
  match last_keyword_at (List.length pre) key s with
  | None => None
  | Some j =>
      match match_literal_ci key (skipn j s) with
      | Some r => Some (firstn (j + List.length key)%nat s ++ firstn 200 (fst (span not_newline r)))%list
      | None => None
      end
  end.

(** The first match of [re.finditer] (the loop [break]s after it): the
    attempts at positions 0, 1, ..., up to the end of the text. *)
Fixpoint clause_search (key s : list ascii) : option (list ascii) :=
  match clause_match_at key s with
  | Some m => Some m
  | None => match s with [] => None | _ :: s' => clause_search key s' end
  end.

(** [extract_clauses]; the keywords are lower case, so [re.escape(keyword)]
    under [re.IGNORECASE] is [match_literal_ci] of the keyword. *)
Definition extract_clauses (contract_text : string) : list clause :=
  flat_map (fun '(clause_type, keywords) =>
              flat_map (fun keyword =>
                          if str_contains (str_lower keyword) (str_lower contract_text) then
                            match clause_search (ascii_list keyword) (ascii_list contract_text) with
                            | Some m => [mk_clause clause_type keyword (string_of_list_ascii (py_strip m))]
                            | None => []
                            end
                          else [])
                keywords)
    clause_keywords.

(** Used in the proofs: a keyword in lower case, with no newline, that
    neither starts nor ends with whitespace. *)
Definition plain_keyword (kw : string) : bool :=
  let key := ascii_list kw in
  String.eqb (str_lower kw) kw && forallb not_newline key &&
  match key, rev key with
  | k :: _, d :: _ => negb (is_space k) && negb (is_space d)
  | _, _ => false
  end.

End DocumentAnalyzer.

(* ------------------------------------------------------------------ *)
(** ** recommendation_engine.py: [prioritize_remediation] *)

Module RecommendationEngine.

Local Open Scope string_scope.
Local Open Scope Z_scope.

(** Factor 1, severity, on [gap.get('priority')]. *)
Definition severity_points (p : option pyval) : Z :=
  if opt_is_str p "Critical" then 100
  else if opt_is_str p "High" then 75
  else if opt_is_str p "Medium" then 50
  else 25.

(** Factor 2, ease of implementation, on [gap.get('complexity', 'Medium')]. *)
Definition complexity_points (c : pyval) : Z :=
  if pyval_is_str c "Low" then 30
  else if pyval_is_str c "Medium" then 15
  else 0.

(** Factor 3, cost effectiveness, on [gap.get('cost', 'Medium')]. *)
Definition cost_points (c : pyval) : Z :=
  if pyval_is_str c "Low" then 20
  else if pyval_is_str c "Medium" then 10
  else 0.

Definition gap_priority_score (gap : dict) : Z :=
  severity_points (dict_get gap "priority")
  + complexity_points (dict_get_default gap "complexity" (VStr "Medium"))
  + cost_points (dict_get_default gap "cost" (VStr "Medium")).

Definition action_of (priority_score : Z) : string :=
  if 150 <=? priority_score then "Immediate - Start within 1 week"
  else if 100 <=? priority_score then "High Priority - Start within 1 month"
  else if 50 <=? priority_score then "Medium Priority - Plan for next quarter"
  else "Low Priority - Address as resources allow".

(** The loop body: [gap['priority_score'] = ...; gap['action'] = ...]. *)
Definition score_gap (gap : dict) : dict :=
  let priority_score := gap_priority_score gap in
  dict_set (dict_set gap "priority_score" (VInt priority_score))
    "action" (VStr (action_of priority_score)).

(** [x['priority_score']] of a scored gap. *)
Definition priority_score_of (gap : dict) : Z :=
  match dict_get gap "priority_score" with Some (VInt z) => z | _ => 0 end.

(** [list.sort(key=..., reverse=True)] is stable: a gap goes after every
    gap whose score is at least its own. *)
Fixpoint insert_by_score (x : dict) (l : list dict) : list dict :=
  match l with
  | [] => [x]
  | y :: l' =>
      if priority_score_of y <? priority_score_of x then x :: y :: l'
      else y :: insert_by_score x l'
  end.

Definition sort_by_score_desc (l : list dict) : list dict :=
  fold_left (fun acc x => insert_by_score x acc) l [].

(** The list is scored and sorted in place and returned; the model returns
    the resulting list. *)
Definition prioritize_remediation (gaps : list dict) : list dict :=
  sort_by_score_desc (map score_gap gaps).


(** *** [_load_control_library], [_load_framework_mappings] and the
    functions that read them *)

Record library_control := mk_library_control {
  lc_id : string;
  lc_name : string;
  lc_description : string;
  lc_effectiveness : Z;
  lc_complexity : string;
  lc_cost : string
}.

Definition control_library : list (string * list library_control) :=
  [ ("access_control",
      [ mk_library_control "AC-001" "Multi-Factor Authentication"
          "Implement MFA for all user accounts" 95 "Medium" "Low";
        mk_library_control "AC-002" "Role-Based Access Control"
          "Implement RBAC for least privilege" 90 "Medium" "Medium" ]);
    ("data_protection",
      [ mk_library_control "DP-001" "Data Encryption at Rest"
          "Encrypt sensitive data in storage" 92 "Low" "Low";
        mk_library_control "DP-002" "Data Encryption in Transit"
          "Use TLS 1.3 for all data transmission" 94 "Low" "Low" ]);
    ("incident_response",
      [ mk_library_control "IR-001" "Incident Response Plan"
          "Documented IR procedures" 88 "Medium" "Medium" ]) ].

Definition framework_mappings : list (string * list (string * string)) :=
  [ ("iso27001", [("A.9", "access_control"); ("A.10", "data_protection");
                  ("A.16", "incident_response")]);
    ("soc2", [("CC6", "access_control"); ("CC7", "data_protection");
              ("CC8", "incident_response")]) ].

(** [self.control_library.get(category, [])] *)
Definition library_get (category : string) : list library_control :=
  match assoc category control_library with Some cs => cs | None => [] end.

(** An int of the tables as a float (they are small and non-negative). *)
Definition float_of_int (z : Z) : float := PrimFloat.of_uint63 (Uint63.of_Z z).

(** [{'Low': 100, 'Medium': 75, 'High': 50}.get(level, 50)] *)
Definition level_score (level : string) : Z :=
  match assoc level [("Low", 100); ("Medium", 75); ("High", 50)] with
  | Some v => v
  | None => 50
  end.

(** [_calculate_recommendation_score]; the risk profile is not read. *)
Definition calculate_recommendation_score (control : library_control) : float :=
  let effectiveness := lc_effectiveness control in
  let complexity_score := level_score (lc_complexity control) in
  let cost_score := level_score (lc_cost control) in
  py_round 2 (float_of_int effectiveness * 0.5 + float_of_int complexity_score * 0.3
              + float_of_int cost_score * 0.2)%float.

(** [{**control, 'category': ..., 'recommendation_score': ...,
    'rationale': ...}] *)
Record recommended_control := mk_recommended_control {
  rc_control : library_control;
  rc_category : string;
  rc_score : float;
  rc_rationale : string
}.

(** [level in ['High', 'Critical']] *)
Definition is_high_level (level : pyval) : bool :=
  pyval_is_str level "High" || pyval_is_str level "Critical".

(** [[cat for cat, level in risk_profile.get('risk_levels', {}).items()
    if level in ['High', 'Critical']]]; only a dict has [items]. *)
Definition high_risk_categories (risk_profile : dict) : result (list string) :=
  match dict_get_default risk_profile "risk_levels" (VDict []) with
  | VDict levels => Ok (map fst (filter (fun '(_, level) => is_high_level level) levels))
  | _ => Err AttributeError
  end.

(** The inner loop over [self.control_library.get(category, [])]. *)
Definition recommend_for (category : string) : list recommended_control :=
  map (fun control =>
         mk_recommended_control control category (calculate_recommendation_score control)
           ("Addresses " ++ category ++ " risks"))
      (library_get category).

(** [recommendations.sort(key=lambda x: x['recommendation_score'],
    reverse=True)] is stable: an item goes after every item whose score is
    not below its own. *)
Fixpoint insert_rec (x : recommended_control) (l : list recommended_control)
  : list recommended_control :=
  match l with
  | [] => [x]
  | y :: l' => if (rc_score y <? rc_score x)%float then x :: y :: l' else y :: insert_rec x l'
  end.

Definition sort_recs (l : list recommended_control) : list recommended_control :=
  fold_left (fun acc x => insert_rec x acc) l [].

Definition recommend_controls (risk_profile : dict) : result (list recommended_control) :=
  let* high_risk_categories := high_risk_categories risk_profile in
  let recommendations := flat_map recommend_for high_risk_categories in
  Ok (firstn 10 (sort_recs recommendations)).

(** An entry of [suggestions]. *)
Inductive suggestion :=
| SGap (requirement category : string) (recommended_controls : list library_control)
| SCovered (requirement category : string) (existing_controls : nat).

Definition is_covered (s : suggestion) : bool :=
  match s with SCovered _ _ _ => true | SGap _ _ _ => false end.

Record alignment := mk_alignment {
  al_framework : string;
  al_coverage_percentage : pyval;
  al_total_requirements : nat;
  al_covered_requirements : nat;
  al_gap_count : Z;
  al_suggestions : list suggestion
}.

Inductive alignment_result :=
| AlignmentError (error : string)    (* {'error': 'Unknown framework'} *)
| Alignment (a : alignment).

(** [ctrl.get('category') == category]; only a dict has [get]. *)
Definition in_category (category : string) (ctrl : pyval) : result bool :=
  match ctrl with
  | VDict d => Ok (opt_is_str (dict_get d "category") category)
  | _ => Err AttributeError
  end.

(** The loop body for one [(req_id, category)] of the framework map. *)
Definition suggest_for (current_controls : list pyval) (req : string * string)
  : result (list suggestion) :=
  let '(req_id, category) := req in
  let* category_controls := filter_r (in_category category) current_controls in
  match category_controls with
  | [] =>
      match library_get category with
      | [] => Ok []
      | recommended => Ok [SGap req_id category (firstn 2 recommended)]
      end
  | _ => Ok [SCovered req_id category (List.length category_controls)]
  end.

(** [suggest_framework_alignment]; [round(0, 1)] of the int [0] stays an
    int. *)
Definition suggest_framework_alignment (current_controls : list pyval) (target_framework : string)
  : result alignment_result :=
  match assoc target_framework framework_mappings with
  | None => Ok (AlignmentError "Unknown framework")
  | Some framework_map =>
      let* per_req := map_r (suggest_for current_controls) framework_map in
      let suggestions := List.concat per_req in
      let coverage := List.length (filter is_covered suggestions) in
      let total := List.length suggestions in
      let coverage_percentage :=
        if Nat.ltb 0 total
        then VFloat (py_round 1 (int_truediv (Z.of_nat coverage) (Pos.of_nat total) * 100)%float)
        else VInt 0 in
      Ok (Alignment {| al_framework := target_framework;
                       al_coverage_percentage := coverage_percentage;
                       al_total_requirements := total;
                       al_covered_requirements := coverage;
                       al_gap_count := Z.of_nat total - Z.of_nat coverage;
                       al_suggestions := suggestions |})
  end.

Record control_mapping := mk_control_mapping {
  source_requirement : string;
  target_requirement : string;
  mapping_category : string;
  mapping_confidence : string
}.

(** [self.framework_mappings.get(framework, {})] *)
Definition mapping_get (fw : string) : list (string * string) :=
  match assoc fw framework_mappings with Some m => m | None => [] end.

Definition smart_control_mapping (source_framework target_framework : string)
  : list control_mapping :=
  let source_map := mapping_get source_framework in
  let target_map := mapping_get target_framework in
  flat_map (fun '(source_req, source_cat) =>
              flat_map (fun '(target_req, target_cat) =>
                          if String.eqb source_cat target_cat
                          then [mk_control_mapping source_req target_req source_cat "High"]
                          else [])
                target_map)
    source_map.


(** Used in the proofs: the order of [recommendations.sort(...,
    reverse=True)], the keys of the control library, and the entries whose
    [get] exists. *)
Definition score_ge (a b : recommended_control) : Prop := (rc_score a <? rc_score b)%float = false.

Definition library_keys : list string := ["access_control"; "data_protection"; "incident_response"]%string.

Definition is_dict (v : pyval) : bool := match v with VDict _ => true | _ => false end.

End RecommendationEngine.

(* ------------------------------------------------------------------ *)
(** ** main.py: [assess_risk] *)

Module Main.

Local Open Scope string_scope.
Local Open Scope Z_scope.

Record control_suggestion := mk_control_suggestion {
  cs_name : string;
  cs_type : string;
  cs_effectiveness : Z
}.

Record risk_assessment := mk_risk_assessment {
  likelihood : Z;
  impact : Z;
  risk_score : Z;
  recommended_controls : list control_suggestion;
  mitigation_strategies : list string
}.

(** The [/risk-assessment] endpoint; of the request only
    [risk_description] is read, and nothing in the [try] block raises. *)
Definition assess_risk (risk_description : string) : risk_assessment :=
  let likelihood := 3 in
  let impact := 4 in
  let impact := if str_contains "critical" (str_lower risk_description)
                   || str_contains "severe" (str_lower risk_description) then 5 else impact in
  let likelihood := if str_contains "unlikely" (str_lower risk_description) then 2 else likelihood in
  {| likelihood := likelihood;
     impact := impact;
     risk_score := likelihood * impact;
     recommended_controls :=
       [ mk_control_suggestion "Multi-Factor Authentication" "preventive" 4;
         mk_control_suggestion "Security Monitoring" "detective" 4;
         mk_control_suggestion "Incident Response Plan" "corrective" 3 ];
     mitigation_strategies :=
       [ "Implement technical controls to reduce attack surface";
         "Establish monitoring and alerting mechanisms";
         "Create incident response procedures";
         "Conduct regular security awareness training" ] |}.

End Main.

(* ================================================================== *)
(** * Properties *)

(** ** General lemmas *)

Lemma map_r_is_ok {A B} (f : A -> result B) (l : list A) :
  is_ok (map_r f l) = forallb (fun x => is_ok (f x)) l.
Proof.
  induction l as [|x l IH]; simpl; [reflexivity|].
  destruct (f x); simpl; [|reflexivity].
  rewrite <- IH. destruct (map_r f l); reflexivity.
Qed.

Lemma forallb_ext_fun {A} (f g : A -> bool) (l : list A) :
  (forall x, f x = g x) -> forallb f l = forallb g l.
Proof. intros H. induction l as [|x l IH]; simpl; [reflexivity|]. rewrite H, IH. reflexivity. Qed.

Lemma map_r_forall2 {A B} (f : A -> result B) (l : list A) (ys : list B) :
  map_r f l = Ok ys -> Forall2 (fun x y => f x = Ok y) l ys.
Proof.
  revert ys; induction l as [|x l IH]; intros ys H; simpl in H.
  - injection H as <-. constructor.
  - destruct (f x) eqn:Ef; simpl in H; [|discriminate].
    destruct (map_r f l) eqn:El; simpl in H; [|discriminate].
    injection H as <-. constructor; auto.
Qed.

Lemma forall2_forall_r {A B} (P : A -> B -> Prop) (Q : B -> Prop) l ys :
  Forall2 P l ys -> (forall x y, P x y -> Q y) -> Forall Q ys.
Proof. induction 1; constructor; eauto. Qed.

Lemma dict_get_set_other (d : dict) (k k' : string) (v : pyval) :
  k <> k' -> dict_get (dict_set d k v) k' = dict_get d k'.
Proof.
  intros Hne. induction d as [|[k0 v0] d IH]; simpl.
  - destruct (String.eqb_spec k' k); [congruence | reflexivity].
  - destruct (String.eqb_spec k k0) as [->|Hk]; simpl.
    + destruct (String.eqb_spec k' k0); [congruence | reflexivity].
    + destruct (String.eqb_spec k' k0); [reflexivity | exact IH].
Qed.

Lemma dict_get_set_same (d : dict) (k : string) (v : pyval) :
  dict_get (dict_set d k v) k = Some v.
Proof.
  induction d as [|[k0 v0] d IH]; simpl.
  - rewrite String.eqb_refl. reflexivity.
  - destruct (String.eqb_spec k k0) as [->|Hk]; simpl.
    + rewrite String.eqb_refl. reflexivity.
    + destruct (String.eqb_spec k k0); [congruence | exact IH].
Qed.

(** ** Rounding of binary64 arithmetic

    SpecFloat's multiplication, division and subtraction are read as the
    correctly rounded result of the exact operation; from this, their
    monotonicity on non-negative floats and that of [py_round]. *)

Section FloatFacts.
Local Open Scope R_scope.

Lemma bpow_plus a b : bpow (a + b) = bpow a * bpow b.
Proof. unfold bpow. apply powerRZ_add. lra. Qed.

Lemma bpow_pos e : 0 < bpow e.
Proof. unfold bpow. apply powerRZ_lt. lra. Qed.

Lemma bpow_IZR e : (0 <= e)%Z -> bpow e = IZR (2 ^ e).
Proof.
  intros He. destruct e as [|p|p]; [reflexivity| |lia].
  unfold bpow, powerRZ. rewrite pow_IZR, positive_nat_Z. reflexivity.
Qed.

Lemma bpow_0 : bpow 0 = 1.
Proof. reflexivity. Qed.

Lemma bpow_1 : bpow 1 = 2.
Proof. unfold bpow. simpl. lra. Qed.

Lemma bpow_ge_1 e : (0 <= e)%Z -> 1 <= bpow e.
Proof.
  intros He. rewrite bpow_IZR by exact He. apply IZR_le.
  assert (0 < 2 ^ e)%Z by (apply Z.pow_pos_nonneg; lia). lia.
Qed.

Lemma bpow_le a b : (a <= b)%Z -> bpow a <= bpow b.
Proof.
  intros H. replace b with (a + (b - a))%Z by lia. rewrite bpow_plus.
  pose proof (bpow_pos a). pose proof (bpow_ge_1 (b - a) ltac:(lia)). nra.
Qed.

Lemma bpow_lt a b : (a < b)%Z -> bpow a < bpow b.
Proof.
  intros H. replace b with ((a + 1) + (b - a - 1))%Z by lia. rewrite !bpow_plus, bpow_1.
  pose proof (bpow_pos a). pose proof (bpow_ge_1 (b - a - 1) ltac:(lia)). nra.
Qed.

Lemma bpow_lt_inv a b : bpow a < bpow b -> (a < b)%Z.
Proof.
  intros H. destruct (Z_lt_le_dec a b) as [|Hle]; [assumption|].
  apply bpow_le in Hle. lra.
Qed.

Lemma bpow_le_inv a b : bpow a <= bpow b -> (a <= b)%Z.
Proof.
  intros H. destruct (Z_le_gt_dec a b) as [|Hlt]; [assumption|].
  assert (Hlt' : (b < a)%Z) by lia. apply bpow_lt in Hlt'. lra.
Qed.

Lemma bpow_opp e : bpow (- e) = / bpow e.
Proof. unfold bpow. apply powerRZ_neg'. Qed.

(** Binary digits. *)
Lemma digits2_pos_size p : digits2_pos p = Pos.size p.
Proof. induction p; simpl; congruence. Qed.

Lemma digits2_pos_bounds p :
  (2 ^ (Zpos (digits2_pos p) - 1) <= Zpos p < 2 ^ Zpos (digits2_pos p))%Z.
Proof.
  rewrite digits2_pos_size. induction p as [p IH|p IH|].
  - cbn [Pos.size]. rewrite Pos2Z.inj_succ.
    replace (Z.succ (Zpos (Pos.size p)) - 1)%Z with (Zpos (Pos.size p)) by lia.
    rewrite Z.pow_succ_r by lia.
    assert (E : (2 ^ Zpos (Pos.size p) = 2 * 2 ^ (Zpos (Pos.size p) - 1))%Z).
    { rewrite <- Z.pow_succ_r by lia. f_equal. lia. }
    rewrite Pos2Z.inj_xI. lia.
  - cbn [Pos.size]. rewrite Pos2Z.inj_succ.
    replace (Z.succ (Zpos (Pos.size p)) - 1)%Z with (Zpos (Pos.size p)) by lia.
    rewrite Z.pow_succ_r by lia.
    assert (E : (2 ^ Zpos (Pos.size p) = 2 * 2 ^ (Zpos (Pos.size p) - 1))%Z).
    { rewrite <- Z.pow_succ_r by lia. f_equal. lia. }
    rewrite (Pos2Z.inj_xO p). lia.
  - simpl. lia.
Qed.

Lemma Zdigits2_bounds z : (0 < z)%Z ->
  (2 ^ (Zdigits2 z - 1) <= z < 2 ^ Zdigits2 z)%Z.
Proof. intros H. destruct z as [|p|p]; try lia. apply digits2_pos_bounds. Qed.

Lemma Zdigits2_pos z : (0 < z)%Z -> (1 <= Zdigits2 z)%Z.
Proof. intros H. destruct z; try lia. simpl. lia. Qed.

Lemma Zdigits2_0 : Zdigits2 0 = 0%Z.
Proof. reflexivity. Qed.

(** The digit count is pinned by the bounds. *)
Lemma Zdigits2_unique z k : (2 ^ (k - 1) <= z < 2 ^ k)%Z -> (1 <= k)%Z -> Zdigits2 z = k.
Proof.
  intros [H1 H2] Hk. assert (Hz : (0 < z)%Z).
  { assert (0 < 2 ^ (k - 1))%Z by (apply Z.pow_pos_nonneg; lia). lia. }
  destruct (Zdigits2_bounds z Hz) as [H3 H4]. pose proof (Zdigits2_pos z Hz).
  destruct (Z.lt_trichotomy (Zdigits2 z) k) as [Hl|[Hl|Hl]]; [|exact Hl|].
  - assert (2 ^ Zdigits2 z <= 2 ^ (k - 1))%Z by (apply Z.pow_le_mono_r; lia). lia.
  - assert (2 ^ k <= 2 ^ (Zdigits2 z - 1))%Z by (apply Z.pow_le_mono_r; lia). lia.
Qed.

Lemma is_rne_mono u v z1 z2 : u <= v -> is_rne u z1 -> is_rne v z2 -> (z1 <= z2)%Z.
Proof.
  intros Huv H1 H2. destruct (Z_le_gt_dec z1 z2) as [|Hgt]; [assumption|exfalso].
  assert (Hle : IZR z2 + 1 <= IZR z1) by (rewrite <- plus_IZR; apply IZR_le; lia).
  destruct H1 as [H1|[E1 [H1|H1]]]; destruct H2 as [H2|[E2 [H2|H2]]];
    split_hyps; try lra.
  assert (z1 = z2 + 1)%Z by (apply eq_IZR; rewrite plus_IZR; lra). subst z1.
  rewrite Z.even_add, E2 in E1. discriminate.
Qed.

Lemma is_rne_IZR k : is_rne (IZR k) k.
Proof. left. lra. Qed.

Lemma is_rne_unique u z1 z2 : is_rne u z1 -> is_rne u z2 -> z1 = z2.
Proof.
  intros H1 H2. apply Z.le_antisymm; eapply is_rne_mono; eauto; lra.
Qed.

Lemma is_rne_le_int u K z : u <= IZR K -> is_rne u z -> (z <= K)%Z.
Proof. intros H Hz. exact (is_rne_mono _ _ _ _ H Hz (is_rne_IZR K)). Qed.

Lemma is_rne_ge_int u K z : IZR K <= u -> is_rne u z -> (K <= z)%Z.
Proof. intros H Hz. exact (is_rne_mono _ _ _ _ H (is_rne_IZR K) Hz). Qed.

Lemma is_rne_bounds u z : is_rne u z -> IZR z - /2 <= u <= IZR z + /2.
Proof. intros [H|[_ [H|H]]]; lra. Qed.

Lemma inbetween_rne u m l : inbetween u m l -> is_rne u (round_nearest_even m l).
Proof.
  destruct l as [|[ | | ]]; simpl; intros H.
  - subst u. apply is_rne_IZR.
  - destruct (Z.even m) eqn:Ev.
    + right. split; [exact Ev|]. right. exact H.
    + right. split.
      * rewrite Z.even_add, Ev. reflexivity.
      * left. rewrite plus_IZR. lra.
  - left. lra.
  - left. rewrite plus_IZR. lra.
Qed.

Lemma IZR_xI p : IZR (Zpos p~1) = 2 * IZR (Zpos p) + 1.
Proof.
  replace (Zpos p~1) with (2 * Zpos p + 1)%Z by lia.
  rewrite plus_IZR, mult_IZR. reflexivity.
Qed.

Lemma IZR_xO p : IZR (Zpos p~0) = 2 * IZR (Zpos p).
Proof.
  replace (Zpos p~0) with (2 * Zpos p)%Z by lia.
  rewrite mult_IZR. reflexivity.
Qed.

(** One step of the right shift halves the value and keeps the location
    right. *)
Lemma shr_1_inbetween v r :
  (0 <= shr_m r)%Z -> inbetween v (shr_m r) (loc_of_shr_record r) ->
  (0 <= shr_m (shr_1 r))%Z /\
  inbetween (v / 2) (shr_m (shr_1 r)) (loc_of_shr_record (shr_1 r)).
Proof.
  destruct r as [m rb sb]. cbn [shr_m]. intros Hm H.
  destruct m as [|p|p]; [ | destruct p as [p|p|] | lia];
    destruct rb, sb; cbn [shr_1 shr_m orb loc_of_shr_record inbetween] in *;
    (split; [lia|]);
    rewrite ?(IZR_xI p), ?(IZR_xO p) in *; split_hyps; try (split; lra); lra.
Qed.

(** [iter_pos] applied [p] times keeps an invariant indexed by the count. *)
Lemma iter_pos_ind {A} (f : A -> A) (P : Z -> A -> Prop) :
  (forall n x, P n x -> P (n + 1)%Z (f x)) ->
  forall p n x, P n x -> P (n + Zpos p)%Z (iter_pos f p x).
Proof.
  intros Hf p. induction p as [p IH|p IH|]; intros n x Hx; simpl.
  - replace (n + Zpos p~1)%Z with (n + 1 + Zpos p + Zpos p)%Z by lia.
    apply IH, IH, Hf, Hx.
  - replace (n + Zpos p~0)%Z with (n + Zpos p + Zpos p)%Z by lia.
    apply IH, IH, Hx.
  - apply Hf, Hx.
Qed.

Lemma iter_shr_1_inbetween p u r :
  (0 <= shr_m r)%Z -> inbetween u (shr_m r) (loc_of_shr_record r) ->
  (0 <= shr_m (iter_pos shr_1 p r))%Z /\
  inbetween (u / bpow (Zpos p)) (shr_m (iter_pos shr_1 p r))
    (loc_of_shr_record (iter_pos shr_1 p r)).
Proof.
  intros Hm H.
  set (P := fun n r' => (0 <= shr_m r')%Z /\
              inbetween (u / bpow n) (shr_m r') (loc_of_shr_record r')).
  assert (HP : forall n x, P n x -> P (n + 1)%Z (shr_1 x)).
  { intros n x [Hx1 Hx2]. unfold P.
    replace (u / bpow (n + 1)) with (u / bpow n / 2).
    - apply shr_1_inbetween; assumption.
    - rewrite bpow_plus, bpow_1. pose proof (bpow_pos n). field. lra. }
  pose proof (iter_pos_ind shr_1 P HP p 0 r) as Hi.
  unfold P in Hi. rewrite bpow_0 in Hi. replace (u / 1) with u in Hi by field.
  apply Hi. split; assumption.
Qed.

(** Binary64's exponent function. *)
Lemma fexp_eq k : fexp prec emax k = Z.max (k - 53) (-1074).
Proof. unfold fexp, SpecFloat.emin, prec, emax. lia. Qed.

Lemma fexp_mono a b : (a <= b)%Z -> (fexp prec emax a <= fexp prec emax b)%Z.
Proof. rewrite !fexp_eq. lia. Qed.

Lemma inbetween_bounds u m l : inbetween u m l -> IZR m <= u < IZR m + 1.
Proof. destruct l as [|[ | | ]]; simpl; intros; split_hyps; lra. Qed.

Lemma loc_of_shr_record_of_loc m l :
  loc_of_shr_record (shr_record_of_loc m l) = l /\ shr_m (shr_record_of_loc m l) = m.
Proof. destruct l as [|[ | | ]]; split; reflexivity. Qed.

(** The first stage of [binary_round_aux]: shifting the mantissa to the
    exponent [fexp (digits m + e)] keeps the location right. *)
Lemma shr_fexp_inbetween x m e l :
  (0 <= m)%Z -> inbetween (x / bpow e) m l ->
  (e <= fexp prec emax (Zdigits2 m + e))%Z ->
  forall r e1, shr_fexp prec emax m e l = (r, e1) ->
  e1 = fexp prec emax (Zdigits2 m + e) /\ (0 <= shr_m r)%Z /\
  inbetween (x / bpow e1) (shr_m r) (loc_of_shr_record r).
Proof.
  intros Hm H Hle r e1. unfold shr_fexp, shr.
  destruct (loc_of_shr_record_of_loc m l) as [Hl Hsm].
  destruct (fexp prec emax (Zdigits2 m + e) - e)%Z eqn:En; intros Eq; inversion Eq; subst.
  - repeat split; [lia|rewrite Hsm; exact Hm|rewrite Hl, Hsm; exact H].
  - destruct (iter_shr_1_inbetween p (x / bpow e) (shr_record_of_loc m l))
      as [H1 H2]; [rewrite Hsm; exact Hm|rewrite Hl, Hsm; exact H|].
    repeat split; [lia|exact H1|].
    replace (x / bpow (e + Zpos p)) with (x / bpow e / bpow (Zpos p)); [exact H2|].
    rewrite bpow_plus. pose proof (bpow_pos e). pose proof (bpow_pos (Zpos p)).
    field. lra.
  - lia.
Qed.

Lemma IZR_pow2_bpow a : (0 <= a)%Z -> IZR (2 ^ a) = bpow a.
Proof. intros H. rewrite bpow_IZR by exact H. reflexivity. Qed.

Theorem binary_round_aux_spec x m e l :
  (0 <= m)%Z -> inbetween (x / bpow e) m l ->
  (e <= fexp prec emax (Zdigits2 m + e))%Z ->
  exists z, rnd_ok x (Zdigits2 m + e) z /\
    binary_round_aux prec emax false m e l
    = round_tail z (fexp prec emax (Zdigits2 m + e)).
Proof.
  intros Hm H Hle.
  destruct (shr_fexp prec emax m e l) as [r e1] eqn:Es.
  destruct (shr_fexp_inbetween x m e l Hm H Hle r e1 Es) as [He1 [Hr Hin]].
  exists (round_nearest_even (shr_m r) (loc_of_shr_record r)). split.
  - pose proof (bpow_pos e) as Hbe.
    destruct (inbetween_bounds _ _ _ H) as [B1 B2].
    assert (Hx : x = x / bpow e * bpow e) by (field; lra).
    assert (Hx0 : 0 <= x).
    { apply IZR_le in Hm. rewrite Hx. apply Rmult_le_pos; lra. }
    split; [exact Hx0|]. split.
    + destruct (Z.eq_dec m 0) as [E0|Hm0].
      * subst m. rewrite Zdigits2_0 in *. rewrite Z.add_0_l.
        split.
        -- rewrite Hx.
           assert (x / bpow e * bpow e < 1 * bpow e) by (apply Rmult_lt_compat_r; lra).
           lra.
        -- right. rewrite fexp_eq in Hle. lia.
      * assert (Hmp : (0 < m)%Z) by lia.
        destruct (Zdigits2_bounds m Hmp) as [D1 D2].
        pose proof (Zdigits2_pos m Hmp) as Dp.
        apply IZR_le in D1. rewrite IZR_pow2_bpow in D1 by lia.
        assert (D2' : IZR m + 1 <= bpow (Zdigits2 m)).
        { rewrite <- IZR_pow2_bpow by lia. rewrite <- plus_IZR. apply IZR_le. lia. }
        split.
        -- rewrite Hx, bpow_plus. apply Rmult_lt_compat_r; [exact Hbe|]. lra.
        -- left. replace (Zdigits2 m + e - 1)%Z with (Zdigits2 m - 1 + e)%Z by lia.
           rewrite bpow_plus. rewrite Hx. apply Rmult_le_compat_r; lra.
    + rewrite <- He1. apply inbetween_rne. exact Hin.
  - unfold binary_round_aux. rewrite Es. rewrite <- He1. reflexivity.
Qed.

Lemma mag_ok_fexp_le x y kx ky :
  0 <= x -> x <= y -> mag_ok x kx -> mag_ok y ky ->
  (fexp prec emax kx <= fexp prec emax ky)%Z.
Proof.
  intros Hx Hxy [Hx1 Hx2] [Hy1 Hy2]. rewrite !fexp_eq.
  destruct (Z_le_gt_dec kx ky) as [|Hk]; [lia|].
  destruct Hx2 as [Hx2|Hx2]; [|lia].
  assert (bpow ky <= bpow (kx - 1)) by (apply bpow_le; lia). lra.
Qed.

Lemma fexp_lt_inv a b :
  (fexp prec emax a < fexp prec emax b)%Z -> (a < b)%Z.
Proof. rewrite !fexp_eq. lia. Qed.

Lemma rnd_ok_bounds x k z :
  rnd_ok x k z ->
  (0 <= z)%Z /\
  (z <= 2 ^ (Z.max k (fexp prec emax k) - fexp prec emax k))%Z /\
  ((-1074 < fexp prec emax k)%Z -> (2 ^ 52 <= z)%Z).
Proof.
  intros [Hx [[Hk1 Hk2] Hz]]. set (E := fexp prec emax k) in *.
  pose proof (bpow_pos E) as HE.
  assert (Hdiv : forall a, a / bpow E = a * / bpow E) by (intros; reflexivity).
  split; [|split].
  - apply (is_rne_ge_int (x / bpow E) 0 z); [|exact Hz]. rewrite Hdiv.
    apply Rmult_le_pos; [lra|]. apply Rlt_le, Rinv_0_lt_compat, HE.
  - apply (is_rne_le_int (x / bpow E) _ z); [|exact Hz].
    rewrite IZR_pow2_bpow by lia.
    replace (bpow (Z.max k E - E)) with (bpow (Z.max k E) / bpow E).
    + apply Rmult_le_compat_r; [apply Rlt_le, Rinv_0_lt_compat, HE|].
      assert (bpow k <= bpow (Z.max k E)) by (apply bpow_le; lia). lra.
    + replace (Z.max k E) with (Z.max k E - E + E)%Z at 1 by lia.
      rewrite bpow_plus. field. lra.
  - intros HE'. apply (is_rne_ge_int (x / bpow E) _ z); [|exact Hz].
    unfold E in HE'. rewrite fexp_eq in HE'.
    destruct Hk2 as [Hk2|Hk2]; [|lia].
    assert (EE : E = (k - 53)%Z) by (unfold E; rewrite fexp_eq; lia).
    rewrite IZR_pow2_bpow by lia.
    replace (bpow 52) with (bpow (k - 1) / bpow E).
    + apply Rmult_le_compat_r; [apply Rlt_le, Rinv_0_lt_compat, HE|exact Hk2].
    + rewrite EE. replace (k - 1)%Z with (52 + (k - 53))%Z by lia.
      rewrite bpow_plus. pose proof (bpow_pos (k - 53)). field. lra.
Qed.

(** Rounding to nearest, ties to even, at the binary64 exponent is
    monotone. *)
Theorem rnd_mono x y kx ky zx zy :
  x <= y -> rnd_ok x kx zx -> rnd_ok y ky zy ->
  IZR zx * bpow (fexp prec emax kx) <= IZR zy * bpow (fexp prec emax ky).
Proof.
  intros Hxy Hrx Hry.
  pose proof (rnd_ok_bounds _ _ _ Hrx) as [Zx1 [Zx2 _]].
  pose proof (rnd_ok_bounds _ _ _ Hry) as [Zy1 [_ Zy3]].
  destruct Hrx as [Hx [Mx Rx]]. destruct Hry as [Hy [My Ry]].
  pose proof (mag_ok_fexp_le x y kx ky Hx Hxy Mx My) as HE.
  set (Ex := fexp prec emax kx) in *. set (Ey := fexp prec emax ky) in *.
  pose proof (bpow_pos Ex). pose proof (bpow_pos Ey).
  destruct (Z.eq_dec Ex Ey) as [Eq|Neq].
  - rewrite <- Eq in *. apply Rmult_le_compat_r; [lra|]. apply IZR_le.
    apply (is_rne_mono (x / bpow Ex) (y / bpow Ex)); [|exact Rx|exact Ry].
    apply Rmult_le_compat_r; [apply Rlt_le, Rinv_0_lt_compat; assumption|exact Hxy].
  - assert (Hlt : (Ex < Ey)%Z) by lia.
    assert (Hk : (kx < ky)%Z) by (apply fexp_lt_inv; exact Hlt).
    assert (HEy : Ey = (ky - 53)%Z /\ (-1074 < Ey)%Z).
    { unfold Ex, Ey in *. rewrite !fexp_eq in *. lia. }
    destruct HEy as [HEy HEy'].
    specialize (Zy3 HEy').
    apply (Rle_trans _ (bpow (ky - 1))).
    + apply (Rle_trans _ (bpow (Z.max kx Ex))).
      * apply IZR_le in Zx2. rewrite IZR_pow2_bpow in Zx2 by lia.
        replace (bpow (Z.max kx Ex)) with (bpow (Z.max kx Ex - Ex) * bpow Ex).
        -- apply Rmult_le_compat_r; lra.
        -- rewrite <- bpow_plus. f_equal. lia.
      * apply bpow_le. lia.
    + apply IZR_le in Zy3. rewrite IZR_pow2_bpow in Zy3 by lia.
      replace (bpow (ky - 1)) with (bpow 52 * bpow Ey).
      * apply Rmult_le_compat_r; lra.
      * rewrite <- bpow_plus. f_equal. lia.
Qed.

Lemma canon_canonical m e :
  canon m e -> canonical_mantissa prec emax m e = true.
Proof.
  intros [H1 [H2 H3]]. unfold canonical_mantissa. apply Z.eqb_eq.
  rewrite fexp_eq. pose proof (digits2_pos_bounds m) as [D1 D2].
  set (d := Zpos (digits2_pos m)) in *.
  assert (d <= 53)%Z.
  { destruct (Z_le_gt_dec d 53) as [|Hd]; [assumption|].
    assert (2 ^ 53 <= 2 ^ (d - 1))%Z by (apply Z.pow_le_mono_r; lia). lia. }
  destruct (Z.eq_dec e (-1074)) as [->|Hne]; [lia|].
  assert (53 <= d)%Z.
  { destruct (Z_le_gt_dec 53 d) as [|Hd]; [assumption|].
    assert (2 ^ d <= 2 ^ 52)%Z by (apply Z.pow_le_mono_r; lia).
    specialize (H3 ltac:(lia)). lia. }
  lia.
Qed.

Lemma valid_canon s m e :
  valid_binary (S754_finite s m e) = true -> canon m e /\ (e <= 971)%Z.
Proof.
  simpl. unfold bounded, canonical_mantissa. rewrite andb_true_iff, Z.eqb_eq, Z.leb_le.
  rewrite fexp_eq. intros [Hc He]. unfold emax, prec in He.
  pose proof (digits2_pos_bounds m) as [D1 D2].
  set (d := Zpos (digits2_pos m)) in *.
  repeat split; try lia.
  - assert (2 ^ d <= 2 ^ 53)%Z by (apply Z.pow_le_mono_r; lia). lia.
  - intros Hlt. assert (d = 53)%Z by lia. subst d. rewrite H in D1. exact D1.
Qed.

Lemma canon_val_lt m e : canon m e -> IZR (Zpos m) * bpow e < bpow (53 + e).
Proof.
  intros [H1 _]. rewrite bpow_plus. apply Rmult_lt_compat_r; [apply bpow_pos|].
  rewrite <- IZR_pow2_bpow by lia. apply IZR_lt. exact H1.
Qed.

Lemma canon_val_ge m e : canon m e -> (-1074 < e)%Z ->
  bpow (52 + e) <= IZR (Zpos m) * bpow e.
Proof.
  intros [_ [_ H3]] He. rewrite bpow_plus. apply Rmult_le_compat_r; [apply Rlt_le, bpow_pos|].
  rewrite <- IZR_pow2_bpow by lia. apply IZR_le. exact (H3 He).
Qed.

Lemma canon_lt_exp m1 e1 m2 e2 : canon m1 e1 -> canon m2 e2 -> (e1 < e2)%Z ->
  IZR (Zpos m1) * bpow e1 < IZR (Zpos m2) * bpow e2.
Proof.
  intros C1 C2 He. pose proof (canon_val_lt _ _ C1).
  assert (He2 : (-1074 < e2)%Z) by (destruct C1 as [_ [He1 _]]; lia).
  pose proof (canon_val_ge _ _ C2 He2).
  assert (bpow (53 + e1) <= bpow (52 + e2)) by (apply bpow_le; lia). lra.
Qed.

Lemma SFleb_finite m1 e1 m2 e2 : canon m1 e1 -> canon m2 e2 ->
  (SFleb (S754_finite false m1 e1) (S754_finite false m2 e2) = true <->
   IZR (Zpos m1) * bpow e1 <= IZR (Zpos m2) * bpow e2).
Proof.
  intros C1 C2. unfold SFleb, SFcompare.
  destruct (Z.compare e1 e2) eqn:Ec.
  - apply Z.compare_eq in Ec. subst e2. pose proof (bpow_pos e1) as Hb.
    change (Pos.compare_cont Eq m1 m2) with (Pos.compare m1 m2).
    split.
    + intros H. apply Rmult_le_compat_r; [lra|]. apply IZR_le.
      destruct (Pos.compare m1 m2) eqn:Em; try discriminate.
      * apply Pos.compare_eq in Em. subst. lia.
      * rewrite Pos.compare_lt_iff in Em. lia.
    + intros H. apply Rmult_le_reg_r in H; [|lra]. apply le_IZR in H.
      destruct (Pos.compare m1 m2) eqn:Em; try reflexivity.
      rewrite Pos.compare_gt_iff in Em. lia.
  - split; [intros _|reflexivity].
    apply Rlt_le, canon_lt_exp; [exact C1|exact C2|]. apply Z.compare_lt_iff. exact Ec.
  - split; [discriminate|]. intros H.
    assert (IZR (Zpos m2) * bpow e2 < IZR (Zpos m1) * bpow e1).
    { apply canon_lt_exp; [exact C2|exact C1|]. apply Z.compare_gt_iff. exact Ec. }
    lra.
Qed.

Lemma canon_val_pos m e : 0 < IZR (Zpos m) * bpow e.
Proof. apply Rmult_lt_0_compat; [apply IZR_lt; lia|apply bpow_pos]. Qed.

Lemma SFleb_nonneg f1 f2 : nonneg_sf f1 -> nonneg_sf f2 ->
  SFleb f1 f2 = true <-> ext_le f1 f2.
Proof.
  intros H1 H2.
  destruct f1 as [[|]|[|]| |[|] m1 e1]; destruct f2 as [[|]|[|]| |[|] m2 e2];
    simpl in H1, H2; try contradiction.
  all: try (pose proof (canon_val_pos m1 e1)); try (pose proof (canon_val_pos m2 e2)).
  all: try (apply SFleb_finite; assumption).
  all: unfold SFleb, ext_le, sf_val; simpl; split; intros; try reflexivity; try discriminate;
    try lra; try tauto.
Qed.

Lemma shr_1_2p53 :
  iter_pos shr_1 1 {| shr_m := 2 ^ 53; shr_r := false; shr_s := false |}
  = {| shr_m := 2 ^ 52; shr_r := false; shr_s := false |}.
Proof. vm_compute. reflexivity. Qed.

Lemma round_tail_spec z E :
  (0 <= z <= 2 ^ 53)%Z -> (-1074 <= E)%Z -> ((-1074 < E)%Z -> (2 ^ 52 <= z)%Z) ->
  round_tail z E =
    if (z =? 0)%Z then S754_zero false
    else if (z =? 2 ^ 53)%Z then
      (if (E + 1 <=? 971)%Z then S754_finite false (2 ^ 52) (E + 1) else S754_infinity false)
    else if (E <=? 971)%Z then S754_finite false (Z.to_pos z) E else S754_infinity false.
Proof.
  intros Hz HE Hn. unfold round_tail, shr_fexp, shr. cbn [shr_record_of_loc].
  destruct (Z.eq_dec z 0) as [->|Hz0].
  - cbn [Zdigits2]. rewrite Z.add_0_l.
    destruct (fexp prec emax E - E)%Z eqn:En; [reflexivity| |reflexivity].
    rewrite fexp_eq in En. lia.
  - rewrite (proj2 (Z.eqb_neq z 0) Hz0).
    destruct (Z.eq_dec z (2 ^ 53)) as [->|Hz53].
    + replace (Zdigits2 (2 ^ 53)) with 54%Z by reflexivity.
      replace (fexp prec emax (54 + E) - E)%Z with 1%Z by (rewrite fexp_eq; lia).
      rewrite shr_1_2p53. cbn [shr_m]. rewrite Z.eqb_refl. unfold emax, prec.
      replace (1024 - 53)%Z with 971%Z by reflexivity. reflexivity.
    + rewrite (proj2 (Z.eqb_neq z (2 ^ 53)) Hz53).
      assert (Hd : (Zdigits2 z <= 53)%Z).
      { destruct (Zdigits2_bounds z ltac:(lia)) as [D1 _].
        destruct (Z_le_gt_dec (Zdigits2 z) 53) as [|Hd]; [assumption|].
        assert (2 ^ 53 <= 2 ^ (Zdigits2 z - 1))%Z by (apply Z.pow_le_mono_r; lia). lia. }
      assert (Hneg : (fexp prec emax (Zdigits2 z + E) - E <= 0)%Z) by (rewrite fexp_eq; lia).
      destruct (fexp prec emax (Zdigits2 z + E) - E)%Z eqn:En; [ |lia| ];
        cbn [shr_m]; (destruct z as [|q|q]; [lia| |lia]); unfold emax, prec;
        replace (1024 - 53)%Z with 971%Z by reflexivity; reflexivity.
Qed.

Lemma rnd_ok_range x k z :
  rnd_ok x k z ->
  (0 <= z <= 2 ^ 53)%Z /\ (-1074 <= fexp prec emax k)%Z /\
  ((-1074 < fexp prec emax k)%Z -> (2 ^ 52 <= z)%Z).
Proof.
  intros H. destruct (rnd_ok_bounds _ _ _ H) as [B1 [B2 B3]].
  repeat split; try assumption; [|rewrite fexp_eq; lia].
  assert (2 ^ (Z.max k (fexp prec emax k) - fexp prec emax k) <= 2 ^ 53)%Z
    by (apply Z.pow_le_mono_r; [lia|rewrite fexp_eq; lia]).
  lia.
Qed.

Lemma round_tail_cases x k z : rnd_ok x k z ->
  (z = 0%Z /\ round_tail z (fexp prec emax k) = S754_zero false) \/
  (exists m e, round_tail z (fexp prec emax k) = S754_finite false m e /\ canon m e /\
     (e <= 971)%Z /\ IZR (Zpos m) * bpow e = IZR z * bpow (fexp prec emax k)) \/
  (round_tail z (fexp prec emax k) = S754_infinity false /\
     bpow 1024 <= IZR z * bpow (fexp prec emax k)).
Proof.
  intros H. destruct (rnd_ok_range _ _ _ H) as [Hz [HE Hn]].
  set (E := fexp prec emax k) in *.
  rewrite (round_tail_spec z E Hz HE Hn).
  destruct (Z.eqb_spec z 0) as [->|Hz0]; [left; split; reflexivity|right].
  destruct (Z.eqb_spec z (2 ^ 53)) as [->|Hz53].
  - destruct (Z.leb_spec (E + 1) 971) as [Hl|Hl].
    + left. exists (2 ^ 52)%positive, (E + 1)%Z.
      assert (P52 : Zpos (2 ^ 52) = (2 ^ 52)%Z) by reflexivity.
      split; [reflexivity|]. split; [|split; [lia|]].
      * unfold canon. rewrite P52. repeat split; try lia.
      * rewrite P52, bpow_plus, bpow_1. rewrite !IZR_pow2_bpow by lia.
        replace (bpow 53) with (bpow 52 * 2) by (rewrite <- bpow_1, <- bpow_plus; reflexivity).
        lra.
    + right. split; [reflexivity|]. rewrite IZR_pow2_bpow by lia. rewrite <- bpow_plus.
      apply bpow_le. lia.
  - destruct (Z.leb_spec E 971) as [Hl|Hl].
    + left. exists (Z.to_pos z), E. rewrite Z2Pos.id by lia.
      repeat split; try reflexivity; try lia.
    + right. split; [reflexivity|].
      specialize (Hn ltac:(lia)). apply IZR_le in Hn. rewrite IZR_pow2_bpow in Hn by lia.
      apply (Rle_trans _ (bpow 52 * bpow E)).
      * rewrite <- bpow_plus. apply bpow_le. lia.
      * apply Rmult_le_compat_r; [apply Rlt_le, bpow_pos|exact Hn].
Qed.

Lemma round_tail_nonneg x k z : rnd_ok x k z ->
  nonneg_sf (round_tail z (fexp prec emax k)) /\
  valid_binary (round_tail z (fexp prec emax k)) = true.
Proof.
  intros H. destruct (round_tail_cases _ _ _ H) as [[_ ->]|[[m [e [-> [Hc [He _]]]]]|[-> _]]];
    split; try exact I; try reflexivity; try exact Hc.
  simpl. unfold bounded. rewrite canon_canonical by exact Hc. simpl.
  apply Z.leb_le. unfold emax, prec. lia.
Qed.

Lemma round_tail_ext_le x y kx ky zx zy :
  x <= y -> rnd_ok x kx zx -> rnd_ok y ky zy ->
  ext_le (round_tail zx (fexp prec emax kx)) (round_tail zy (fexp prec emax ky)).
Proof.
  intros Hxy Hx Hy. pose proof (rnd_mono _ _ _ _ _ _ Hxy Hx Hy) as Hv.
  pose proof (rnd_ok_range _ _ _ Hx) as [Zx _].
  pose proof (bpow_pos (fexp prec emax kx)) as Bx.
  destruct (round_tail_cases _ _ _ Hy) as [[Zy0 Ry]|[[my [ey [Ry [Cy [Ey Vy]]]]]|[Ry Vy]]];
    rewrite Ry; [| |destruct (round_tail zx _); try destruct s; exact I].
  - subst zy. assert (zx = 0%Z).
    { destruct (Z.eq_dec zx 0) as [|Hne]; [assumption|].
      assert (0 < IZR zx) by (apply IZR_lt; lia). simpl in Hv. nra. }
    subst zx. destruct (round_tail_cases _ _ _ Hx) as [[_ ->]|[[m [e [_ [Cm [_ Vm]]]]]|[_ V]]].
    + simpl. lra.
    + exfalso. pose proof (canon_val_pos m e). simpl in Vm. lra.
    + exfalso. pose proof (bpow_pos 1024). simpl in V. lra.
  - assert (Hlt : IZR (Zpos my) * bpow ey < bpow 1024).
    { apply (Rlt_le_trans _ _ _ (canon_val_lt _ _ Cy)). apply bpow_le. lia. }
    destruct (round_tail_cases _ _ _ Hx) as [[_ ->]|[[m [e [-> [Cm [_ Vm]]]]]|[-> V]]].
    + simpl. pose proof (canon_val_pos my ey). lra.
    + simpl. lra.
    + exfalso. lra.
Qed.

(** Digits of a canonical mantissa. *)
Lemma canon_digits m e : canon m e ->
  let d := Zpos (digits2_pos m) in
  (1 <= d <= 53)%Z /\ (-1074 <= e)%Z /\ (e = -1074 \/ d = 53)%Z.
Proof.
  intros [H1 [H2 H3]] d. pose proof (digits2_pos_bounds m) as [D1 D2]. fold d in D1, D2.
  assert (1 <= d)%Z by (unfold d; lia).
  assert (d <= 53)%Z.
  { destruct (Z_le_gt_dec d 53) as [|Hd]; [assumption|].
    assert (2 ^ 53 <= 2 ^ (d - 1))%Z by (apply Z.pow_le_mono_r; lia). lia. }
  repeat split; try lia.
  destruct (Z.eq_dec e (-1074)) as [|Hne]; [left; assumption|right].
  specialize (H3 ltac:(lia)).
  destruct (Z_le_gt_dec 53 d) as [|Hd]; [lia|].
  assert (2 ^ d <= 2 ^ 52)%Z by (apply Z.pow_le_mono_r; lia). lia.
Qed.

Lemma Zdigits2_mul_ge m1 m2 :
  (Zpos (digits2_pos m1) + Zpos (digits2_pos m2) - 1 <= Zdigits2 (Zpos (m1 * m2)))%Z.
Proof.
  pose proof (digits2_pos_bounds m1) as [A1 A2]. pose proof (digits2_pos_bounds m2) as [B1 B2].
  pose proof (Zdigits2_bounds (Zpos (m1 * m2)) ltac:(lia)) as [C1 C2].
  rewrite Pos2Z.inj_mul in C1, C2 |- *.
  set (d1 := Zpos (digits2_pos m1)) in *. set (d2 := Zpos (digits2_pos m2)) in *.
  set (d := Zdigits2 (Zpos m1 * Zpos m2)) in *.
  assert (2 ^ (d1 - 1) * 2 ^ (d2 - 1) <= Zpos m1 * Zpos m2)%Z
    by (apply Z.mul_le_mono_nonneg; lia).
  rewrite <- Z.pow_add_r in H by (unfold d1, d2; lia).
  assert (2 ^ (d1 - 1 + (d2 - 1)) < 2 ^ d)%Z by lia.
  pose proof (Zdigits2_pos (Zpos m1 * Zpos m2) ltac:(lia)).
  apply Z.pow_lt_mono_r_iff in H0; unfold d1, d2, d in *; lia.
Qed.

Lemma SFmul_spec m1 e1 m2 e2 : canon m1 e1 -> canon m2 e2 ->
  exists k z,
    rnd_ok (IZR (Zpos m1) * bpow e1 * (IZR (Zpos m2) * bpow e2)) k z /\
    SFmul prec emax (S754_finite false m1 e1) (S754_finite false m2 e2)
    = round_tail z (fexp prec emax k).
Proof.
  intros C1 C2. exists (Zdigits2 (Zpos (m1 * m2)) + (e1 + e2))%Z.
  destruct (binary_round_aux_spec (IZR (Zpos m1) * bpow e1 * (IZR (Zpos m2) * bpow e2))
              (Zpos (m1 * m2)) (e1 + e2) loc_Exact) as [z [Hz Eq]].
  - lia.
  - simpl. rewrite Pos2Z.inj_mul, mult_IZR, bpow_plus.
    pose proof (bpow_pos e1). pose proof (bpow_pos e2). field. lra.
  - pose proof (canon_digits _ _ C1) as D1. pose proof (canon_digits _ _ C2) as D2.
    pose proof (Zdigits2_mul_ge m1 m2). cbv zeta in D1, D2. rewrite fexp_eq. lia.
  - exists z. split; [exact Hz|]. simpl. exact Eq.
Qed.

Lemma SFmul_comm x y : SFmul prec emax x y = SFmul prec emax y x.
Proof.
  destruct x as [sx|sx| |sx mx ex], y as [sy|sy| |sy my ey]; simpl;
    try rewrite (xorb_comm sx sy); try rewrite (Pos.mul_comm mx my), (Z.add_comm ex ey);
    reflexivity.
Qed.

Lemma SFmul_nonneg_finite a m e : nonneg_sf a -> canon m e ->
  nonneg_sf (SFmul prec emax a (S754_finite false m e)).
Proof.
  intros Ha C. destruct a as [[|]|[|]| |[|] ma ea]; simpl in Ha; try contradiction;
    try exact I.
  destruct (SFmul_spec ma ea m e Ha C) as [k [z [Hz ->]]].
  exact (proj1 (round_tail_nonneg _ _ _ Hz)).
Qed.

(** Multiplication by a positive finite float is monotone on non-negative
    floats. *)
Theorem SFmul_mono_l a b m e : nonneg_sf a -> nonneg_sf b -> canon m e ->
  SFleb a b = true ->
  SFleb (SFmul prec emax a (S754_finite false m e))
        (SFmul prec emax b (S754_finite false m e)) = true.
Proof.
  intros Ha Hb C Hab.
  apply SFleb_nonneg; try (apply SFmul_nonneg_finite; assumption).
  apply SFleb_nonneg in Hab; [|assumption|assumption].
  destruct a as [[|]|[|]| |[|] ma ea]; destruct b as [[|]|[|]| |[|] mb eb];
    simpl in Ha, Hb; try contradiction; simpl in Hab; try contradiction.
  all: try (destruct (SFmul_spec ma ea m e Ha C) as [k1 [z1 [Hz1 E1]]]; rewrite E1).
  all: try (destruct (SFmul_spec mb eb m e Hb C) as [k2 [z2 [Hz2 E2]]]; rewrite E2).
  all: simpl; try exact I; try lra.
  - destruct (round_tail_cases _ _ _ Hz2) as [[_ ->]|[[m' [e' [-> [Cm _]]]]|[-> _]]];
      simpl; try lra; try exact I.
    pose proof (canon_val_pos m' e'). lra.
  - pose proof (canon_val_pos ma ea). lra.
  - destruct (round_tail_cases _ _ _ Hz1) as [[_ ->]|[[m' [e' [-> _]]]|[-> _]]]; exact I.
  - refine (round_tail_ext_le _ _ _ _ _ _ _ Hz1 Hz2).
    apply Rmult_le_compat_r; [apply Rlt_le, canon_val_pos|exact Hab].
Qed.

Theorem SFmul_mono_r a b m e : nonneg_sf a -> nonneg_sf b -> canon m e ->
  SFleb a b = true ->
  SFleb (SFmul prec emax (S754_finite false m e) a)
        (SFmul prec emax (S754_finite false m e) b) = true.
Proof.
  intros. rewrite (SFmul_comm _ a), (SFmul_comm _ b). apply SFmul_mono_l; assumption.
Qed.

Lemma frac_loc r d : (0 <= r < d)%Z ->
  let t := IZR r / IZR d in
  0 <= t < 1 /\ ((2 * r < d)%Z -> t < /2) /\ ((2 * r = d)%Z -> t = /2) /\
  ((d < 2 * r)%Z -> /2 < t) /\ (r = 0%Z -> t = 0) /\ ((0 < r)%Z -> 0 < t).
Proof.
  intros Hr t. assert (Hd : 0 < IZR d) by (apply IZR_lt; lia).
  assert (Ht : t * IZR d = IZR r) by (unfold t; field; lra).
  assert (R0 : 0 <= IZR r) by (apply IZR_le; lia).
  assert (R1 : IZR r < IZR d) by (apply IZR_lt; lia).
  repeat split.
  - nra.
  - nra.
  - intros H. apply IZR_lt in H. rewrite mult_IZR in H. nra.
  - intros H. apply (f_equal IZR) in H. rewrite mult_IZR in H. nra.
  - intros H. apply IZR_lt in H. rewrite mult_IZR in H. nra.
  - intros ->. unfold t. simpl. field. lra.
  - intros H. apply IZR_lt in H. nra.
Qed.

Lemma shl_mul m d : Zpos (Pos.iter xO m d) = (Zpos m * 2 ^ Zpos d)%Z.
Proof.
  induction d as [|d IH] using Pos.peano_ind.
  - simpl. lia.
  - rewrite Pos.iter_succ, Pos2Z.inj_succ, Z.pow_succ_r by lia.
    rewrite (Pos2Z.inj_xO (Pos.iter xO m d)), IH. lia.
Qed.

Lemma SFdiv_core_binary_spec m1 e1 m2 e2 q e' l :
  SFdiv_core_binary prec emax (Zpos m1) e1 (Zpos m2) e2 = (q, e', l) ->
  (0 <= q)%Z /\
  inbetween (IZR (Zpos m1) * bpow e1 / (IZR (Zpos m2) * bpow e2) / bpow e') q l /\
  (e' <= fexp prec emax (Zdigits2 q + e'))%Z.
Proof.
  unfold SFdiv_core_binary. cbn [Zdigits2].
  set (d1 := Zpos (digits2_pos m1)). set (d2 := Zpos (digits2_pos m2)).
  set (E := Z.min (fexp prec emax (d1 + e1 - (d2 + e2))) (e1 - e2)).
  set (s := (e1 - e2 - E)%Z).
  assert (Hs : (0 <= s)%Z) by (unfold s, E; lia).
  set (m' := match s with Zpos _ => Z.shiftl (Zpos m1) s | Z0 => Zpos m1 | Zneg _ => 0%Z end).
  assert (Hm' : m' = (Zpos m1 * 2 ^ s)%Z).
  { unfold m'. destruct s as [|p|p] eqn:Es; [lia| |lia].
    rewrite Z.shiftl_mul_pow2 by lia. reflexivity. }
  clearbody m'.
  destruct (Z.div_eucl m' (Zpos m2)) as [q0 r] eqn:Ediv. intros Eq. inversion Eq. subst q e' l.
  pose proof (Z_div_mod m' (Zpos m2) ltac:(lia)) as Hdm. rewrite Ediv in Hdm.
  destruct Hdm as [Hdm Hr].
  pose proof (digits2_pos_bounds m1) as [A1 A2]. pose proof (digits2_pos_bounds m2) as [B1 B2].
  fold d1 in A1, A2. fold d2 in B1, B2.
  assert (Hd1 : (1 <= d1)%Z) by (unfold d1; lia). assert (Hd2 : (1 <= d2)%Z) by (unfold d2; lia).
  assert (Hq : (0 <= q0)%Z).
  { assert (0 < Zpos m1 * 2 ^ s)%Z by (apply Z.mul_pos_pos; [lia|apply Z.pow_pos_nonneg; lia]).
    nia. }
  split; [exact Hq|split].
  - assert (Hu : IZR (Zpos m1) * bpow e1 / (IZR (Zpos m2) * bpow e2) / bpow E
                 = IZR q0 + IZR r / IZR (Zpos m2)).
    { replace e1 with (e2 + E + s)%Z at 1 by (unfold s; lia).
      rewrite !bpow_plus. rewrite <- (IZR_pow2_bpow s Hs).
      assert (Hm2 : 0 < IZR (Zpos m2)) by (apply IZR_lt; lia).
      pose proof (bpow_pos e2). pose proof (bpow_pos E).
      assert (IZR (Zpos m1) * IZR (2 ^ s) = IZR (Zpos m2) * IZR q0 + IZR r)
        by (rewrite <- !mult_IZR, <- plus_IZR; f_equal; lia).
      field_simplify; [|lra|lra]. rewrite H1. field. lra. }
    rewrite Hu. destruct (frac_loc r (Zpos m2) Hr) as [T1 [T2 [T3 [T4 [T5 T6]]]]].
    unfold new_location, new_location_even, new_location_odd.
    destruct (Z.even (Zpos m2)) eqn:Ev; destruct (Z.eqb_spec r 0) as [Er|Er].
    + simpl. rewrite T5 by exact Er. lra.
    + destruct (Z.compare_spec (2 * r) (Zpos m2)) as [C|C|C]; simpl.
      * rewrite T3 by exact C. lra.
      * specialize (T2 C). specialize (T6 ltac:(lia)). lra.
      * specialize (T4 C). split; lra.
    + simpl. rewrite T5 by exact Er. lra.
    + assert (Hne : (2 * r <> Zpos m2)%Z).
      { intros Heq. rewrite <- Heq, Z.even_mul in Ev. discriminate. }
      destruct (Z.compare_spec (2 * r + 1) (Zpos m2)) as [C|C|C]; simpl.
      * specialize (T2 ltac:(lia)). specialize (T6 ltac:(lia)). lra.
      * specialize (T2 ltac:(lia)). specialize (T6 ltac:(lia)). lra.
      * specialize (T4 ltac:(lia)). split; lra.
  - rewrite fexp_eq.
    assert (HE : (E <= Z.max (d1 + e1 - (d2 + e2) - 53) (-1074))%Z)
      by (unfold E; rewrite fexp_eq; lia).
    destruct (Z.eq_dec q0 0) as [Hq0|Hq0].
    + subst q0. cbn [Zdigits2].
      assert (Hlt : (Zpos m1 * 2 ^ s < Zpos m2)%Z) by lia.
      assert (2 ^ (d1 - 1 + s) < 2 ^ d2)%Z.
      { rewrite Z.pow_add_r by lia.
        assert (2 ^ (d1 - 1) * 2 ^ s <= Zpos m1 * 2 ^ s)%Z
          by (apply Z.mul_le_mono_nonneg_r; [apply Z.pow_nonneg; lia|lia]).
        lia. }
      apply Z.pow_lt_mono_r_iff in H; [|lia|lia]. unfold s in H. lia.
    + pose proof (Zdigits2_bounds q0 ltac:(lia)) as [Q1 Q2].
      pose proof (Zdigits2_pos q0 ltac:(lia)).
      assert (d1 + s - d2 <= Zdigits2 q0)%Z.
      { destruct (Z_le_gt_dec (d1 - 1 + s) d2) as [Hle|Hgt]; [lia|].
        assert (H2 : (2 ^ (d1 - 1 + s - d2) * 2 ^ d2 < (q0 + 1) * 2 ^ d2)%Z).
        { rewrite <- Z.pow_add_r by lia. replace (d1 - 1 + s - d2 + d2)%Z with (d1 - 1 + s)%Z by lia.
          rewrite Z.pow_add_r by lia.
          assert (2 ^ (d1 - 1) * 2 ^ s <= Zpos m1 * 2 ^ s)%Z
            by (apply Z.mul_le_mono_nonneg_r; [apply Z.pow_nonneg; lia|lia]).
          assert (Zpos m2 * q0 + r < (q0 + 1) * Zpos m2)%Z by lia.
          assert ((q0 + 1) * Zpos m2 <= (q0 + 1) * 2 ^ d2)%Z
            by (apply Z.mul_le_mono_nonneg_l; lia).
          lia. }
        apply Z.mul_lt_mono_pos_r in H2; [|apply Z.pow_pos_nonneg; lia].
        assert (H3 : (2 ^ (d1 - 1 + s - d2) < 2 ^ Zdigits2 q0)%Z) by lia.
        apply Z.pow_lt_mono_r_iff in H3; lia. }
      unfold s in *. lia.
Qed.

Lemma SFdiv_spec m1 e1 m2 e2 :
  exists k z,
    rnd_ok (IZR (Zpos m1) * bpow e1 / (IZR (Zpos m2) * bpow e2)) k z /\
    SFdiv prec emax (S754_finite false m1 e1) (S754_finite false m2 e2)
    = round_tail z (fexp prec emax k).
Proof.
  cbn [SFdiv xorb].
  destruct (SFdiv_core_binary prec emax (Zpos m1) e1 (Zpos m2) e2) as [[q e'] l] eqn:Ed.
  destruct (SFdiv_core_binary_spec _ _ _ _ _ _ _ Ed) as [Hq [Hin Hle]].
  destruct (binary_round_aux_spec _ q e' l Hq Hin Hle) as [z [Hz Eq]].
  exists (Zdigits2 q + e')%Z, z. split; [exact Hz|exact Eq].
Qed.

Lemma Z_round_half_even_spec n d : (0 < d)%Z ->
  is_rne (IZR n / IZR d) (Z_round_half_even n d).
Proof.
  intros Hd. unfold Z_round_half_even.
  set (q := (n / d)%Z). set (r := (n - q * d)%Z).
  assert (Hr : (0 <= r < d)%Z) by (unfold r, q; pose proof (Z.mod_pos_bound n d Hd);
    rewrite Z.mod_eq in H by lia; lia).
  assert (Hu : IZR n / IZR d = IZR q + IZR r / IZR d).
  { assert (IZR d <> 0) by (apply not_0_IZR; lia).
    unfold r. rewrite minus_IZR, mult_IZR. field. exact H. }
  rewrite Hu. destruct (frac_loc r d Hr) as [T1 [T2 [T3 [T4 _]]]].
  unfold is_rne.
  destruct (Z.compare_spec (2 * r) d) as [C|C|C].
  - specialize (T3 C). destruct (Z.even q) eqn:Ev.
    + right. split; [exact Ev|]. right. lra.
    + right. split; [rewrite Z.even_add, Ev; reflexivity|].
      left. rewrite plus_IZR. lra.
  - specialize (T2 C). left. lra.
  - specialize (T4 C). left. rewrite plus_IZR. lra.
Qed.

Lemma Zdigits2_shift z k : (0 < z)%Z -> (0 <= k)%Z ->
  Zdigits2 (z * 2 ^ k) = (Zdigits2 z + k)%Z.
Proof.
  intros Hz Hk. pose proof (Zdigits2_bounds z Hz) as [B1 B2]. pose proof (Zdigits2_pos z Hz).
  apply Zdigits2_unique; [|lia].
  replace (Zdigits2 z + k - 1)%Z with (Zdigits2 z - 1 + k)%Z by lia.
  rewrite !Z.pow_add_r by lia.
  assert (0 < 2 ^ k)%Z by (apply Z.pow_pos_nonneg; lia). nia.
Qed.

Lemma binary_round_spec m e :
  exists k z, rnd_ok (IZR (Zpos m) * bpow e) k z /\
    binary_round prec emax false m e = round_tail z (fexp prec emax k).
Proof.
  unfold binary_round, shl_align.
  destruct (fexp prec emax (Zpos (digits2_pos m) + e) - e)%Z as [|d|d] eqn:Ed.
  - destruct (binary_round_aux_spec (IZR (Zpos m) * bpow e) (Zpos m) e loc_Exact)
      as [z [Hz Eq]]; [lia| |cbn [Zdigits2]; lia|].
    + simpl. pose proof (bpow_pos e). field. lra.
    + eexists _, z. split; [exact Hz|exact Eq].
  - destruct (binary_round_aux_spec (IZR (Zpos m) * bpow e) (Zpos m) e loc_Exact)
      as [z [Hz Eq]]; [lia| |cbn [Zdigits2]; lia|].
    + simpl. pose proof (bpow_pos e). field. lra.
    + eexists _, z. split; [exact Hz|exact Eq].
  - set (E := fexp prec emax (Zpos (digits2_pos m) + e)) in *.
    destruct (binary_round_aux_spec (IZR (Zpos m) * bpow e) (Zpos (Pos.iter xO m d)) E loc_Exact)
      as [z [Hz Eq]]; [lia| | |].
    + simpl. rewrite shl_mul, mult_IZR, IZR_pow2_bpow by lia.
      replace e with (E + Zpos d)%Z at 1 by lia. rewrite bpow_plus.
      pose proof (bpow_pos E). field. lra.
    + rewrite shl_mul, Zdigits2_shift by lia. cbn [Zdigits2].
      replace (Zpos (digits2_pos m) + Zpos d + E)%Z with (Zpos (digits2_pos m) + e)%Z by lia.
      fold E. lia.
    + eexists _, z. split; [exact Hz|exact Eq].
Qed.

Lemma shl_align_val m e ez : (ez <= e)%Z ->
  IZR (Zpos (fst (shl_align m e ez))) * bpow ez = IZR (Zpos m) * bpow e.
Proof.
  intros H. unfold shl_align. destruct (ez - e)%Z as [|d|d] eqn:Ed; simpl.
  - replace ez with e by lia. reflexivity.
  - lia.
  - rewrite shl_mul, mult_IZR, IZR_pow2_bpow by lia.
    replace e with (ez + Zpos d)%Z by lia. rewrite bpow_plus. ring.
Qed.

Lemma SFsub_nonneg m e c : canon m e -> nonneg_sf c -> ext_le c (S754_finite false m e) ->
  nonneg_sf (SFsub prec emax (S754_finite false m e) c).
Proof.
  intros Hc Hn Hle. destruct c as [[|]|[|]| |[|] m2 e2]; simpl in Hn; try contradiction.
  - exact Hc.
  - cbn [SFsub cond_Zopp]. simpl in Hle.
    set (ez := Z.min e e2).
    pose proof (shl_align_val m e ez ltac:(unfold ez; lia)) as V1.
    pose proof (shl_align_val m2 e2 ez ltac:(unfold ez; lia)) as V2.
    set (a := Zpos (fst (shl_align m e ez))) in *. set (b := Zpos (fst (shl_align m2 e2 ez))) in *.
    assert (Hab : (b <= a)%Z).
    { apply le_IZR. pose proof (bpow_pos ez). nra. }
    destruct (a - b)%Z as [|p|p] eqn:Eab; [exact I| |lia].
    unfold binary_normalize. destruct (binary_round_spec p ez) as [k [z [Hz ->]]].
    exact (proj1 (round_tail_nonneg _ _ _ Hz)).
Qed.

Lemma ext_le_trans f1 f2 f3 : nonneg_sf f2 -> ext_le f1 f2 -> ext_le f2 f3 -> ext_le f1 f3.
Proof.
  intros N H1 H2.
  destruct f1 as [[|]|[|]| |[|] m1 e1]; destruct f2 as [[|]|[|]| |[|] m2 e2];
    destruct f3 as [[|]|[|]| |[|] m3 e3]; simpl in *; try contradiction; try exact I; lra.
Qed.

Lemma ext_le_zero f : nonneg_sf f -> ext_le (S754_zero false) f.
Proof.
  destruct f as [[|]|[|]| |[|] m e]; simpl; try contradiction; try (intros; exact I).
  - intros _. lra.
  - intros _. pose proof (canon_val_pos m e). lra.
Qed.

Lemma round_res_nonneg p k : (0 < p)%Z -> nonneg_sf (round_res p k) /\ valid_binary (round_res p k) = true.
Proof.
  intros Hp. destruct k as [|k|k]; try (split; [exact I|reflexivity]).
  unfold round_res.
  destruct (SFdiv_spec k 0 (Z.to_pos p) 0) as [kk [z [Hz ->]]].
  exact (round_tail_nonneg _ _ _ Hz).
Qed.

Lemma round_res_mono p k1 k2 : (0 < p)%Z -> (0 <= k1 <= k2)%Z ->
  ext_le (round_res p k1) (round_res p k2).
Proof.
  intros Hp Hk. destruct k1 as [|k1|k1]; [|destruct k2 as [|k2|k2]|lia].
  - apply ext_le_zero, round_res_nonneg, Hp.
  - lia.
  - unfold round_res.
    destruct (SFdiv_spec k1 0 (Z.to_pos p) 0) as [kk1 [z1 [Hz1 ->]]].
    destruct (SFdiv_spec k2 0 (Z.to_pos p) 0) as [kk2 [z2 [Hz2 ->]]].
    refine (round_tail_ext_le _ _ _ _ _ _ _ Hz1 Hz2).
    rewrite Z2Pos.id by exact Hp.
    assert (0 < IZR p) by (apply IZR_lt; exact Hp).
    assert (Hk' : IZR (Zpos k1) <= IZR (Zpos k2)) by (apply IZR_le; lia). rewrite bpow_0. unfold Rdiv.
    apply Rmult_le_compat_r; [apply Rlt_le, Rinv_0_lt_compat; lra|lra].
  - lia.
Qed.

Lemma py_round_finite nd x m e : Prim2SF x = S754_finite false m e ->
  exists k, is_rne (IZR (Zpos m) * bpow e * IZR (10 ^ Z.of_nat nd)) k /\
    Prim2SF (py_round nd x) = round_res (10 ^ Z.of_nat nd) k.
Proof.
  intros Hx. unfold py_round. rewrite Hx.
  set (p := (10 ^ Z.of_nat nd)%Z).
  assert (Hp : (0 < p)%Z) by (apply Z.pow_pos_nonneg; lia).
  assert (HZ : forall n d, (0 < d)%Z -> IZR n / IZR d = IZR (Zpos m) * bpow e * IZR p ->
    exists k, is_rne (IZR (Zpos m) * bpow e * IZR p) k /\
      Prim2SF (match Z_round_half_even n d with
               | Zpos k => SF2Prim (SF64div (S754_finite false k 0) (S754_finite false (Z.to_pos p) 0))
               | _ => SF2Prim (S754_zero false) end) = round_res p k).
  { intros n d Hd Hv. exists (Z_round_half_even n d).
    pose proof (Z_round_half_even_spec n d Hd) as Hr. rewrite Hv in Hr.
    split; [exact Hr|].
    destruct (Z_round_half_even n d) as [|k|k] eqn:Ek.
    - apply Prim2SF_SF2Prim. reflexivity.
    - apply Prim2SF_SF2Prim. exact (proj2 (round_res_nonneg p (Zpos k) Hp)).
    - exfalso. assert (0 <= IZR (Zpos m) * bpow e * IZR p).
      { pose proof (canon_val_pos m e). assert (0 < IZR p) by (apply IZR_lt; lia). nra. }
      pose proof (is_rne_ge_int _ 0 _ H Hr). lia. }
  destruct (0 <=? e)%Z eqn:He.
  - apply HZ; [lia|]. apply Z.leb_le in He.
    rewrite !mult_IZR, IZR_pow2_bpow by exact He. field.
  - apply HZ; [apply Z.pow_pos_nonneg; lia|]. apply Z.leb_gt in He.
    rewrite !mult_IZR, IZR_pow2_bpow by lia. rewrite bpow_opp.
    pose proof (bpow_pos e). field. lra.
Qed.

Lemma py_round_mono nd x y :
  nonneg_sf (Prim2SF x) -> nonneg_sf (Prim2SF y) -> ext_le (Prim2SF x) (Prim2SF y) ->
  nonneg_sf (Prim2SF (py_round nd x)) /\ nonneg_sf (Prim2SF (py_round nd y)) /\
  ext_le (Prim2SF (py_round nd x)) (Prim2SF (py_round nd y)).
Proof.
  intros Hx Hy Hxy.
  set (p := (10 ^ Z.of_nat nd)%Z).
  assert (Hp : (0 < p)%Z) by (apply Z.pow_pos_nonneg; lia).
  assert (Hp' : 0 < IZR p) by (apply IZR_lt; exact Hp).
  assert (G : forall z m e, Prim2SF z = S754_finite false m e -> canon m e ->
    exists k, (0 <= k)%Z /\ is_rne (IZR (Zpos m) * bpow e * IZR p) k /\
      nonneg_sf (Prim2SF (py_round nd z)) /\ Prim2SF (py_round nd z) = round_res p k).
  { intros z m e Hz Hc. destruct (py_round_finite nd z m e Hz) as [k [Hk Ek]].
    exists k. fold p in Hk, Ek.
    assert (0 <= k)%Z.
    { apply (is_rne_ge_int (IZR (Zpos m) * bpow e * IZR p)); [|exact Hk].
      pose proof (canon_val_pos m e). nra. }
    rewrite Ek. repeat split; try assumption. apply round_res_nonneg, Hp. }
  assert (Fx : forall z, Prim2SF z = S754_zero false \/ Prim2SF z = S754_infinity false ->
    Prim2SF (py_round nd z) = Prim2SF z).
  { intros z [Hz|Hz]; unfold py_round; rewrite Hz; exact Hz. }
  destruct (Prim2SF x) as [[|]|[|]| |[|] mx ex] eqn:EX; simpl in Hx; try contradiction;
  destruct (Prim2SF y) as [[|]|[|]| |[|] my ey] eqn:EY; simpl in Hy; try contradiction;
  simpl in Hxy; try contradiction.
  all: try rewrite (Fx x (or_introl EX)); try rewrite (Fx x (or_intror EX)).
  all: try rewrite (Fx y (or_introl EY)); try rewrite (Fx y (or_intror EY)).
  all: try (rewrite EX); try (rewrite EY).
  all: try (destruct (G x mx ex EX Hx) as [kx [Kx [Rx [Nx ->]]]]).
  all: try (destruct (G y my ey EY Hy) as [ky [Ky [Ry [Ny ->]]]]).
  all: simpl; repeat split; try exact I; try lra; try assumption;
    try (apply round_res_nonneg; exact Hp).
  all: try (apply ext_le_zero, round_res_nonneg; exact Hp).
  all: try (pose proof (canon_val_pos mx ex); lra).
  all: try (destruct (round_res p kx) as [[|]|[|]| |[|] ? ?]; exact I).
  apply round_res_mono; [exact Hp|split; [exact Kx|]].
    refine (is_rne_mono _ _ _ _ _ Rx Ry). nra.
Qed.

Lemma SFmul_mono_fix a m1 e1 m2 e2 : nonneg_sf a -> canon m1 e1 -> canon m2 e2 ->
  SFleb (S754_finite false m1 e1) (S754_finite false m2 e2) = true ->
  SFleb (SFmul prec emax a (S754_finite false m1 e1))
        (SFmul prec emax a (S754_finite false m2 e2)) = true.
Proof.
  intros Ha C1 C2 H. destruct a as [[|]|[|]| |[|] ma ea]; simpl in Ha; try contradiction;
    try reflexivity.
  rewrite !(SFmul_comm (S754_finite false ma ea)). apply SFmul_mono_l; assumption.
Qed.

Lemma range_1_5 x : (1 <=? x)%float = true -> (x <=? 5)%float = true ->
  exists m e, Prim2SF x = S754_finite false m e /\ canon m e.
Proof.
  rewrite !leb_spec. intros H1 H2. pose proof (Prim2SF_valid x) as Hv.
  sf_const 1%float. sf_const 5%float.
  destruct (Prim2SF x) as [[|]|[|]| |[|] m e]; try discriminate.
  exists m, e. split; [reflexivity|]. exact (proj1 (valid_canon _ _ _ Hv)).
Qed.

Lemma range_0_100 x : (0 <=? x)%float = true -> (x <=? 100)%float = true ->
  Prim2SF x = S754_zero false \/ Prim2SF x = S754_zero true \/
  exists m e, Prim2SF x = S754_finite false m e /\ canon m e /\
    SFleb (S754_finite false m e) (Prim2SF 100) = true.
Proof.
  rewrite !leb_spec. intros H1 H2. pose proof (Prim2SF_valid x) as Hv.
  destruct (Prim2SF x) as [[|]|[|]| |[|] m e]; sf_const 0%float; try discriminate; auto.
  right; right. exists m, e. split; [reflexivity|split; [exact (proj1 (valid_canon _ _ _ Hv))|exact H2]].
Qed.

(** The factor [1 - control_effectiveness * 0.4] is nonnegative. *)
Lemma adjust_factor_nonneg ce : (0 <=? ce)%float = true -> (ce <=? 100)%float = true ->
  nonneg_sf (Prim2SF (1 - ce / 100 * 0.4)%float).
Proof.
  intros H1 H2. rewrite sub_spec, mul_spec, div_spec.
  destruct (range_0_100 ce H1 H2) as [E|[E|[m [e [E [Hc Hle]]]]]]; rewrite E.
  - const_canon.
  - const_canon.
  - unfold SF64sub, SF64mul, SF64div.
    assert (N100 : nonneg_sf (Prim2SF 100)) by const_canon.
    assert (Le : ext_le (S754_finite false m e) (Prim2SF 100)) by (apply SFleb_nonneg; assumption).
    assert (E11 : SFdiv prec emax (Prim2SF 100) (Prim2SF 100) = Prim2SF 1) by (vm_compute; reflexivity).
    assert (E14 : SFmul prec emax (Prim2SF 1) (Prim2SF 0.4) = Prim2SF 0.4) by (vm_compute; reflexivity).
    assert (L41 : SFleb (Prim2SF 0.4) (Prim2SF 1) = true) by (vm_compute; reflexivity).
    sf_const 100%float. sf_const 1%float. sf_const 0.4%float.
    destruct (SFdiv_spec m e 7036874417766400 (-46)) as [kd [zd [Hzd Ed]]].
    destruct (SFdiv_spec 7036874417766400 (-46) 7036874417766400 (-46)) as [k1 [z1 [Hz1 E1]]].
    rewrite E11 in E1. rewrite Ed.
    pose proof (proj1 (round_tail_nonneg _ _ _ Hzd)) as ND.
    set (D := round_tail zd (fexp prec emax kd)) in *.
    assert (LD : ext_le D (S754_finite false 4503599627370496 (-52))).
    { rewrite E1. refine (round_tail_ext_le _ _ _ _ _ _ _ Hzd Hz1).
      simpl in Le. unfold Rdiv. apply Rmult_le_compat_r; [|exact Le].
      apply Rlt_le, Rinv_0_lt_compat, canon_val_pos. }
    assert (C4 : canon 7205759403792794 (-54)) by const_canon.
    assert (C1 : canon 4503599627370496 (-52)) by const_canon.
    assert (LC : SFleb (SFmul prec emax D (S754_finite false 7205759403792794 (-54)))
                       (SFmul prec emax (S754_finite false 4503599627370496 (-52))
                                        (S754_finite false 7205759403792794 (-54))) = true).
    { apply SFmul_mono_l; [exact ND|exact C1|exact C4|].
      apply SFleb_nonneg; [exact ND|exact C1|exact LD]. }
    rewrite E14 in LC.
    pose proof (SFmul_nonneg_finite _ _ _ ND C4) as NC.
    apply SFsub_nonneg; [exact C1|exact NC|].
    apply (ext_le_trans _ (S754_finite false 7205759403792794 (-54))); [exact C4| |].
    + apply SFleb_nonneg; [exact NC|exact C4|exact LC].
    + apply SFleb_nonneg; [exact C4|exact C1|exact L41].
Qed.

Lemma mult_canon m : mult_ok m -> exists mm em, Prim2SF m = S754_finite false mm em /\ canon mm em.
Proof.
  intros [ -> | [ -> | [ -> | -> ]]];
    [sf_const 0.8%float|sf_const 1.0%float|sf_const 1.3%float|sf_const 1.5%float];
    (eexists _, _; split; [reflexivity|const_canon]).
Qed.

Lemma score_mono l i1 i2 ce m1 m2 :
  (1 <=? l)%float = true -> (l <=? 5)%float = true ->
  (0 <=? ce)%float = true -> (ce <=? 100)%float = true ->
  (1 <=? i1)%float = true -> (i1 <=? 5)%float = true ->
  (1 <=? i2)%float = true -> (i2 <=? 5)%float = true -> (i1 <=? i2)%float = true ->
  mult_ok m1 -> mult_ok m2 -> (m1 <=? m2)%float = true ->
  (py_round 2 (l * (1 - ce / 100 * 0.4) * i1 * m1)
    <=? py_round 2 (l * (1 - ce / 100 * 0.4) * i2 * m2))%float = true.
Proof.
  intros L1 L2 C1 C2 I11 I12 I21 I22 I12' M1 M2 M12.
  pose proof (adjust_factor_nonneg ce C1 C2) as NB.
  destruct (range_1_5 l L1 L2) as [ml [el [El Cl]]].
  destruct (range_1_5 i1 I11 I12) as [mi1 [ei1 [Ei1 Ci1]]].
  destruct (range_1_5 i2 I21 I22) as [mi2 [ei2 [Ei2 Ci2]]].
  destruct (mult_canon m1 M1) as [mm1 [em1 [Em1 Cm1]]].
  destruct (mult_canon m2 M2) as [mm2 [em2 [Em2 Cm2]]].
  rewrite leb_spec in I12', M12 |- *. rewrite Ei1, Ei2 in I12'. rewrite Em1, Em2 in M12.
  assert (NA : nonneg_sf (Prim2SF (l * (1 - ce / 100 * 0.4))%float)).
  { rewrite mul_spec, El. unfold SF64mul. rewrite SFmul_comm.
    apply SFmul_nonneg_finite; assumption. }
  set (A := (l * (1 - ce / 100 * 0.4))%float) in *.
  assert (NX1 : nonneg_sf (Prim2SF (A * i1)%float))
    by (rewrite mul_spec, Ei1; apply SFmul_nonneg_finite; assumption).
  assert (NX2 : nonneg_sf (Prim2SF (A * i2)%float))
    by (rewrite mul_spec, Ei2; apply SFmul_nonneg_finite; assumption).
  assert (LX : SFleb (Prim2SF (A * i1)%float) (Prim2SF (A * i2)%float) = true)
    by (rewrite !mul_spec, Ei1, Ei2; apply SFmul_mono_fix; assumption).
  set (X1 := (A * i1)%float) in *. set (X2 := (A * i2)%float) in *.
  assert (N1 : nonneg_sf (Prim2SF (X1 * m1)%float))
    by (rewrite mul_spec, Em1; apply SFmul_nonneg_finite; assumption).
  assert (N2' : nonneg_sf (Prim2SF (X2 * m1)%float))
    by (rewrite mul_spec, Em1; apply SFmul_nonneg_finite; assumption).
  assert (N2 : nonneg_sf (Prim2SF (X2 * m2)%float))
    by (rewrite mul_spec, Em2; apply SFmul_nonneg_finite; assumption).
  assert (LF1 : ext_le (Prim2SF (X1 * m1)%float) (Prim2SF (X2 * m1)%float)).
  { apply SFleb_nonneg; [exact N1|exact N2'|].
    rewrite !mul_spec, Em1. apply SFmul_mono_l; assumption. }
  assert (LF2 : ext_le (Prim2SF (X2 * m1)%float) (Prim2SF (X2 * m2)%float)).
  { apply SFleb_nonneg; [exact N2'|exact N2|].
    rewrite !mul_spec, Em1, Em2. apply SFmul_mono_fix; assumption. }
  pose proof (ext_le_trans _ _ _ N2' LF1 LF2) as LF.
  destruct (py_round_mono 2 _ _ N1 N2 LF) as [R1 [R2 R12]].
  apply SFleb_nonneg; assumption.
Qed.

End FloatFacts.

(** ** Risk scoring *)

Section RiskFacts.
Import RiskPrediction.

Lemma threat_multiplier_default (t : string) :
  get (threat_multipliers t) 1.0 = spec_threat_multiplier t.
Proof.
  unfold threat_multipliers, spec_threat_multiplier.
  destruct (String.eqb_spec t "low"); [reflexivity|].
  destruct (String.eqb_spec t "medium") as [->|]; [reflexivity|].
  destruct (String.eqb_spec t "high"); [reflexivity|].
  destruct (String.eqb_spec t "critical"); reflexivity.
Qed.

(** C1: with every key given, [calculate_risk_score] classifies the score
    [likelihood * (1 - controlEffectiveness/100 * 0.4) * impact * m], [m]
    the multiplier of the threat level ([low 0.8], [medium 1.0],
    [high 1.3], [critical 1.5], any other level [1.0]), by the inclusive
    thresholds 15 / 10 / 5 tried highest first, and reports that score
    rounded to two decimals.  At the boundaries 15.0 is Critical and
    14.999 High (likewise 10 / 9.999 and 5 / 4.999), and the input
    likelihood 5, impact 3, effectiveness 0, medium computes exactly 15.0
    and is Critical. *)
Theorem calculate_risk_score_formula_and_tiers :
  (forall l i ce t,
     let r := calculate_risk_score (mk_risk_data (Some l) (Some i) (Some ce) (Some t)) in
     (classification r, priority r) = spec_classify (spec_score l i ce t) /\
     risk_score r = py_round 2 (spec_score l i ce t)) /\
  threat_multipliers "low" = Some 0.8 /\ threat_multipliers "medium" = Some 1.0 /\
  threat_multipliers "high" = Some 1.3 /\ threat_multipliers "critical" = Some 1.5 /\
  (forall t, get (threat_multipliers t) 1.0 = spec_threat_multiplier t) /\
  classify 15 = ("Critical"%string, 1%Z) /\ classify 14.999 = ("High"%string, 2%Z) /\
  classify 10 = ("High"%string, 2%Z) /\ classify 9.999 = ("Medium"%string, 3%Z) /\
  classify 5 = ("Medium"%string, 3%Z) /\ classify 4.999 = ("Low"%string, 4%Z) /\
  (let rd := mk_risk_data (Some 5) (Some 3) (Some 0) (Some "medium"%string) in
   final_score rd = 15 /\ classification (calculate_risk_score rd) = "Critical"%string /\
   priority (calculate_risk_score rd) = 1%Z).
Proof.
  split.
  { intros l i ce t. unfold calculate_risk_score, spec_score. cbn [get rd_likelihood rd_impact
      rd_control_effectiveness rd_threat_level].
    rewrite threat_multiplier_default.
    change (spec_classify) with (classify).
    destruct (classify _) as [c p] eqn:Ec. simpl. split; reflexivity. }
  repeat split; try reflexivity.
  apply threat_multiplier_default.
Qed.

(** C10: for likelihood 5, impact 3, control effectiveness 0.05 and threat
    level medium the unrounded score is below 15, so the record is
    classified High (priority 2), while its reported [risk_score], rounded
    to two decimals, equals the Critical threshold 15.0. *)
Theorem rounded_score_at_threshold_with_lower_tier :
  let rd := mk_risk_data (Some 5) (Some 3) (Some 0.05) (Some "medium"%string) in
  (final_score rd <? 15) = true /\
  risk_score (calculate_risk_score rd) = 15 /\
  classification (calculate_risk_score rd) = "High"%string /\
  priority (calculate_risk_score rd) = 2%Z.
Proof. vm_compute. repeat split; reflexivity. Qed.

Lemma threat_multiplier_ok (t : string) : mult_ok (get (threat_multipliers t) 1.0).
Proof.
  unfold mult_ok, threat_multipliers.
  destruct (String.eqb t "low"); [auto|].
  destruct (String.eqb t "medium"); [auto|].
  destruct (String.eqb t "high"); [auto|].
  destruct (String.eqb t "critical"); auto.
Qed.

Lemma threat_le_multiplier (t1 t2 : string) : threat_le t1 t2 = true ->
  (get (threat_multipliers t1) 1.0 <=? get (threat_multipliers t2) 1.0) = true.
Proof.
  unfold threat_le. destruct (String.eqb_spec t1 t2) as [->|_].
  - intros _. destruct (threat_multiplier_ok t2) as [ -> | [ -> | [ -> | -> ]]]; reflexivity.
  - simpl. unfold threat_rank, threat_multipliers.
    repeat match goal with |- context [String.eqb ?a ?b] => destruct (String.eqb a b) end;
      simpl; intros H; try discriminate; reflexivity.
Qed.

Lemma risk_score_of_inputs l i ce t :
  risk_score (calculate_risk_score (mk_risk_data (Some l) (Some i) (Some ce) (Some t)))
  = py_round 2 (l * (1 - ce / 100 * 0.4) * i * get (threat_multipliers t) 1.0).
Proof.
  unfold calculate_risk_score. cbn [get rd_likelihood rd_impact rd_control_effectiveness
    rd_threat_level].
  destruct (classify _). reflexivity.
Qed.

(** C6: with likelihood in [1, 5] and control effectiveness in [0, 100]
    held fixed, the [risk_score] returned by [calculate_risk_score] does not
    decrease when the impact grows within [1, 5], nor when the threat level
    moves up the order low < medium < high < critical (an unranked level
    compared with itself).  The bounds are Python float comparisons; the
    score is the binary64 computation rounded by [round(_, 2)]. *)
Theorem calculate_risk_score_monotone (l i1 i2 ce : float) (t1 t2 : string) :
  (1 <=? l) = true -> (l <=? 5) = true ->
  (0 <=? ce) = true -> (ce <=? 100) = true ->
  (1 <=? i1) = true -> (i1 <=? 5) = true ->
  (1 <=? i2) = true -> (i2 <=? 5) = true ->
  (i1 <=? i2) = true -> threat_le t1 t2 = true ->
  (risk_score (calculate_risk_score (mk_risk_data (Some l) (Some i1) (Some ce) (Some t1)))
   <=? risk_score (calculate_risk_score (mk_risk_data (Some l) (Some i2) (Some ce) (Some t2))))
  = true.
Proof.
  intros L1 L2 C1 C2 I11 I12 I21 I22 I12' T.
  rewrite !risk_score_of_inputs.
  apply score_mono; try assumption.
  - apply threat_multiplier_ok.
  - apply threat_multiplier_ok.
  - apply threat_le_multiplier, T.
Qed.

Lemma calculate_risk_score_monotone_witness :
  ((1 <=? 5) = true /\ (5 <=? 5) = true /\ (0 <=? 50) = true /\ (50 <=? 100) = true /\
   (1 <=? 3) = true /\ (3 <=? 5) = true /\ (1 <=? 4) = true /\ (4 <=? 5) = true /\
   (3 <=? 4) = true /\ threat_le "low" "critical" = true) /\
  (risk_score (calculate_risk_score (mk_risk_data (Some 5) (Some 3) (Some 50) (Some "low"%string)))
   <=? risk_score (calculate_risk_score (mk_risk_data (Some 5) (Some 4) (Some 50) (Some "critical"%string))))
  = true.
Proof.
  split; [repeat split; reflexivity|].
  apply (calculate_risk_score_monotone 5 3 4 50 "low" "critical");
    reflexivity.
Defined.

End RiskFacts.

(** ** Emerging risks *)

Section EmergingFacts.
Import RiskPrediction.
Local Open Scope string_scope.

Lemma add_prediction_metadata_fields (now : string) (c : catalog_risk) (r : emerging_risk) :
  add_prediction_metadata now c = Ok r ->
  py_int (er_probability r * 5) = Ok (predicted_likelihood r) /\
  predicted_impact r = 4%Z /\ time_horizon r = "6-12 months" /\ predicted_on r = now.
Proof.
  unfold add_prediction_metadata. destruct (py_int (cr_probability c * 5)) eqn:E;
    simpl; intros H; [|discriminate].
  injection H as <-. simpl. auto.
Qed.

Lemma emerging_risks_db_ok (now x : string) (c : catalog_risk) :
  In c (emerging_risks_db x) -> is_ok (add_prediction_metadata now c) = true.
Proof.
  unfold emerging_risks_db.
  destruct (String.eqb x "technology"); [simpl; intros [<-|[<-|[]]]; reflexivity|].
  destruct (String.eqb x "finance"); [simpl; intros [<-|[<-|[]]]; reflexivity|].
  destruct (String.eqb x "healthcare"); [simpl; intros [<-|[<-|[]]]; reflexivity|].
  simpl; intros [].
Qed.

(** C2, as stated, fails: for the technology catalog the first record has
    probability 0.75, [round(0.75 * 5)] is 4, but the record carries
    [predicted_likelihood] 3. *)
Theorem predicted_likelihood_is_not_rounded :
  ~ (forall now industry current_risks rs,
       predict_emerging_risks now industry current_risks = Ok rs ->
       Forall (fun r => py_round_int (er_probability r * 5) = Ok (predicted_likelihood r)
                        /\ predicted_impact r = 4%Z) rs).
Proof.
  intros H.
  specialize (H "now" "technology" []).
  remember (predict_emerging_risks "now" "technology" []) as p eqn:Ep.
  vm_compute in Ep. subst p.
  specialize (H _ eq_refl). inversion H as [|r rs [Hr _] _ Hr'].
  vm_compute in Hr. discriminate.
Qed.

(** C2, amended: every record returned by [predict_emerging_risks] carries
    [predicted_likelihood = int(probability * 5)] (truncation toward
    zero), [predicted_impact = 4], the horizon ['6-12 months'] and the
    generation timestamp. *)
Theorem predicted_likelihood_truncates (now industry : string) (current_risks : list pyval)
  (rs : list emerging_risk) :
  predict_emerging_risks now industry current_risks = Ok rs ->
  Forall (fun r => py_int (er_probability r * 5) = Ok (predicted_likelihood r) /\
                   predicted_impact r = 4%Z /\ time_horizon r = "6-12 months" /\
                   predicted_on r = now) rs.
Proof.
  unfold predict_emerging_risks.
  destruct (map_r risk_name_lower current_risks); simpl; [|discriminate].
  intros H. apply map_r_forall2 in H.
  eapply forall2_forall_r; [exact H|]. intros c r. apply add_prediction_metadata_fields.
Qed.

Lemma predicted_likelihood_truncates_witness :
  let rs := match predict_emerging_risks "2026-01-01T00:00:00" "technology" [] with
            | Ok rs => rs | Err _ => [] end in
  predict_emerging_risks "2026-01-01T00:00:00" "technology" [] = Ok rs /\
  Forall (fun r => py_int (er_probability r * 5) = Ok (predicted_likelihood r) /\
                   predicted_impact r = 4%Z /\ time_horizon r = "6-12 months" /\
                   predicted_on r = "2026-01-01T00:00:00") rs.
Proof.
  cbv zeta. split.
  - vm_compute. reflexivity.
  - apply (predicted_likelihood_truncates "2026-01-01T00:00:00" "technology" []).
    vm_compute. reflexivity.
Defined.

Lemma predict_emerging_risks_is_ok (now industry : string) (current_risks : list pyval) :
  is_ok (predict_emerging_risks now industry current_risks) = forallb has_string_name current_risks.
Proof.
  unfold predict_emerging_risks.
  assert (Hn : forall c, is_ok (risk_name_lower c) = has_string_name c).
  { intros [| | | | | | d]; try reflexivity. unfold risk_name_lower, py_getitem; simpl.
    destruct (dict_get d "name") as [[]|]; reflexivity. }
  rewrite <- (forallb_ext_fun _ _ _ Hn).
  rewrite <- map_r_is_ok.
  destruct (map_r risk_name_lower current_risks) as [names|e]; simpl; [|reflexivity].
  rewrite map_r_is_ok. apply forallb_forall. intros c Hc.
  apply filter_In in Hc as [Hc _]. eapply emerging_risks_db_ok; exact Hc.
Qed.

End EmergingFacts.

(** ** Document analysis *)

Section DocumentFacts.
Import DocumentAnalyzer.

Lemma span_app (p : ascii -> bool) (l : list ascii) :
  app (fst (span p l)) (snd (span p l)) = l.
Proof.
  induction l as [|c l IH]; simpl; [reflexivity|].
  destruct (p c); [|reflexivity].
  destruct (span p l) as [a b]; simpl in *. rewrite IH. reflexivity.
Qed.

Lemma span_length (p : ascii -> bool) (l a b : list ascii) :
  span p l = (a, b) -> List.length l = (List.length a + List.length b)%nat.
Proof.
  intros H. pose proof (span_app p l) as E. rewrite H in E. simpl in E.
  rewrite <- E, length_app. reflexivity.
Qed.

Lemma match_literal_ci_length (lit s r : list ascii) :
  match_literal_ci lit s = Some r -> (List.length r <= List.length s)%nat.
Proof.
  revert s; induction lit as [|k lit IH]; intros [|c s] H; simpl in H;
    try discriminate.
  - injection H as <-. reflexivity.
  - injection H as <-. reflexivity.
  - destruct (Ascii.eqb (lower_ascii c) k); [|discriminate].
    apply IH in H. simpl. lia.
Qed.

(** Every match consumes at least one character. *)
Lemma match_requirement_at_shrinks (lit s g rest : list ascii) :
  match_requirement_at lit s = Some (g, rest) -> (List.length rest < List.length s)%nat.
Proof.
  unfold match_requirement_at.
  destruct (match_literal_ci lit s) as [r|] eqn:Er; [|discriminate].
  apply match_literal_ci_length in Er.
  destruct (span is_space r) as [ws r1] eqn:Ews.
  apply span_length in Ews.
  destruct ws as [|w ws]; [discriminate|].
  destruct (span not_dot r1) as [g' r2] eqn:Eg.
  apply span_length in Eg.
  destruct g' as [|c g'].
  - destruct (rev (w :: ws)) as [|x [|y t]]; try discriminate.
    intros H; injection H as <- <-. simpl in Ews. lia.
  - intros H; injection H as <- <-. simpl in Ews, Eg. lia.
Qed.

Lemma finditer_from_sorted (fuel : nat) (lit : list ascii) (pos : nat) (s : list ascii) :
  Forall (fun m => (pos <= fst m)%nat) (finditer_from fuel lit pos s) /\
  Sorted lt (map fst (finditer_from fuel lit pos s)).
Proof.
  revert pos s; induction fuel as [|fuel IH]; intros pos s; simpl; [split; constructor|].
  destruct s as [|c s']; [split; constructor|].
  destruct (match_requirement_at lit (c :: s')) as [[g rest]|] eqn:Em.
  - apply match_requirement_at_shrinks in Em.
    destruct (IH (pos + (List.length (c :: s') - List.length rest))%nat rest) as [Hb Hs].
    remember (finditer_from fuel lit _ rest) as L eqn:EL. clear EL.
    split.
    + constructor; [simpl; lia|].
      eapply Forall_impl; [|exact Hb]. intros m Hm. simpl in Hm. lia.
    + simpl. constructor; [exact Hs|].
      destruct L as [|m ms]; simpl; constructor.
      inversion Hb; subst. change (List.length (c :: s')) with (S (List.length s')) in *. lia.
  - destruct (IH (S pos) s') as [Hb Hs]. split; [|exact Hs].
    eapply Forall_impl; [|exact Hb]. intros m Hm. cbv beta in *. lia.
Qed.

Create HintDb subseq_db.
#[local] Hint Constructors subseq : subseq_db.

Lemma subseq_refl {A} (l : list A) : subseq l l.
Proof. induction l; eauto with subseq_db. Qed.

Lemma subseq_trans {A} (l1 l2 l3 : list A) : subseq l1 l2 -> subseq l2 l3 -> subseq l1 l3.
Proof.
  intros H12 H23. revert l1 H12. induction H23; intros l0 H.
  - exact H.
  - eauto with subseq_db.
  - inversion H; subst; eauto with subseq_db.
Qed.

Lemma subseq_firstn {A} (n : nat) (l : list A) : subseq (firstn n l) l.
Proof.
  assert (Hnil : forall l' : list A, subseq [] l') by (induction l'; eauto with subseq_db).
  revert n; induction l as [|x l IH]; intros [|n]; simpl; eauto with subseq_db.
Qed.

Lemma dedup_from_subseq (seen : list string) (l : list extracted_requirement) :
  subseq (dedup_from seen l) l.
Proof.
  revert seen; induction l as [|x l IH]; intros seen; simpl; [constructor|].
  destruct (existsb (String.eqb (req_text x)) seen); eauto with subseq_db.
Qed.

Lemma existsb_eqb_in (s : string) (seen : list string) :
  existsb (String.eqb s) seen = true <-> In s seen.
Proof.
  rewrite existsb_exists. split.
  - intros [y [Hy E]]. apply String.eqb_eq in E. subst. exact Hy.
  - intros H. exists s. split; [exact H | apply String.eqb_refl].
Qed.

Lemma dedup_from_nodup (seen : list string) (l : list extracted_requirement) :
  NoDup (map req_text (dedup_from seen l)) /\
  Forall (fun r => ~ In (req_text r) seen) (dedup_from seen l).
Proof.
  revert seen; induction l as [|x l IH]; intros seen; simpl; [split; constructor|].
  destruct (existsb (String.eqb (req_text x)) seen) eqn:E; [apply IH|].
  destruct (IH (req_text x :: seen)) as [Hn Hf]. split.
  - simpl. constructor; [|exact Hn].
    intros Hin. apply in_map_iff in Hin as [y [Ey Hy]].
    rewrite Forall_forall in Hf. apply (Hf y Hy). left. symmetry. exact Ey.
  - constructor.
    + intros Hin. apply existsb_eqb_in in Hin. congruence.
    + eapply Forall_impl; [|exact Hf]. intros r Hr Hin. apply Hr. right. exact Hin.
Qed.

Lemma dedup_from_first (seen : list string) (l : list extracted_requirement) r :
  In r (dedup_from seen l) ->
  exists pre post, l = pre ++ r :: post /\ ~ In (req_text r) (map req_text pre) /\
                   ~ In (req_text r) seen.
Proof.
  revert seen; induction l as [|x l IH]; intros seen Hr; simpl in Hr; [contradiction|].
  destruct (existsb (String.eqb (req_text x)) seen) eqn:E.
  - destruct (IH seen Hr) as [pre [post [-> [Hp Hs]]]].
    exists (x :: pre), post. split; [reflexivity|]. split; [|exact Hs].
    simpl. intros [Ex|Hin]; [|contradiction].
    apply Hs. rewrite <- Ex. apply existsb_eqb_in. exact E.
  - destruct Hr as [<-|Hr].
    + exists [], l. split; [reflexivity|]. split; [simpl; auto|].
      intros Hin. apply existsb_eqb_in in Hin. congruence.
    + destruct (IH (req_text x :: seen) Hr) as [pre [post [-> [Hp Hs]]]].
      exists (x :: pre), post. split; [reflexivity|]. split.
      * simpl. intros [Ex|Hin]; [apply Hs; left; exact Ex | contradiction].
      * intros Hin. apply Hs. right. exact Hin.
Qed.

Lemma subseq_in {A} (l1 l2 : list A) x : subseq l1 l2 -> In x l1 -> In x l2.
Proof. induction 1; simpl; intuition. Qed.

Lemma subseq_map {A B} (f : A -> B) (l1 l2 : list A) :
  subseq l1 l2 -> subseq (map f l1) (map f l2).
Proof. induction 1; simpl; eauto with subseq_db. Qed.

Lemma subseq_nodup {A} (l1 l2 : list A) : subseq l1 l2 -> NoDup l2 -> NoDup l1.
Proof.
  intros Hs. induction Hs as [|x l1 l2 Hs IH|x l1 l2 Hs IH]; intros Hn;
    [constructor | inversion Hn; auto |].
  inversion Hn as [|y l Hx Hl]; subst. constructor; [|auto].
  intros Hin. apply Hx. eapply subseq_in; eassumption.
Qed.

(** C5, as stated, fails: the result is not in document order.  In
    ["We shall keep all records. You must encrypt the data."] the [must]
    requirement (position 31) is listed before the [shall] requirement
    (position 3), because the patterns are scanned one after the other. *)
Theorem extract_requirements_not_in_position_order :
  ~ (forall text, Sorted le (map req_position (extract_requirements text))).
Proof.
  intros H. specialize (H "We shall keep all records. You must encrypt the data."%string).
  vm_compute in H. inversion H as [|a l Hs Hd]. inversion Hd. lia.
Qed.

(** C5, amended: [extract_requirements] returns at most 10 entries with
    pairwise distinct texts; they are taken in order from the
    pattern-major scan [all_requirements] (every [must] match by position,
    then [shall], [required to], [mandatory]), each being the first entry
    of that scan with its text. *)
Theorem extract_requirements_capped_unique_pattern_order (text : string) :
  (List.length (extract_requirements text) <= 10)%nat /\
  NoDup (map req_text (extract_requirements text)) /\
  subseq (extract_requirements text) (all_requirements text) /\
  (forall r, In r (extract_requirements text) ->
     exists pre post, all_requirements text = app pre (r :: post) /\
                      ~ In (req_text r) (map req_text pre)) /\
  (forall lit, Sorted lt (map fst (finditer lit text))).
Proof.
  unfold extract_requirements.
  pose proof (subseq_firstn 10 (dedup_from [] (all_requirements text))) as Hf.
  split; [apply firstn_le_length|].
  split.
  { eapply subseq_nodup; [apply subseq_map; exact Hf|]. apply dedup_from_nodup. }
  split; [eapply subseq_trans; [exact Hf | apply dedup_from_subseq]|].
  split.
  - intros r Hr. eapply subseq_in in Hr; [|exact Hf].
    destruct (dedup_from_first [] _ r Hr) as [pre [post [E [Hp _]]]].
    exists pre, post. split; assumption.
  - intros lit. unfold finditer. apply finditer_from_sorted.
Qed.

(** C9, as stated, fails: a captured span of exactly 10 characters after
    trimming is discarded, since the source keeps a span only when
    [len(req_text) > 10]. *)
Theorem ten_character_span_is_discarded :
  finditer "must" "must abcdefghij." = [(0%nat, ascii_list "abcdefghij")] /\
  List.length (py_strip (ascii_list "abcdefghij")) = 10%nat /\
  extract_requirements "must abcdefghij." = [].
Proof. vm_compute. repeat split; reflexivity. Qed.

(** C9, amended: a span captured by one of the four patterns enters the
    requirement list exactly when its trimmed length exceeds 10
    characters; spans of 10 characters or fewer are discarded. *)
Theorem requirement_span_kept_iff_longer_than_ten (text lit : string) (pos : nat)
  (g : list ascii) :
  In lit requirement_patterns -> In (pos, g) (finditer lit text) ->
  (In (mk_extracted_requirement (string_of_list_ascii (py_strip g)) "mandatory" pos)
      (all_requirements text) <->
   (10 < List.length (py_strip g))%nat).
Proof.
  intros Hlit Hm. unfold all_requirements. rewrite in_flat_map. split.
  - intros [lit' [_ Hin]]. rewrite in_flat_map in Hin.
    destruct Hin as [[pos' g'] [_ Hk]]. unfold keep_match in Hk. simpl in Hk.
    destruct (Nat.ltb 10 (List.length (py_strip g'))) eqn:E; [|contradiction].
    destruct Hk as [Hk|[]]. injection Hk as Hs _.
    apply (f_equal list_ascii_of_string) in Hs.
    rewrite !list_ascii_of_string_of_list_ascii in Hs. rewrite <- Hs.
    apply Nat.ltb_lt. exact E.
  - intros Hlen. exists lit. split; [exact Hlit|]. rewrite in_flat_map.
    exists (pos, g). split; [exact Hm|]. unfold keep_match. simpl.
    apply Nat.ltb_lt in Hlen. rewrite Hlen. left. reflexivity.
Qed.

Lemma requirement_span_kept_iff_longer_than_ten_witness :
  In "must"%string requirement_patterns /\
  In (0%nat, ascii_list "abcdefghijk") (finditer "must" "must abcdefghijk.") /\
  (In (mk_extracted_requirement (string_of_list_ascii (py_strip (ascii_list "abcdefghijk")))
         "mandatory" 0) (all_requirements "must abcdefghijk.") <->
   (10 < List.length (py_strip (ascii_list "abcdefghijk")))%nat).
Proof.
  split; [left; reflexivity|].
  split; [vm_compute; left; reflexivity|].
  apply (requirement_span_kept_iff_longer_than_ten "must abcdefghijk." "must" 0
           (ascii_list "abcdefghijk")); [left; reflexivity | vm_compute; left; reflexivity].
Defined.

End DocumentFacts.

Section CompletenessFacts.
Import DocumentAnalyzer.

Lemma required_elements_unknown (doc_type : string) :
  ~ In doc_type ["policy"; "procedure"; "contract"]%string -> required_elements doc_type = [].
Proof.
  intros H. unfold required_elements.
  destruct (String.eqb_spec doc_type "policy") as [->|_]; [exfalso; apply H; left; reflexivity|].
  destruct (String.eqb_spec doc_type "procedure") as [->|_];
    [exfalso; apply H; right; left; reflexivity|].
  destruct (String.eqb_spec doc_type "contract") as [->|_];
    [exfalso; apply H; right; right; left; reflexivity|].
  reflexivity.
Qed.

(** C8: for a document type outside [{policy, procedure, contract}] the
    checklist is empty, and [analyze_document] reports a completeness score
    of exactly 100 and no missing elements, whatever the text. *)
Theorem unknown_document_type_fully_complete (text doc_type : string) :
  ~ In doc_type ["policy"; "procedure"; "contract"]%string ->
  required_elements doc_type = [] /\
  completeness_score (analyze_document text doc_type) = 100%float /\
  missing_elements (analyze_document text doc_type) = [].
Proof.
  intros H. pose proof (required_elements_unknown doc_type H) as E.
  split; [exact E|].
  unfold analyze_document, check_completeness. cbn zeta. rewrite E. simpl.
  split; reflexivity.
Qed.

Lemma unknown_document_type_fully_complete_witness :
  ~ In "memo"%string ["policy"; "procedure"; "contract"]%string /\
  required_elements "memo" = [] /\
  completeness_score (analyze_document "Purpose and scope." "memo") = 100%float /\
  missing_elements (analyze_document "Purpose and scope." "memo") = [].
Proof.
  assert (H : ~ In "memo"%string ["policy"; "procedure"; "contract"]%string).
  { simpl. intros [E|[E|[E|[]]]]; discriminate. }
  split; [exact H|].
  exact (unknown_document_type_fully_complete "Purpose and scope." "memo" H).
Defined.

End CompletenessFacts.

(** ** Remediation prioritization *)

Section RemediationFacts.
Import RecommendationEngine.
Local Open Scope Z_scope.

Definition score_desc (a b : dict) : Prop := priority_score_of b <= priority_score_of a.

Lemma insert_by_score_perm (x : dict) (l : list dict) :
  Permutation (insert_by_score x l) (x :: l).
Proof.
  induction l as [|y l IH]; simpl; [reflexivity|].
  destruct (priority_score_of y <? priority_score_of x); [reflexivity|].
  rewrite IH. apply perm_swap.
Qed.

Lemma sort_by_score_desc_perm_acc (l acc : list dict) :
  Permutation (fold_left (fun acc x => insert_by_score x acc) l acc) (l ++ acc).
Proof.
  revert acc; induction l as [|x l IH]; intros acc; simpl; [reflexivity|].
  rewrite IH, insert_by_score_perm. symmetry. apply Permutation_middle.
Qed.

Lemma insert_by_score_hdrel (z x : dict) (l : list dict) :
  HdRel score_desc z l -> score_desc z x -> HdRel score_desc z (insert_by_score x l).
Proof.
  intros Hz Hzx. destruct l as [|y l]; simpl; [constructor; exact Hzx|].
  destruct (priority_score_of y <? priority_score_of x); constructor; [exact Hzx|].
  inversion Hz; assumption.
Qed.

Lemma insert_by_score_sorted (x : dict) (l : list dict) :
  Sorted score_desc l -> Sorted score_desc (insert_by_score x l).
Proof.
  induction l as [|y l IH]; intros Hs; simpl; [constructor; constructor|].
  destruct (priority_score_of y <? priority_score_of x) eqn:E.
  - apply Z.ltb_lt in E. constructor; [exact Hs|]. constructor. unfold score_desc. lia.
  - apply Z.ltb_ge in E. inversion Hs as [|a b Hl Hd]; subst.
    constructor; [apply IH; exact Hl|].
    apply insert_by_score_hdrel; [exact Hd|]. unfold score_desc. lia.
Qed.

Lemma sort_by_score_desc_sorted_acc (l acc : list dict) :
  Sorted score_desc acc ->
  Sorted score_desc (fold_left (fun acc x => insert_by_score x acc) l acc).
Proof.
  revert acc; induction l as [|x l IH]; intros acc Hs; simpl; [exact Hs|].
  apply IH, insert_by_score_sorted, Hs.
Qed.

Lemma score_gap_priority_score (g : dict) :
  priority_score_of (score_gap g) = gap_priority_score g.
Proof.
  unfold priority_score_of, score_gap.
  rewrite dict_get_set_other by discriminate.
  rewrite dict_get_set_same. reflexivity.
Qed.

(** C7: [prioritize_remediation] returns the given gaps, each with
    [priority_score] = severity (Critical 100, High 75, Medium 50, any
    other 25) + complexity (Low 30, Medium 15, High 0) + cost (Low 20,
    Medium 10, High 0) and the action of its band (>= 150 Immediate,
    >= 100 High Priority, >= 50 Medium Priority, else Low Priority),
    sorted by descending [priority_score]; a Critical gap of Low
    complexity and Low cost scores 150 and is Immediate. *)
Theorem prioritize_remediation_scores_and_order (gaps : list dict) :
  Permutation (prioritize_remediation gaps) (map score_gap gaps) /\
  Sorted (fun a b => priority_score_of b <= priority_score_of a) (prioritize_remediation gaps) /\
  (forall g,
     priority_score_of (score_gap g) =
       severity_points (dict_get g "priority")
       + complexity_points (dict_get_default g "complexity" (VStr "Medium"))
       + cost_points (dict_get_default g "cost" (VStr "Medium")) /\
     dict_get (score_gap g) "action" = Some (VStr (action_of (priority_score_of (score_gap g))))) /\
  severity_points (Some (VStr "Critical")) = 100 /\
  severity_points (Some (VStr "High")) = 75 /\
  severity_points (Some (VStr "Medium")) = 50 /\
  (forall p, ~ In p [Some (VStr "Critical"); Some (VStr "High"); Some (VStr "Medium")] ->
     severity_points p = 25) /\
  complexity_points (VStr "Low") = 30 /\ complexity_points (VStr "Medium") = 15 /\
  complexity_points (VStr "High") = 0 /\
  cost_points (VStr "Low") = 20 /\ cost_points (VStr "Medium") = 10 /\
  cost_points (VStr "High") = 0 /\
  (forall s, 150 <= s -> action_of s = "Immediate - Start within 1 week"%string) /\
  (forall s, 100 <= s < 150 -> action_of s = "High Priority - Start within 1 month"%string) /\
  (forall s, 50 <= s < 100 -> action_of s = "Medium Priority - Plan for next quarter"%string) /\
  (forall s, s < 50 -> action_of s = "Low Priority - Address as resources allow"%string) /\
  (let g := [("priority", VStr "Critical"); ("complexity", VStr "Low"); ("cost", VStr "Low")]%string in
   priority_score_of (score_gap g) = 150 /\
   dict_get (score_gap g) "action" = Some (VStr "Immediate - Start within 1 week")).
Proof.
  unfold prioritize_remediation, sort_by_score_desc.
  split; [rewrite sort_by_score_desc_perm_acc, app_nil_r; reflexivity|].
  split; [apply sort_by_score_desc_sorted_acc; constructor|].
  split.
  { intros g. rewrite score_gap_priority_score. split; [reflexivity|].
    unfold score_gap. rewrite dict_get_set_same. reflexivity. }
  do 3 (split; [reflexivity|]).
  split.
  { intros p Hp. unfold severity_points, opt_is_str, pyval_is_str.
    destruct p as [[| | | | s | |]|]; try reflexivity.
    destruct (String.eqb_spec s "Critical") as [->|_]; [exfalso; apply Hp; left; reflexivity|].
    destruct (String.eqb_spec s "High") as [->|_]; [exfalso; apply Hp; right; left; reflexivity|].
    destruct (String.eqb_spec s "Medium") as [->|_];
      [exfalso; apply Hp; right; right; left; reflexivity|].
    reflexivity. }
  do 6 (split; [reflexivity|]).
  unfold action_of.
  split; [intros s Hs; replace (150 <=? s) with true by (symmetry; apply Z.leb_le; lia);
          reflexivity|].
  split; [intros s Hs; replace (150 <=? s) with false by (symmetry; apply Z.leb_gt; lia);
          replace (100 <=? s) with true by (symmetry; apply Z.leb_le; lia); reflexivity|].
  split; [intros s Hs; replace (150 <=? s) with false by (symmetry; apply Z.leb_gt; lia);
          replace (100 <=? s) with false by (symmetry; apply Z.leb_gt; lia);
          replace (50 <=? s) with true by (symmetry; apply Z.leb_le; lia); reflexivity|].
  split; [intros s Hs; replace (150 <=? s) with false by (symmetry; apply Z.leb_gt; lia);
          replace (100 <=? s) with false by (symmetry; apply Z.leb_gt; lia);
          replace (50 <=? s) with false by (symmetry; apply Z.leb_gt; lia); reflexivity|].
  split; reflexivity.
Qed.

End RemediationFacts.

(** ** Risk trends *)

Section TrendFloatFacts.
Local Open Scope R_scope.

Lemma SFcompare_swap a b : SFcompare b a = option_map CompOpp (SFcompare a b).
Proof.
  destruct a as [sa|sa| |sa ma ea], b as [sb|sb| |sb mb eb];
    try destruct sa; try destruct sb; simpl; try reflexivity.
  all: rewrite (Z.compare_antisym eb ea); destruct (eb ?= ea)%Z; simpl; try reflexivity.
  all: change (PosDef.Pos.compare_cont Eq mb ma) with (Pos.compare mb ma);
       change (PosDef.Pos.compare_cont Eq ma mb) with (Pos.compare ma mb);
       rewrite (Pos.compare_antisym ma mb); destruct (mb ?= ma)%positive; reflexivity.
Qed.

Lemma SFleb_SFltb a b : SFleb a b = true -> SFltb b a = false.
Proof.
  unfold SFleb, SFltb. rewrite (SFcompare_swap a b).
  destruct (SFcompare a b) as [[| |]|]; simpl; congruence.
Qed.

Lemma SFltb_asym a b : SFltb a b = true -> SFltb b a = false.
Proof.
  unfold SFltb. rewrite (SFcompare_swap a b).
  destruct (SFcompare a b) as [[| |]|]; simpl; congruence.
Qed.

Lemma canon_rnd_ok m e : canon m e ->
  exists k, rnd_ok (IZR (Zpos m) * bpow e) k (Zpos m) /\ fexp prec emax k = e.
Proof.
  intros C. pose proof (canon_digits m e C) as [Hd [He Hor]].
  pose proof (digits2_pos_bounds m) as [D1 D2].
  set (d := Zpos (digits2_pos m)) in *.
  exists (d + e)%Z.
  assert (Ef : fexp prec emax (d + e) = e) by (rewrite fexp_eq; lia).
  split; [|exact Ef].
  pose proof (bpow_pos e) as Be.
  split; [|split].
  - apply Rmult_le_pos; [apply IZR_le; lia|lra].
  - split.
    + rewrite bpow_plus. apply Rmult_lt_compat_r; [exact Be|].
      rewrite <- IZR_pow2_bpow by lia. apply IZR_lt. exact D2.
    + left. replace (d + e - 1)%Z with ((d - 1) + e)%Z by lia. rewrite bpow_plus.
      apply Rmult_le_compat_r; [lra|].
      rewrite <- IZR_pow2_bpow by lia. apply IZR_le. exact D1.
  - rewrite Ef. replace (IZR (Zpos m) * bpow e / bpow e) with (IZR (Zpos m)) by (field; lra).
    apply is_rne_IZR.
Qed.

Lemma round_tail_canon m e : canon m e -> (e <= 971)%Z ->
  round_tail (Zpos m) e = S754_finite false m e.
Proof.
  intros [C1 [C2 C3]] He. rewrite round_tail_spec by lia.
  replace (Zpos m =? 0)%Z with false by lia.
  replace (Zpos m =? 2 ^ 53)%Z with false by lia.
  replace (e <=? 971)%Z with true by lia. reflexivity.
Qed.

(** Multiplying a non-negative float by a constant [c >= 1] (resp. [c <= 1])
    does not decrease (resp. increase) it. *)
Lemma SFmul_ge_self a mc ec : nonneg_sf a -> valid_binary a = true -> canon mc ec ->
  1 <= IZR (Zpos mc) * bpow ec ->
  SFleb a (SFmul prec emax a (S754_finite false mc ec)) = true.
Proof.
  intros Ha Va Cc Hc.
  destruct a as [[|]|[|]| |[|] m e]; simpl in Ha; try contradiction; try reflexivity.
  pose proof (valid_canon _ _ _ Va) as [_ He].
  apply SFleb_nonneg; [exact Ha|apply SFmul_nonneg_finite; [exact Ha|exact Cc]|].
  destruct (canon_rnd_ok m e Ha) as [k [Hk Ek]].
  destruct (SFmul_spec m e mc ec Ha Cc) as [k2 [z2 [Hz ->]]].
  rewrite <- (round_tail_canon m e Ha He).
  replace (round_tail (Zpos m) e) with (round_tail (Zpos m) (fexp prec emax k)) by (rewrite Ek; reflexivity).
  refine (round_tail_ext_le _ _ _ _ _ _ _ Hk Hz).
  pose proof (canon_val_pos m e). nra.
Qed.

Lemma SFmul_le_self a mc ec : nonneg_sf a -> valid_binary a = true -> canon mc ec ->
  IZR (Zpos mc) * bpow ec <= 1 ->
  SFleb (SFmul prec emax a (S754_finite false mc ec)) a = true.
Proof.
  intros Ha Va Cc Hc.
  destruct a as [[|]|[|]| |[|] m e]; simpl in Ha; try contradiction; try reflexivity.
  pose proof (valid_canon _ _ _ Va) as [_ He].
  apply SFleb_nonneg; [apply SFmul_nonneg_finite; [exact Ha|exact Cc]|exact Ha|].
  destruct (canon_rnd_ok m e Ha) as [k [Hk Ek]].
  destruct (SFmul_spec m e mc ec Ha Cc) as [k2 [z2 [Hz ->]]].
  rewrite <- (round_tail_canon m e Ha He).
  replace (round_tail (Zpos m) e) with (round_tail (Zpos m) (fexp prec emax k)) by (rewrite Ek; reflexivity).
  refine (round_tail_ext_le _ _ _ _ _ _ _ Hz Hk).
  pose proof (canon_val_pos m e). pose proof (canon_val_pos mc ec). nra.
Qed.

Lemma int_truediv_nonneg (a : Z) (b : positive) : (0 <= a)%Z ->
  nonneg_sf (Prim2SF (int_truediv a b)) /\ valid_binary (Prim2SF (int_truediv a b)) = true.
Proof.
  intros Ha. destruct a as [|p|p]; [|unfold int_truediv|lia].
  - split; reflexivity.
  - destruct (SFdiv_spec p 0 b 0) as [k [z [Hz E]]].
    unfold SF64div. rewrite E. pose proof (round_tail_nonneg _ _ _ Hz) as [N V].
    rewrite Prim2SF_SF2Prim by exact V. split; assumption.
Qed.

Lemma trend_factors_val :
  Prim2SF 1.2 = S754_finite false 5404319552844595 (-52) /\
  Prim2SF 0.8 = S754_finite false 7205759403792794 (-53).
Proof. split; vm_compute; reflexivity. Qed.

(** Scaling a non-negative float by [1.2] never makes it smaller, and by
    [0.8] never makes it larger. *)
Lemma scaled_not_below (x : float) :
  nonneg_sf (Prim2SF x) -> valid_binary (Prim2SF x) = true ->
  (x * 1.2 <? x)%float = false /\ (x <? x * 0.8)%float = false.
Proof.
  intros N V. rewrite !ltb_spec, !mul_spec. destruct trend_factors_val as [E1 E2].
  unfold SF64mul. rewrite E1, E2. split.
  - apply SFleb_SFltb, SFmul_ge_self; [exact N|exact V|const_canon|].
    change (-52)%Z with (Z.opp 52). rewrite bpow_opp, bpow_IZR by lia. change (2 ^ 52)%Z with 4503599627370496%Z.
    lra.
  - apply SFleb_SFltb, SFmul_le_self; [exact N|exact V|const_canon|].
    change (-53)%Z with (Z.opp 53). rewrite bpow_opp, bpow_IZR by lia. change (2 ^ 53)%Z with 9007199254740992%Z.
    lra.
Qed.

End TrendFloatFacts.

Section TrendFacts.
Import RiskTrends.
Local Open Scope string_scope.

Lemma count_category_cnt m c acc :
  cnt m (count_category c acc) = (cnt m acc + if String.eqb m c then 1 else 0)%nat.
Proof.
  unfold cnt. induction acc as [|[k v] acc IH]; simpl.
  - destruct (String.eqb m c); reflexivity.
  - destruct (String.eqb_spec k c) as [->|Hne]; simpl.
    + destruct (String.eqb m c); lia.
    + destruct (String.eqb_spec m k) as [->|Hmk].
      * apply String.eqb_neq in Hne. rewrite Hne. lia.
      * exact IH.
Qed.

Lemma count_category_keys k c acc :
  In k (map fst (count_category c acc)) <-> In k (map fst acc) \/ k = c.
Proof.
  induction acc as [|[k' v] acc IH]; simpl.
  - intuition.
  - destruct (String.eqb_spec k' c) as [->|Hne]; simpl; [intuition congruence|].
    rewrite IH. intuition.
Qed.

Lemma count_category_nodup c acc :
  NoDup (map fst acc) -> NoDup (map fst (count_category c acc)).
Proof.
  induction acc as [|[k v] acc IH]; simpl; intros Hn.
  - constructor; [intros []|constructor].
  - inversion Hn as [|? ? Hk Hn']; subst.
    destruct (String.eqb_spec k c) as [->|Hne]; simpl.
    + constructor; assumption.
    + constructor; [|exact (IH Hn')].
      rewrite count_category_keys. intuition.
Qed.

Lemma count_category_sum c acc :
  list_sum (map snd (count_category c acc)) = S (list_sum (map snd acc)).
Proof.
  induction acc as [|[k v] acc IH]; simpl; [reflexivity|].
  destruct (String.eqb k c); simpl; [|rewrite IH]; lia.
Qed.

Lemma count_months_fold acc rs md :
  count_months acc rs = Ok md ->
  exists ms, map_r month_of rs = Ok ms /\
             md = fold_left (fun a m => count_category m a) ms acc.
Proof.
  revert acc. induction rs as [|r rs IH]; simpl; intros acc H.
  - injection H as <-. exists []. split; reflexivity.
  - destruct (month_of r) as [m|e]; simpl in *; [|discriminate].
    destruct (IH _ H) as [ms [Hms ->]]. rewrite Hms. exists (m :: ms). split; reflexivity.
Qed.

Lemma fold_counts_props ms acc :
  NoDup (map fst acc) ->
  let md := fold_left (fun a m => count_category m a) ms acc in
  NoDup (map fst md) /\
  list_sum (map snd md) = (list_sum (map snd acc) + List.length ms)%nat /\
  (forall m, cnt m md = (cnt m acc + count_occ string_dec ms m)%nat) /\
  (forall k, In k (map fst md) <-> In k (map fst acc) \/ In k ms).
Proof.
  revert acc. induction ms as [|m ms IH]; simpl; intros acc Hn.
  - repeat split; try assumption; try lia; intuition.
  - destruct (IH (count_category m acc) (count_category_nodup m acc Hn)) as [N [Hs [C K]]].
    repeat split.
    + exact N.
    + rewrite Hs, count_category_sum. lia.
    + intros m'. rewrite C, count_category_cnt.
      destruct (String.eqb_spec m' m) as [E1|Hne];
        destruct (string_dec m m') as [E|E]; subst; try congruence; lia.
    + intros H. apply K in H. rewrite count_category_keys in H. intuition.
    + intros H. apply K. rewrite count_category_keys. intuition.
Qed.

Lemma insert_str_perm x l : Permutation (insert_str x l) (x :: l).
Proof.
  induction l as [|y l IH]; simpl; [reflexivity|].
  destruct (String.ltb x y); [reflexivity|].
  rewrite IH. apply perm_swap.
Qed.

Lemma sorted_strs_perm l : Permutation (sorted_strs l) l.
Proof.
  unfold sorted_strs. rewrite <- (app_nil_r l) at 2. generalize (@nil string) as acc.
  induction l as [|x l IH]; intros acc; simpl; [reflexivity|].
  rewrite IH, insert_str_perm. apply Permutation_sym, Permutation_middle.
Qed.

Lemma assoc_in {A} k (d : list (string * A)) :
  In k (map fst d) -> exists v, assoc k d = Some v.
Proof.
  induction d as [|[k' v] d IH]; simpl; [intros []|].
  intros [->|H].
  - rewrite String.eqb_refl. eauto.
  - destruct (String.eqb k k'); eauto.
Qed.

Lemma map_r_ok_forall {A B} (f : A -> result B) l :
  (forall x, In x l -> is_ok (f x) = true) -> exists ys, map_r f l = Ok ys.
Proof.
  induction l as [|x l IH]; simpl; intros H; [eauto|].
  specialize (H x (or_introl eq_refl)) as Hx.
  destruct (f x) as [y|e]; [|discriminate]. simpl.
  destruct IH as [ys ->]; [intros; apply H; auto|]. simpl. eauto.
Qed.

Lemma window_avg_ok md w :
  (forall m, In m w -> In m (map fst md)) -> exists x, window_avg md w = Ok x.
Proof.
  intros H. unfold window_avg.
  destruct (map_r_ok_forall (getitem_count md) w) as [cs ->].
  - intros m Hm. destruct (assoc_in m md (H m Hm)) as [v Hv].
    unfold getitem_count. rewrite Hv. reflexivity.
  - simpl. eauto.
Qed.

Lemma window_avg_nonneg md w x : window_avg md w = Ok x ->
  nonneg_sf (Prim2SF x) /\ valid_binary (Prim2SF x) = true.
Proof.
  unfold window_avg. destruct (map_r (getitem_count md) w); simpl; [|discriminate].
  intros H. injection H as <-. apply int_truediv_nonneg. lia.
Qed.

Lemma month_of_ok r : is_ok (month_of r) = has_month r.
Proof.
  destruct r as [| | | | | |d]; try reflexivity. simpl. unfold dict_get_default.
  destruct (dict_get d "identified_date") as [[| | | | | |]|]; reflexivity.
Qed.

Lemma count_months_ok acc rs :
  is_ok (count_months acc rs) = forallb has_month rs.
Proof.
  revert acc. induction rs as [|r rs IH]; intros acc; simpl; [reflexivity|].
  rewrite <- month_of_ok. destruct (month_of r); simpl; [apply IH|reflexivity].
Qed.

Lemma months_in_keys (md : list (string * nat)) w :
  (forall m, In m w -> In m (sorted_strs (map fst md))) ->
  forall m, In m w -> In m (map fst md).
Proof.
  intros H m Hm. apply (Permutation_in _ (sorted_strs_perm (map fst md))). auto.
Qed.

(** X1: [analyze_risk_trends] returns a result exactly when every
    historical risk is a dict whose [identified_date] is absent or a string;
    a present non-string value (an explicit [None] included) or a non-dict
    entry makes it raise. *)
Theorem analyze_risk_trends_ok (historical_risks : list pyval) :
  is_ok (analyze_risk_trends historical_risks) = forallb has_month historical_risks.
Proof.
  destruct historical_risks as [|r rs]; [reflexivity|].
  unfold analyze_risk_trends. rewrite <- (count_months_ok [] (r :: rs)).
  destruct (count_months [] (r :: rs)) as [md|e]; cbn [bind]; [|reflexivity].
  set (months := sorted_strs (map fst md)).
  destruct (Nat.leb 2 (List.length months)); cbn [bind]; [|reflexivity].
  assert (Hs : forall w, (forall m, In m w -> In m months) -> exists x, window_avg md w = Ok x).
  { intros w Hw. apply window_avg_ok. apply months_in_keys. exact Hw. }
  destruct (Hs (skipn (List.length months - 3) months)) as [x1 ->].
  { intros m Hm. rewrite <- (firstn_skipn (List.length months - 3) months).
    apply in_or_app. right. exact Hm. }
  destruct (Hs (firstn 3 months)) as [x2 ->].
  { intros m Hm. rewrite <- (firstn_skipn 3 months). apply in_or_app. left. exact Hm. }
  reflexivity.
Qed.

(** X2: a trend report carries [total_risks = len(historical_risks)] and a [monthly_data] dict whose months are distinct, whose counts sum to [total_risks], and which counts, for every month, the risks whose [identified_date[:7]] is that month. *)
Theorem analyze_risk_trends_monthly_data (historical_risks : list pyval) trend n monthly_data :
  analyze_risk_trends historical_risks = Ok (TrendReport trend n monthly_data) ->
  n = List.length historical_risks /\
  NoDup (map fst monthly_data) /\
  list_sum (map snd monthly_data) = n /\
  exists months, map_r month_of historical_risks = Ok months /\
    forall m, match assoc m monthly_data with Some c => c | None => 0%nat end
              = count_occ string_dec months m.
Proof.
  destruct historical_risks as [|r rs]; [discriminate|].
  unfold analyze_risk_trends.
  destruct (count_months [] (r :: rs)) as [md|e] eqn:Ec; cbn [bind]; [|discriminate].
  intros H.
  assert (H' : n = List.length (r :: rs) /\ monthly_data = md).
  { destruct (Nat.leb 2 _); cbn [bind] in H;
      [destruct (window_avg md _); cbn [bind] in H; [destruct (window_avg md _); cbn [bind] in H|]|];
      try discriminate; injection H; auto. }
  destruct H' as [-> ->].
  destruct (count_months_fold _ _ _ Ec) as [ms [Hms ->]].
  destruct (fold_counts_props ms [] (NoDup_nil _)) as [N [Sm [C _]]].
  pose proof (map_r_forall2 _ _ _ Hms) as F.
  assert (Lm : List.length ms = List.length (r :: rs)) by (symmetry; exact (Forall2_length F)).
  repeat split.
  - exact N.
  - rewrite Sm. simpl in Lm |- *. lia.
  - exists ms. split; [exact Hms|]. intros m. pose proof (C m) as Cm.
    change (cnt m []) with 0%nat in Cm. unfold cnt in Cm. exact Cm.
Qed.

(** X3: with fewer than two distinct months the trend is [insufficient_data]; with two or three months the recent and older windows are the same months, so the trend is always [stable]. *)
Theorem analyze_risk_trends_few_months (historical_risks : list pyval) trend n monthly_data :
  analyze_risk_trends historical_risks = Ok (TrendReport trend n monthly_data) ->
  ((List.length monthly_data < 2)%nat -> trend = "insufficient_data") /\
  ((2 <= List.length monthly_data <= 3)%nat -> trend = "stable").
Proof.
  destruct historical_risks as [|r rs]; [discriminate|].
  unfold analyze_risk_trends.
  destruct (count_months [] (r :: rs)) as [md|e]; cbn [bind]; [|discriminate].
  set (months := sorted_strs (map fst md)).
  assert (Lm : List.length months = List.length md).
  { unfold months. rewrite (Permutation_length (sorted_strs_perm _)). apply length_map. }
  intros H.
  assert (Hmd : monthly_data = md).
  { destruct (Nat.leb 2 _); cbn [bind] in H;
      [destruct (window_avg md _); cbn [bind] in H; [destruct (window_avg md _); cbn [bind] in H|]|];
      try discriminate; injection H; auto. }
  subst monthly_data. split; intros Hl.
  - replace (Nat.leb 2 (List.length months)) with false in H by (symmetry; apply Nat.leb_gt; lia).
    cbn [bind] in H. injection H as <-. reflexivity.
  - replace (Nat.leb 2 (List.length months)) with true in H by (symmetry; apply Nat.leb_le; lia).
    replace (List.length months - 3)%nat with 0%nat in H by lia.
    rewrite (firstn_all2 months) in H by lia. cbn [skipn] in H.
    destruct (window_avg md months) as [x|e] eqn:W; cbn [bind] in H; [|discriminate].
    destruct (window_avg_nonneg _ _ _ W) as [N V].
    destruct (scaled_not_below x N V) as [E1 E2]. rewrite E1, E2 in H.
    injection H as <-. reflexivity.
Qed.

Lemma analyze_risk_trends_monthly_data_witness :
  let historical_risks := [VDict [("identified_date", VStr "2024-01-03")];
     VDict [("identified_date", VStr "2024-02-01")];
     VDict [("identified_date", VStr "2024-02-11")]] in
  analyze_risk_trends historical_risks = Ok (TrendReport "stable" 3 [("2024-01", 1%nat); ("2024-02", 2%nat)]) /\
  3%nat = List.length historical_risks /\
  NoDup (map fst [("2024-01", 1%nat); ("2024-02", 2%nat)]) /\
  list_sum (map snd [("2024-01", 1%nat); ("2024-02", 2%nat)]) = 3%nat /\
  exists months, map_r month_of historical_risks = Ok months /\
    forall m, match assoc m [("2024-01", 1%nat); ("2024-02", 2%nat)] with Some c => c | None => 0%nat end
              = count_occ string_dec months m.
Proof.
  cbv zeta. split; [vm_compute; reflexivity|].
  apply (analyze_risk_trends_monthly_data [VDict [("identified_date", VStr "2024-01-03")];
     VDict [("identified_date", VStr "2024-02-01")];
     VDict [("identified_date", VStr "2024-02-11")]] "stable" 3 [("2024-01", 1%nat); ("2024-02", 2%nat)]).
  vm_compute. reflexivity.
Defined.

Lemma analyze_risk_trends_few_months_witness :
  let historical_risks := [VDict [("identified_date", VStr "2024-01-03")];
     VDict [("identified_date", VStr "2024-02-01")];
     VDict [("identified_date", VStr "2024-02-11")]] in
  analyze_risk_trends historical_risks = Ok (TrendReport "stable" 3 [("2024-01", 1%nat); ("2024-02", 2%nat)]) /\
  ((List.length [("2024-01", 1%nat); ("2024-02", 2%nat)] < 2)%nat -> "stable" = "insufficient_data") /\
  ((2 <= List.length [("2024-01", 1%nat); ("2024-02", 2%nat)] <= 3)%nat -> "stable" = "stable").
Proof.
  cbv zeta. split; [vm_compute; reflexivity|].
  apply (analyze_risk_trends_few_months [VDict [("identified_date", VStr "2024-01-03")];
     VDict [("identified_date", VStr "2024-02-01")];
     VDict [("identified_date", VStr "2024-02-11")]] "stable" 3 [("2024-01", 1%nat); ("2024-02", 2%nat)]).
  vm_compute. reflexivity.
Defined.

End TrendFacts.

(** ** Control recommendations, framework alignment and mapping *)

Section RecommendationFacts.
Import RecommendationEngine.
Local Open Scope string_scope.

Lemma ltb_asym (x y : float) : (x <? y)%float = true -> (y <? x)%float = false.
Proof. rewrite !ltb_spec. apply SFltb_asym. Qed.

Lemma insert_rec_perm x l : Permutation (insert_rec x l) (x :: l).
Proof.
  induction l as [|y l IH]; simpl; [reflexivity|].
  destruct (rc_score y <? rc_score x)%float; [reflexivity|].
  rewrite IH. apply perm_swap.
Qed.

Lemma sort_recs_perm l : Permutation (sort_recs l) l.
Proof.
  unfold sort_recs. rewrite <- (app_nil_r l) at 2. generalize (@nil recommended_control) as acc.
  induction l as [|x l IH]; intros acc; simpl; [reflexivity|].
  rewrite IH, insert_rec_perm. apply Permutation_sym, Permutation_middle.
Qed.

Lemma insert_rec_sorted x l : Sorted score_ge l -> Sorted score_ge (insert_rec x l).
Proof.
  induction l as [|y l IH]; simpl; intros Hs.
  - repeat constructor.
  - destruct (rc_score y <? rc_score x)%float eqn:Hyx.
    + constructor; [exact Hs|constructor; unfold score_ge; exact (ltb_asym _ _ Hyx)].
    + apply Sorted_inv in Hs as [Hs Hh]. constructor; [exact (IH Hs)|].
      destruct l as [|z l]; simpl.
      * constructor. exact Hyx.
      * inversion Hh as [|? ? Hyz]; subst.
        destruct (rc_score z <? rc_score x)%float; constructor; assumption.
Qed.

Lemma sort_recs_sorted l : Sorted score_ge (sort_recs l).
Proof.
  unfold sort_recs. assert (H : Sorted score_ge []) by constructor. revert H.
  generalize (@nil recommended_control) as acc.
  induction l as [|x l IH]; intros acc Hs; simpl; [exact Hs|].
  apply IH, insert_rec_sorted, Hs.
Qed.

Lemma sorted_firstn {A} (R : A -> A -> Prop) n l : Sorted R l -> Sorted R (firstn n l).
Proof.
  revert l. induction n as [|n IH]; intros l Hs; simpl; [constructor|].
  destruct l as [|x l]; [constructor|]. apply Sorted_inv in Hs as [Hs Hh].
  constructor; [exact (IH _ Hs)|].
  destruct n; simpl; [constructor|]. destruct l; simpl; [constructor|].
  inversion Hh; subst. constructor. assumption.
Qed.

Lemma library_get_length c : (List.length (library_get c) <= 2)%nat.
Proof.
  unfold library_get. simpl.
  destruct (String.eqb c "access_control"); [simpl; lia|].
  destruct (String.eqb c "data_protection"); [simpl; lia|].
  destruct (String.eqb c "incident_response"); simpl; lia.
Qed.

Lemma library_get_nil c : ~ In c library_keys -> library_get c = [].
Proof.
  unfold library_get, library_keys. simpl. intros H.
  destruct (String.eqb_spec c "access_control"); [subst; tauto|].
  destruct (String.eqb_spec c "data_protection"); [subst; tauto|].
  destruct (String.eqb_spec c "incident_response"); [subst; tauto|reflexivity].
Qed.

Lemma flat_map_recommend_length cats :
  NoDup cats -> (List.length (flat_map recommend_for cats) <= 6)%nat.
Proof.
  intros Hn.
  assert (E : flat_map recommend_for cats =
              flat_map recommend_for (filter (fun c => existsb (String.eqb c) library_keys) cats)).
  { induction cats as [|c cats IH]; [reflexivity|]. cbn [flat_map filter].
    inversion Hn; subst. rewrite (IH ltac:(assumption)).
    destruct (existsb (String.eqb c) library_keys) eqn:Ek; cbn [flat_map]; [reflexivity|].
    unfold recommend_for at 1. rewrite library_get_nil; [reflexivity|].
    intros Hin. apply Bool.not_true_iff_false in Ek. apply Ek.
    apply existsb_exists. exists c. split; [exact Hin|apply String.eqb_refl]. }
  rewrite E.
  assert (Hl : (List.length (filter (fun c => existsb (String.eqb c) library_keys) cats) <= 3)%nat).
  { change 3%nat with (List.length library_keys). apply NoDup_incl_length.
    - apply NoDup_filter. exact Hn.
    - intros c Hc. apply filter_In in Hc as [_ Hc]. apply existsb_exists in Hc as [k [Hk Ek]].
      apply String.eqb_eq in Ek. subst. exact Hk. }
  revert Hl. generalize (filter (fun c => existsb (String.eqb c) library_keys) cats) as l.
  intros l Hl. assert (H2 : (List.length (flat_map recommend_for l) <= 2 * List.length l)%nat).
  { induction l as [|c l IH]; simpl; [lia|]. rewrite length_app.
    unfold recommend_for at 1. rewrite length_map. pose proof (library_get_length c).
    simpl in Hl. specialize (IH ltac:(lia)). lia. }
  lia.
Qed.

Lemma ok_inj {A} (a b : A) : Ok a = Ok b -> a = b.
Proof. congruence. Qed.

(** X6: [recommend_controls] returns controls sorted by non-increasing score, each from the library of a category whose risk level is [High] or [Critical], scored by [_calculate_recommendation_score]; for a dict of levels with distinct keys, nothing is cut by the top-10 limit. *)
Theorem recommend_controls_ranked (risk_profile : dict) recs :
  recommend_controls risk_profile = Ok recs ->
  exists levels,
    dict_get_default risk_profile "risk_levels" (VDict []) = VDict levels /\
    Sorted (fun a b => (rc_score a <? rc_score b)%float = false) recs /\
    (forall x, In x recs ->
       (exists level, In (rc_category x, level) levels /\ is_high_level level = true) /\
       In (rc_control x) (library_get (rc_category x)) /\
       rc_score x = calculate_recommendation_score (rc_control x)) /\
    (NoDup (map fst levels) ->
       Permutation recs
         (flat_map recommend_for (map fst (filter (fun '(_, level) => is_high_level level) levels)))).
Proof.
  unfold recommend_controls, high_risk_categories.
  destruct (dict_get_default risk_profile "risk_levels" (VDict [])) as [| | | | | |levels];
    unfold bind; try discriminate.
  intros H. apply ok_inj in H. subst recs. exists levels. split; [reflexivity|].
  set (cats := map fst (filter (fun '(_, level) => is_high_level level) levels)).
  split; [|split].
  - apply sorted_firstn, sort_recs_sorted.
  - intros x Hx.
    assert (Hx' : In x (flat_map recommend_for cats)).
    { apply (Permutation_in _ (sort_recs_perm _)).
      rewrite <- (firstn_skipn 10 (sort_recs (flat_map recommend_for cats))).
      apply in_or_app. left. exact Hx. }
    apply in_flat_map in Hx' as [c [Hc Hxc]].
    unfold recommend_for in Hxc. apply in_map_iff in Hxc as [ctl [<- Hctl]].
    simpl. split; [|split; [exact Hctl|reflexivity]].
    unfold cats in Hc. apply in_map_iff in Hc as [[c' level] [Ec Hin]]. simpl in Ec. subst c'.
    apply filter_In in Hin as [Hin Hl]. exists level. split; assumption.
  - intros Hn.
    assert (Hc : NoDup cats).
    { unfold cats. clear cats. induction levels as [|[k v] levels IH]; simpl; [constructor|].
      inversion Hn as [|? ? Hk Hn']; subst.
      destruct (is_high_level v); simpl; [|exact (IH Hn')].
      constructor; [|exact (IH Hn')].
      intros Hin. apply Hk. apply in_map_iff in Hin as [[k' v'] [Ek Hin]]. simpl in Ek. subst k'.
      apply filter_In in Hin as [Hin _]. apply (in_map fst) in Hin. exact Hin. }
    pose proof (flat_map_recommend_length cats Hc) as Hl.
    rewrite firstn_all2.
    + apply sort_recs_perm.
    + rewrite (Permutation_length (sort_recs_perm _)). lia.
Qed.

Lemma filter_r_in_category_ok cat cs :
  is_ok (filter_r (in_category cat) cs) = forallb is_dict cs.
Proof.
  induction cs as [|c cs IH]; [reflexivity|]. simpl.
  destruct c; try reflexivity. simpl.
  destruct (filter_r (in_category cat) cs); simpl in *; rewrite <- IH; reflexivity.
Qed.

Lemma suggest_for_ok cs req : is_ok (suggest_for cs req) = forallb is_dict cs.
Proof.
  destruct req as [r c]. unfold suggest_for. rewrite <- (filter_r_in_category_ok c cs).
  destruct (filter_r (in_category c) cs) as [[|x l]|e]; simpl; try reflexivity.
  destruct (library_get c); reflexivity.
Qed.

Lemma map_r_const_ok {A B} (f : A -> result B) (l : list A) b :
  l <> [] -> (forall x, is_ok (f x) = b) -> is_ok (map_r f l) = b.
Proof.
  intros Hne Hf. induction l as [|x l IH]; [contradiction|]. simpl.
  specialize (Hf x) as Hx. destruct (f x) as [y|e]; simpl in *; [|exact Hx].
  destruct l as [|x' l].
  - simpl. exact Hx.
  - specialize (IH ltac:(discriminate)). destruct (map_r f (x' :: l)); simpl in *; congruence.
Qed.

(** X7: [suggest_framework_alignment] reports an unknown framework as an error; for a known one it returns exactly when every current control is a dict, always with three requirements, [gap_count = 3 - covered] and a coverage percentage of [0], [33.3], [66.7] or [100]; a gap suggestion carries the first two library controls of its category (never none) and a covered one at least one existing control. *)
Theorem suggest_framework_alignment_coverage (current_controls : list pyval) (target_framework : string) :
  (assoc target_framework framework_mappings = None ->
     suggest_framework_alignment current_controls target_framework
     = Ok (AlignmentError "Unknown framework")) /\
  (assoc target_framework framework_mappings <> None ->
     is_ok (suggest_framework_alignment current_controls target_framework)
     = forallb (fun c => match c with VDict _ => true | _ => false end) current_controls /\
     forall a, suggest_framework_alignment current_controls target_framework = Ok (Alignment a) ->
       al_total_requirements a = 3%nat /\ (al_covered_requirements a <= 3)%nat /\
       al_gap_count a = (3 - Z.of_nat (al_covered_requirements a))%Z /\
       al_coverage_percentage a
         = VFloat (nth (al_covered_requirements a) [0; 33.3; 66.7; 100]%float 0%float) /\
       (forall s, In s (al_suggestions a) ->
          match s with
          | SGap _ c rec => rec = firstn 2 (library_get c) /\ rec <> []
          | SCovered _ _ n => (0 < n)%nat
          end)).
Proof.
  unfold suggest_framework_alignment.
  split; [intros ->; reflexivity|]. intros Hk.
  destruct (assoc target_framework framework_mappings) as [fmap|] eqn:Ef; [|contradiction].
  split.
  - change (forallb (fun c => match c with VDict _ => true | _ => false end) current_controls)
      with (forallb is_dict current_controls).
    assert (Hne : fmap <> []).
    { unfold framework_mappings in Ef. simpl in Ef.
      destruct (String.eqb target_framework "iso27001"); [injection Ef as <-; discriminate|].
      destruct (String.eqb target_framework "soc2"); [injection Ef as <-; discriminate|discriminate]. }
    rewrite <- (map_r_const_ok (suggest_for current_controls) fmap (forallb is_dict current_controls)
                  Hne (suggest_for_ok current_controls)).
    destruct (map_r (suggest_for current_controls) fmap); reflexivity.
  - intros a.
    unfold framework_mappings in Ef. simpl in Ef.
    destruct (String.eqb target_framework "iso27001");
      [injection Ef as <-|destruct (String.eqb target_framework "soc2");
                           [injection Ef as <-|discriminate]];
      cbn [map_r]; unfold suggest_for;
      repeat match goal with |- context [filter_r ?p current_controls] =>
        destruct (filter_r p current_controls) as [[|? ?]|?] end;
      cbn [bind]; try discriminate; intros H; apply ok_inj in H; injection H as <-;
      vm_compute; (split; [reflexivity|]); (split; [lia|]); (split; [reflexivity|]);
      (split; [reflexivity|]);
      intros s Hs; repeat destruct Hs as [<-|Hs]; try contradiction; (split; [reflexivity|discriminate]) || lia.
Qed.

(** X8: [smart_control_mapping] is symmetric (swapping the frameworks swaps source and target of every mapping), is empty when either framework is unknown, and only maps requirements of the same category with confidence [High]. *)
Theorem smart_control_mapping_symmetric (source_framework target_framework : string) :
  smart_control_mapping target_framework source_framework
  = map (fun m => mk_control_mapping (target_requirement m) (source_requirement m)
                    (mapping_category m) (mapping_confidence m))
        (smart_control_mapping source_framework target_framework) /\
  (mapping_get source_framework = [] \/ mapping_get target_framework = [] ->
     smart_control_mapping source_framework target_framework = []) /\
  (forall m, In m (smart_control_mapping source_framework target_framework) ->
     mapping_confidence m = "High" /\
     In (source_requirement m, mapping_category m) (mapping_get source_framework) /\
     In (target_requirement m, mapping_category m) (mapping_get target_framework)).
Proof.
  unfold smart_control_mapping, mapping_get, framework_mappings. cbn [assoc].
  destruct (String.eqb source_framework "iso27001");
    [|destruct (String.eqb source_framework "soc2")].
  all: destruct (String.eqb target_framework "iso27001");
    [|destruct (String.eqb target_framework "soc2")].
  all: vm_compute; split; [reflexivity|].
  all: split; [intros [H|H]; first [reflexivity | discriminate]|].
  all: intros m Hm; repeat destruct Hm as [<-|Hm]; try contradiction.
  all: vm_compute; split; [reflexivity|]; split; tauto.
Qed.

Lemma recommend_controls_ranked_witness :
  let risk_profile : dict := [("risk_levels", VDict [("access_control", VStr "High"); ("data_protection", VStr "Low"); ("incident_response", VStr "Critical")])] in
  let recs := match recommend_controls risk_profile with Ok r => r | Err _ => [] end in
  recommend_controls risk_profile = Ok recs /\
  exists levels,
    dict_get_default risk_profile "risk_levels" (VDict []) = VDict levels /\
    Sorted (fun a b => (rc_score a <? rc_score b)%float = false) recs /\
    (forall x, In x recs ->
       (exists level, In (rc_category x, level) levels /\ is_high_level level = true) /\
       In (rc_control x) (library_get (rc_category x)) /\
       rc_score x = calculate_recommendation_score (rc_control x)) /\
    (NoDup (map fst levels) ->
       Permutation recs
         (flat_map recommend_for (map fst (filter (fun '(_, level) => is_high_level level) levels)))).
Proof.
  cbv zeta. split; [vm_compute; reflexivity|].
  apply (recommend_controls_ranked [("risk_levels", VDict [("access_control", VStr "High"); ("data_protection", VStr "Low"); ("incident_response", VStr "Critical")])]).
  vm_compute. reflexivity.
Defined.

End RecommendationFacts.

(** ** Completeness of a document *)

Section CompletenessCountFacts.
Import DocumentAnalyzer.
Local Open Scope string_scope.

Lemma completeness_ratio (k n : nat) : (n = 6 \/ n = 7)%nat -> (k <= n)%nat ->
  let s := py_round 1 ((float_of_nat k / float_of_nat n) * 100) in
  (s = 100%float <-> k = n) /\ (0 <=? s)%float = true /\ (s <=? 100)%float = true.
Proof.
  intros [-> | ->] Hk;
    do 8 (destruct k as [|k]; [try lia; vm_compute; (split; [split; intros; congruence || discriminate || lia|]);
                               split; reflexivity|]); lia.
Qed.

Lemma filter_negb_length {A} (p : A -> bool) l :
  (List.length (filter p l) + List.length (filter (fun x => negb (p x)) l) = List.length l)%nat.
Proof.
  induction l as [|x l IH]; [reflexivity|]. simpl. destruct (p x); simpl; lia.
Qed.

(** X9: [_check_completeness] reports [found + len(missing) = total_required], the missing elements are exactly the required ones absent (case-insensitively) from the text, the score is [100] exactly when nothing is missing, and it lies in [[0, 100]]. *)
Theorem check_completeness_consistent (text document_type : string) :
  let c := check_completeness text document_type in
  (c_found c + List.length (c_missing c) = c_total_required c)%nat /\
  (forall e, In e (c_missing c) <->
     In e (required_elements document_type) /\ str_contains (str_lower e) (str_lower text) = false) /\
  (c_score c = 100%float <-> c_missing c = []) /\
  (0 <=? c_score c)%float = true /\ (c_score c <=? 100)%float = true.
Proof.
  intros c. unfold c, check_completeness. cbn [c_found c_missing c_total_required c_score].
  pose proof (filter_negb_length (fun e => str_contains (str_lower e) (str_lower text))
                (required_elements document_type)) as HL.
  cbv beta in HL.
  split; [exact HL|split].
  - intros e. rewrite filter_In, Bool.negb_true_iff. reflexivity.
  - assert (Hn : List.length (required_elements document_type) = 0%nat \/
                 List.length (required_elements document_type) = 6%nat \/
                 List.length (required_elements document_type) = 7%nat).
    { unfold required_elements. destruct (String.eqb document_type "policy"); [auto|].
      destruct (String.eqb document_type "procedure"); [auto|].
      destruct (String.eqb document_type "contract"); auto. }
    destruct (required_elements document_type) as [|e0 l0] eqn:Er.
    + vm_compute. repeat split; reflexivity.
    + assert (Hl0 : List.length (e0 :: l0) <> 0%nat) by discriminate.
      set (l := e0 :: l0) in *. clearbody l.
      destruct (completeness_ratio (List.length (filter (fun e => str_contains (str_lower e) (str_lower text)) l)) (List.length l)) as [E [H0 H1]];
        [lia|lia|].
      split; [|split; assumption].
      rewrite E. split.
      * intros Hf. apply length_zero_iff_nil. lia.
      * intros Hm. rewrite Hm in HL. simpl in HL. lia.
Qed.

End CompletenessCountFacts.

(** ** Lower-casing *)

Section LowerFacts.
Local Open Scope string_scope.

Lemma lower_ascii_idem (c : ascii) : lower_ascii (lower_ascii c) = lower_ascii c.
Proof. destruct c as [[] [] [] [] [] [] [] []]; reflexivity. Qed.

Lemma str_lower_idem (s : string) : str_lower (str_lower s) = str_lower s.
Proof.
  unfold str_lower. rewrite list_ascii_of_string_of_list_ascii, map_map.
  f_equal. apply map_ext. apply lower_ascii_idem.
Qed.

End LowerFacts.

(** ** Emerging risks: filtering and case *)

Section EmergingExtraFacts.
Import RiskPrediction.
Local Open Scope string_scope.

(** X10: [predict_emerging_risks] does not depend on the case of the industry name. *)
Theorem predict_emerging_risks_industry_case_insensitive (now industry : string)
  (current_risks : list pyval) :
  predict_emerging_risks now industry current_risks =
  predict_emerging_risks now (str_lower industry) current_risks.
Proof. unfold predict_emerging_risks. rewrite str_lower_idem. reflexivity. Qed.

(** X11: [predict_emerging_risks] returns records copied from the catalog of the (lower-cased) industry, and none whose name matches, case-insensitively, the name of a current risk. *)
Theorem predict_emerging_risks_new_only (now industry : string) (current_risks : list pyval)
  (rs : list emerging_risk) :
  predict_emerging_risks now industry current_risks = Ok rs ->
  exists catalog,
    map (fun r => (er_name r, er_category r, er_probability r, er_description r)) rs =
    map (fun c => (cr_name c, cr_category c, cr_probability c, cr_description c)) catalog /\
    incl catalog (emerging_risks_db (str_lower industry)) /\
    forall r cur n, In r rs -> In cur current_risks -> py_getitem cur "name" = Ok (VStr n) ->
      str_lower (er_name r) <> str_lower n.
Proof.
  unfold predict_emerging_risks.
  destruct (map_r risk_name_lower current_risks) as [names|e] eqn:En; simpl; [|discriminate].
  intros H. apply map_r_forall2 in H. apply map_r_forall2 in En.
  set (new := filter _ _) in H.
  exists new. split; [|split].
  - clear En. induction H as [|c r cs rs' Hc _ IH]; [reflexivity|].
    simpl. rewrite IH. unfold add_prediction_metadata in Hc.
    destruct (py_int (cr_probability c * 5)); simpl in Hc; [|discriminate].
    injection Hc as <-. reflexivity.
  - intros c Hc. apply filter_In in Hc. apply Hc.
  - intros r cur n Hr Hcur Hn.
    assert (Hrc : exists c, In c new /\ er_name r = cr_name c).
    { clear En Hcur Hn. induction H as [|c r' cs rs' Hc _ IH]; [destruct Hr|].
      destruct Hr as [<-|Hr].
      - exists c. split; [left; reflexivity|]. unfold add_prediction_metadata in Hc.
        destruct (py_int (cr_probability c * 5)); simpl in Hc; [|discriminate].
        injection Hc as <-. reflexivity.
      - destruct (IH Hr) as [c' [Hc' E]]. exists c'. split; [right|]; assumption. }
    destruct Hrc as [c [Hc ->]].
    apply filter_In in Hc as [_ Hc]. apply Bool.negb_true_iff in Hc.
    assert (Hin : In (str_lower n) names).
    { clear H Hc. induction En as [|x y xs ys Hxy _ IH]; [destruct Hcur|].
      destruct Hcur as [<-|Hcur]; [left|right; auto].
      unfold risk_name_lower in Hxy. rewrite Hn in Hxy. simpl in Hxy. congruence. }
    intros E. rewrite E in Hc.
    assert (existsb (String.eqb (str_lower n)) names = true) as Ht
      by (apply existsb_exists; exists (str_lower n); split; [exact Hin|apply String.eqb_refl]).
    congruence.
Qed.

Lemma predict_emerging_risks_new_only_witness :
  let rs := match predict_emerging_risks "2026-01-01T00:00:00" "Technology" [VDict [("name", VStr "AI/ML Security Vulnerabilities")]] with
            | Ok rs => rs | Err _ => [] end in
  predict_emerging_risks "2026-01-01T00:00:00" "Technology" [VDict [("name", VStr "AI/ML Security Vulnerabilities")]] = Ok rs /\
  exists catalog,
    map (fun r => (er_name r, er_category r, er_probability r, er_description r)) rs =
    map (fun c => (cr_name c, cr_category c, cr_probability c, cr_description c)) catalog /\
    incl catalog (emerging_risks_db (str_lower "Technology")) /\
    forall r cur n, In r rs -> In cur [VDict [("name", VStr "AI/ML Security Vulnerabilities")]] -> py_getitem cur "name" = Ok (VStr n) ->
      str_lower (er_name r) <> str_lower n.
Proof.
  cbv zeta. split; [vm_compute; reflexivity|].
  apply (predict_emerging_risks_new_only "2026-01-01T00:00:00" "Technology" [VDict [("name", VStr "AI/ML Security Vulnerabilities")]]).
  vm_compute. reflexivity.
Defined.

End EmergingExtraFacts.

(** ** The risk-assessment endpoint *)

Section AssessFacts.
Import Main.
Local Open Scope string_scope.

(** X12: [assess_risk] does not depend on the letter case of the
    description: lower-casing it first gives the same assessment. *)
Theorem assess_risk_case_insensitive (risk_description : string) :
  assess_risk (str_lower risk_description) = assess_risk risk_description.
Proof. unfold assess_risk. rewrite str_lower_idem. reflexivity. Qed.

End AssessFacts.

(** ** Contract clauses *)

Section ClauseFacts.
Import DocumentAnalyzer.
Local Open Scope string_scope.

Lemma match_literal_ci_spec (key s : list ascii) :
  match_literal_ci key s =
  if is_prefix key (map lower_ascii s) then Some (skipn (List.length key) s) else None.
Proof.
  revert s; induction key as [|k key IH]; intros [|c s]; simpl; try reflexivity.
  rewrite Ascii.eqb_sym. destruct (Ascii.eqb k (lower_ascii c)); simpl; [apply IH|reflexivity].
Qed.

Lemma is_prefix_map (key t : list ascii) :
  is_prefix key t = true -> firstn (List.length key) t = key.
Proof.
  revert t; induction key as [|k key IH]; intros [|c t]; simpl; try discriminate; try reflexivity.
  intros H. apply andb_true_iff in H as [H1 H2]. apply Ascii.eqb_eq in H1. subst. f_equal; auto.
Qed.

Lemma is_prefix_app (key t : list ascii) : is_prefix key (key ++ t) = true.
Proof. induction key as [|k key IH]; simpl; [reflexivity|]. rewrite Ascii.eqb_refl. exact IH. Qed.

Lemma contains_app (key x y : list ascii) : is_prefix key y = true -> contains key (x ++ y) = true.
Proof.
  intros H. induction x as [|c x IH]; simpl.
  - destruct y; simpl; rewrite H; reflexivity.
  - rewrite IH. apply orb_true_r.
Qed.

Lemma contains_skipn (key s : list ascii) :
  contains key s = true -> exists i, is_prefix key (skipn i s) = true.
Proof.
  induction s as [|c s IH]; simpl; intros H.
  - exists 0%nat. rewrite orb_false_r in H. exact H.
  - apply orb_true_iff in H as [H|H]; [exists 0%nat; exact H|].
    destruct (IH H) as [i Hi]. exists (S i). exact Hi.
Qed.

Lemma last_keyword_at_some (j : nat) (key s : list ascii) (j' : nat) :
  last_keyword_at j key s = Some j' -> (j' <= j)%nat /\ match_literal_ci key (skipn j' s) <> None.
Proof.
  induction j as [|j IH]; cbn [last_keyword_at].
  - destruct (match_literal_ci key (skipn 0 s)) eqn:E; intros H; [|discriminate].
    injection H as <-. rewrite E. split; [lia|discriminate].
  - destruct (match_literal_ci key (skipn (S j) s)) eqn:E; intros H.
    + injection H as <-. rewrite E. split; [lia|discriminate].
    + destruct (IH H). split; [lia|assumption].
Qed.

Lemma last_keyword_at_zero (j : nat) (key s : list ascii) :
  match_literal_ci key s <> None -> last_keyword_at j key s <> None.
Proof.
  intros H. induction j as [|j IH]; cbn [last_keyword_at].
  - simpl skipn. destruct (match_literal_ci key s); [discriminate|contradiction].
  - destruct (match_literal_ci key (skipn (S j) s)); [discriminate|exact IH].
Qed.

Lemma clause_search_found (key s : list ascii) :
  contains key (map lower_ascii s) = true -> clause_search key s <> None.
Proof.
  induction s as [|c s IH]; intros H; simpl;
    destruct (clause_match_at key _) eqn:Em; try discriminate.
  - exfalso. revert Em. unfold clause_match_at.
    simpl in H. rewrite orb_false_r in H.
    destruct (last_keyword_at _ key []) eqn:El.
    + apply last_keyword_at_some in El as [_ El].
      destruct (match_literal_ci key (skipn n [])); [discriminate|contradiction].
    + exfalso. revert El. apply last_keyword_at_zero.
      rewrite match_literal_ci_spec. simpl. rewrite H. discriminate.
  - simpl in H. apply orb_true_iff in H as [H|H]; [|auto].
    exfalso. revert Em. unfold clause_match_at.
    destruct (last_keyword_at _ key (c :: s)) eqn:El.
    + apply last_keyword_at_some in El as [_ El].
      destruct (match_literal_ci key (skipn n (c :: s))); [discriminate|contradiction].
    + exfalso. revert El. apply last_keyword_at_zero.
      rewrite match_literal_ci_spec. cbn [map]. rewrite H. discriminate.
Qed.

Lemma span_spec (p : ascii -> bool) (l : list ascii) :
  l = (fst (span p l) ++ snd (span p l))%list /\ forallb p (fst (span p l)) = true.
Proof.
  induction l as [|c l IH]; simpl; [auto|].
  destruct (p c) eqn:E; simpl; [|auto].
  destruct (span p l) as [a b]. simpl in *. destruct IH as [IH1 IH2].
  rewrite E, IH2. split; [f_equal; exact IH1|reflexivity].
Qed.

Lemma forallb_firstn {A} (p : A -> bool) (n : nat) (l : list A) :
  forallb p l = true -> forallb p (firstn n l) = true.
Proof.
  revert l; induction n as [|n IH]; intros [|x l] H; simpl; try reflexivity.
  simpl in H. apply andb_true_iff in H as [H1 H2]. rewrite H1. simpl. apply IH. exact H2.
Qed.

Lemma firstn_add_app {A} (j k : nat) (s : list A) :
  firstn (j + k) s = (firstn j s ++ firstn k (skipn j s))%list.
Proof.
  revert s; induction j as [|j IH]; intros [|x s]; simpl; auto.
  - destruct k; reflexivity.
  - f_equal. apply IH.
Qed.

Lemma not_newline_lower (c : ascii) : not_newline (lower_ascii c) = not_newline c.
Proof. destruct c as [[] [] [] [] [] [] [] []]; reflexivity. Qed.

Lemma is_space_lower (c : ascii) : is_space (lower_ascii c) = is_space c.
Proof. destruct c as [[] [] [] [] [] [] [] []]; reflexivity. Qed.

Lemma forallb_map_lower (f : ascii -> bool) (p : list ascii) :
  (forall c, f (lower_ascii c) = f c) -> forallb f (map lower_ascii p) = forallb f p.
Proof. intros H. induction p as [|c p IH]; simpl; [reflexivity|]. rewrite H, IH. reflexivity. Qed.

Lemma clause_match_at_shape (key s m : list ascii) :
  clause_match_at key s = Some m ->
  exists a p b, m = (a ++ p ++ b)%list /\ map lower_ascii p = key /\
    forallb not_newline a = true /\ forallb not_newline b = true /\
    (List.length a <= 200)%nat /\ (List.length b <= 200)%nat.
Proof.
  unfold clause_match_at.
  destruct (last_keyword_at _ key s) as [j|] eqn:El; [|discriminate].
  apply last_keyword_at_some in El as [Hj _].
  rewrite match_literal_ci_spec.
  destruct (is_prefix key (map lower_ascii (skipn j s))) eqn:Ep; [|discriminate].
  intros H. injection H as <-.
  exists (firstn j s), (firstn (List.length key) (skipn j s)),
         (firstn 200 (fst (span not_newline (skipn (List.length key) (skipn j s))))).
  rewrite firstn_add_app, <- app_assoc.
  destruct (span_spec not_newline s) as [Hs Hf].
  rewrite length_firstn in Hj.
  split; [reflexivity|split; [|split; [|split; [|split]]]].
  - rewrite <- firstn_map. apply is_prefix_map. exact Ep.
  - rewrite Hs, firstn_app.
    replace (j - List.length (fst (span not_newline s)))%nat with 0%nat by lia.
    rewrite app_nil_r. apply forallb_firstn. exact Hf.
  - apply forallb_firstn. apply span_spec.
  - rewrite length_firstn. lia.
  - rewrite length_firstn. lia.
Qed.

Lemma clause_search_shape (key s m : list ascii) :
  clause_search key s = Some m -> exists s', clause_match_at key s' = Some m.
Proof.
  induction s as [|c s IH]; cbn [clause_search].
  - destruct (clause_match_at key []) eqn:E; intros H; [|discriminate].
    injection H as <-. eauto.
  - destruct (clause_match_at key (c :: s)) eqn:E; intros H; [|auto].
    injection H as <-. eauto.
Qed.

Lemma lstrip_suffix (l : list ascii) : exists x, l = (x ++ lstrip l)%list.
Proof.
  induction l as [|c l [x IH]]; simpl; [exists []; reflexivity|].
  destruct (is_space c); [exists (c :: x); simpl; f_equal; exact IH|exists []; reflexivity].
Qed.

Lemma py_strip_infix (l : list ascii) : exists x y, l = (x ++ py_strip l ++ y)%list.
Proof.
  unfold py_strip.
  destruct (lstrip_suffix l) as [x Hx].
  destruct (lstrip_suffix (rev (lstrip l))) as [y Hy].
  exists x, (rev y). rewrite Hx at 1. f_equal.
  transitivity (rev (rev (lstrip l))); [symmetry; apply rev_involutive|].
  rewrite Hy at 1. rewrite rev_app_distr. reflexivity.
Qed.

Lemma lstrip_keeps (a t : list ascii) (c : ascii) :
  is_space c = false -> exists a', lstrip (a ++ c :: t) = (a' ++ c :: t)%list.
Proof.
  intros Hc. induction a as [|x a [a' IH]]; simpl.
  - rewrite Hc. exists []. reflexivity.
  - destruct (is_space x); [exists a'; exact IH|exists (x :: a); reflexivity].
Qed.

Lemma py_strip_keeps (a p b : list ascii) (c d : ascii) (p' q : list ascii) :
  p = c :: p' -> rev p = d :: q -> is_space c = false -> is_space d = false ->
  exists a' b', py_strip (a ++ p ++ b) = (a' ++ p ++ b')%list.
Proof.
  intros Hp Hr Hc Hd. unfold py_strip.
  destruct (lstrip_keeps a (p' ++ b) c Hc) as [a' Ha].
  assert (E1 : (a ++ p ++ b)%list = (a ++ c :: p' ++ b)%list) by (rewrite Hp; reflexivity).
  rewrite E1, Ha.
  assert (E2 : rev (a' ++ c :: p' ++ b) = (rev b ++ d :: q ++ rev a')%list).
  { rewrite rev_app_distr, app_comm_cons, rev_app_distr, <- Hp, Hr, <- app_assoc. reflexivity. }
  rewrite E2.
  destruct (lstrip_keeps (rev b) (q ++ rev a') d Hd) as [b' Hb]. rewrite Hb.
  exists a', (rev b').
  rewrite app_comm_cons, <- Hr, !rev_app_distr, !rev_involutive, <- app_assoc. reflexivity.
Qed.

Lemma length_string_of_list_ascii (l : list ascii) :
  String.length (string_of_list_ascii l) = List.length l.
Proof. induction l; simpl; auto. Qed.

Lemma map_lower_cons (p key : list ascii) (k : ascii) (key' : list ascii) :
  map lower_ascii p = key -> key = k :: key' -> exists c p', p = c :: p' /\ lower_ascii c = k.
Proof. intros <-. destruct p as [|c p]; [discriminate|]. intros H; injection H as <- _. eauto. Qed.

Lemma clause_keywords_plain :
  forallb (fun '(_, kws) => forallb plain_keyword kws) clause_keywords = true.
Proof. vm_compute. reflexivity. Qed.

Lemma str_lower_list (s : string) : ascii_list (str_lower s) = map lower_ascii (ascii_list s).
Proof. unfold ascii_list, str_lower. apply list_ascii_of_string_of_list_ascii. Qed.

Lemma clause_excerpt_ok (kw : string) (text : string) (m : list ascii) :
  plain_keyword kw = true -> clause_search (ascii_list kw) (ascii_list text) = Some m ->
  let e := string_of_list_ascii (py_strip m) in
  str_contains kw (str_lower e) = true /\ ~ In "010"%char (ascii_list e) /\
  (String.length e <= 400 + String.length kw)%nat.
Proof.
  intros Hkw Hs. cbv zeta.
  apply clause_search_shape in Hs as [s' Hs]. apply clause_match_at_shape in Hs.
  destruct Hs as [a [p [b [-> [Hp [Ha [Hb [La Lb]]]]]]]].
  unfold plain_keyword in Hkw.
  apply andb_true_iff in Hkw as [Hkw Hends]. apply andb_true_iff in Hkw as [_ Hnl].
  destruct (ascii_list kw) as [|k key'] eqn:Ek; [discriminate|].
  destruct (rev (k :: key')) as [|d q] eqn:Er; [discriminate|].
  apply andb_true_iff in Hends as [Hk Hd]. apply negb_true_iff in Hk, Hd.
  destruct p as [|c p']; [discriminate|].
  destruct (rev (c :: p')) as [|d' q'] eqn:Erp.
  { exfalso. apply (f_equal (@List.length _)) in Erp. rewrite length_rev in Erp. discriminate. }
  assert (Hc : is_space c = false).
  { injection Hp as Hc _. rewrite <- is_space_lower, Hc. exact Hk. }
  assert (Hd' : is_space d' = false).
  { assert (E : map lower_ascii (rev (c :: p')) = rev (k :: key')) by (rewrite map_rev, Hp; reflexivity).
    rewrite Erp, Er in E. injection E as E _. rewrite <- is_space_lower, E. exact Hd. }
  destruct (py_strip_keeps a (c :: p') b c d' p' q' eq_refl Erp Hc Hd') as [a' [b' Hst]].
  destruct (py_strip_infix (a ++ (c :: p') ++ b)) as [x [y Hxy]].
  rewrite Hst in *. unfold ascii_list. rewrite list_ascii_of_string_of_list_ascii.
  assert (Hlen : List.length (c :: p') = String.length kw).
  { assert (E := f_equal (@List.length _) Hp). rewrite length_map in E. rewrite E.
    rewrite <- Ek. unfold ascii_list.
    rewrite <- (string_of_list_ascii_of_string kw) at 2. rewrite length_string_of_list_ascii. reflexivity. }
  assert (Hall : forallb not_newline (a ++ (c :: p') ++ b) = true).
  { rewrite !forallb_app, Ha, Hb. rewrite <- (forallb_map_lower not_newline) by apply not_newline_lower.
    rewrite Hp, Hnl. reflexivity. }
  split; [|split].
  - unfold str_contains. change (list_ascii_of_string (str_lower ?s)) with (ascii_list (str_lower s)).
    rewrite str_lower_list. unfold ascii_list. rewrite list_ascii_of_string_of_list_ascii.
    rewrite !map_app, Hp. fold (ascii_list kw). rewrite Ek. apply contains_app.
    apply is_prefix_app.
  - intros Hin.
    assert (H2 : forallb not_newline (a' ++ (c :: p') ++ b') = true).
    { rewrite Hxy, forallb_app, forallb_app in Hall.
      apply andb_true_iff in Hall as [_ Hall]. apply andb_true_iff in Hall as [Hall _]. exact Hall. }
    rewrite forallb_forall in H2. specialize (H2 _ Hin). discriminate.
  - rewrite length_string_of_list_ascii.
    apply (f_equal (@List.length _)) in Hxy. rewrite !length_app in Hxy.
    rewrite !length_app in *. rewrite Hlen in *. lia.
Qed.

(** X13: [extract_clauses] returns, in the order of the keyword table, exactly one clause for each keyword that occurs (case-insensitively) in the text, and each excerpt is a single line that contains its keyword (case-insensitively) and is at most 400 characters longer than it. *)
Theorem extract_clauses_one_per_keyword (contract_text : string) :
  map (fun c => (clause_type c, clause_keyword c)) (extract_clauses contract_text) =
  filter (fun '(_, keyword) => str_contains keyword (str_lower contract_text))
    (flat_map (fun '(clause_type, keywords) => map (pair clause_type) keywords) clause_keywords) /\
  Forall (fun c => str_contains (clause_keyword c) (str_lower (clause_excerpt c)) = true /\
                   ~ In "010"%char (ascii_list (clause_excerpt c)) /\
                   (String.length (clause_excerpt c) <= 400 + String.length (clause_keyword c))%nat)
    (extract_clauses contract_text).
Proof.
  unfold extract_clauses. pose proof clause_keywords_plain as Hplain.
  induction clause_keywords as [|[t kws] T IH]; [split; [reflexivity|constructor]|].
  simpl in Hplain |- *. apply andb_true_iff in Hplain as [Hkws HT].
  destruct (IH HT) as [IH1 IH2]. clear IH HT.
  rewrite map_app, filter_app, IH1. split; [f_equal|apply Forall_app; split; [|exact IH2]].
  - clear IH1 IH2. induction kws as [|kw kws IHk]; [reflexivity|].
    simpl in Hkws |- *. apply andb_true_iff in Hkws as [Hkw Hkws].
    assert (Hl : str_lower kw = kw).
    { unfold plain_keyword in Hkw. apply andb_true_iff in Hkw as [Hkw _].
      apply andb_true_iff in Hkw as [Hkw _]. apply String.eqb_eq. exact Hkw. }
    rewrite Hl. destruct (str_contains kw (str_lower contract_text)) eqn:Ec.
    + destruct (clause_search (ascii_list kw) (ascii_list contract_text)) eqn:Es.
      * simpl. f_equal. apply IHk. exact Hkws.
      * exfalso. revert Es. apply clause_search_found.
        unfold str_contains in Ec. fold (ascii_list kw) in Ec.
        change (list_ascii_of_string (str_lower contract_text)) with (ascii_list (str_lower contract_text)) in Ec.
        rewrite str_lower_list in Ec. exact Ec.
    + apply IHk. exact Hkws.
  - clear IH1 IH2. induction kws as [|kw kws IHk]; [constructor|].
    simpl in Hkws |- *. apply andb_true_iff in Hkws as [Hkw Hkws].
    apply Forall_app. split; [|apply IHk; exact Hkws].
    destruct (str_contains (str_lower kw) (str_lower contract_text)); [|constructor].
    destruct (clause_search (ascii_list kw) (ascii_list contract_text)) eqn:Es; [|constructor].
    constructor; [|constructor]. simpl. exact (clause_excerpt_ok kw contract_text l Hkw Es).
Qed.

End ClauseFacts.

